(** * Apsis: a shallow embedding of the run lifecycle engine

    The development follows the Python sources:

    - [apsis/lib/api.py]      : [to_bool]
    - [apsis/cond/base.py]    : [_bind]
    - [apsis/service/main.py] : [QueueHandler]
    - [apsis/program.py]      : [ProcessProgram], [ShellCommandProgram]
    - [apsis/apsis.py]        : [Apsis], the lifecycle engine

    Python dictionaries are finite maps ([gmap]), exceptions are values of
    the type [exn], and a function that may raise returns a [result]. *)

From Stdlib Require Import ZArith Ascii String List Lia.
From stdpp Require Import base option list gmap strings pretty fin_maps.

Open Scope string_scope.

(** ** Exceptions and results *)

(** The payload carried by [ProgramError] and [ProgramFailure]; the engine
    reads [message], [meta], [times] and [outputs] off the exception. *)
Inductive MetaVal :=
| MStr (s : string)
| MInt (z : Z).

Record ProgramExc := {
  exc_message : string;
  exc_meta    : gmap string MetaVal;
  exc_times   : gmap string (option Z);
  exc_outputs : gmap string string;
}.

Inductive exn :=
| ValueError (msg : string)
| LookupError (msg : string)
| KeyError (key : string)
| IndexError
| AssertionError
| QueueFull
| OSError (msg : string)
| CancelledError
| ProgramError (e : ProgramExc)
| ProgramFailure (e : ProgramExc)
| DuplicateRun
| AlreadyTerminal
| AlreadyStarted.

Inductive result (A : Type) :=
| Ok (a : A)
| Raise (e : exn).
Arguments Ok {A} a.
Arguments Raise {A} e.

(** * Part I: the embedding *)

(** ** [apsis/lib/api.py] *)

Module Api.

(** [to_bool(string)]: membership in two literal sets, else [ValueError]. *)
Definition to_bool (s : string) : result bool :=
  if bool_decide (s ∈ ["True"; "true"; "T"; "t"]) then Ok true
  else if bool_decide (s ∈ ["False"; "false"; "F"; "f"]) then Ok false
  else Raise (ValueError ("unknown bool: " ++ s)).

End Api.

(** ** Jobs

    The job classes live in [apsis/jobs.py], which is not part of the
    sources at hand; the fields below are the ones the code reads:
    [job.job_id] and [job.params] in [_bind], [job.reruns.count],
    [job.reruns.delay], [job.reruns.max_delay] and [job.program] in
    [Apsis].  Times and durations are whole seconds. *)

Module Reruns.
Record t := {
  count     : nat;
  delay     : Z;
  max_delay : Z;
}.
End Reruns.

Module Job.
Record t := {
  job_id  : string;
  params  : list string;
  program : list string;
  reruns  : Reruns.t;
}.
End Job.

(** ** [apsis/cond/base.py] *)

Module Cond.

Section Bind.

(** [template_expand] is imported from [apsis.runs]; it may raise, and
    [get] catches a [KeyError] coming out of it. *)
Variable template_expand : string → gmap string string → result string.

Variable job : Job.t.
Variables obj_args inst_args bind_args : gmap string string.

(** The inner function [get(name)]: two [try] blocks that swallow
    [KeyError], then [LookupError]. *)
Definition get (name : string) : result string :=
  let first :=
    match obj_args !! name with
    | Some t => template_expand t bind_args
    | None => Raise (KeyError name)
    end in
  match first with
  | Ok v => Ok v
  | Raise (KeyError _) =>
      match inst_args !! name with
      | Some v => Ok v
      | None =>
          Raise (LookupError
                   ("no value for param " ++ name ++ " of job " ++ Job.job_id job))
      end
  | Raise e => Raise e
  end.

(** The dictionary comprehension [{ n: get(n) for n in job.params }]:
    the params are visited in order, the first exception aborts. *)
Fixpoint comprehend (names : list string) (acc : gmap string string)
  : result (gmap string string) :=
  match names with
  | [] => Ok acc
  | n :: rest =>
      match get n with
      | Ok v => comprehend rest (<[n := v]> acc)
      | Raise e => Raise e
      end
  end.

Definition _bind : result (gmap string string) :=
  comprehend (Job.params job) ∅.

End Bind.

(** The value the docstring promises for a parameter: the expanded
    [obj_args] entry when there is one, else the [inst_args] entry. *)
Definition bound_value (expand : string → gmap string string → string)
    (obj_args inst_args bind_args : gmap string string) (n : string)
  : option string :=
  match obj_args !! n with
  | Some t => Some (expand t bind_args)
  | None => inst_args !! n
  end.

Definition demo_job : Job.t :=
  {| Job.job_id := "j1"; Job.params := ["date"; "host"]; Job.program := [];
     Job.reruns := {| Reruns.count := 0; Reruns.delay := 0;
                      Reruns.max_delay := 0 |} |}.

Definition demo_expand (t : string) (args : gmap string string) : string :=
  t ++ "!".

(** Whether an expansion ends in [KeyError]. *)
Definition is_KeyError {A} (r : result A) : bool :=
  match r with
  | Raise (KeyError _) => true
  | _ => false
  end.

End Cond.

(** ** [apsis/service/main.py]: [QueueHandler] *)

Module Service.

(** An [asyncio.Queue]: [maxsize <= 0] means unbounded.  Queues are
    objects with identity, which [qid] stands for. *)
Record Queue := {
  qid     : nat;
  maxsize : Z;
  items   : list string;
}.

(** [Queue.full()]. *)
Definition full (q : Queue) : bool :=
  if (maxsize q <=? 0)%Z then false
  else (maxsize q <=? Z.of_nat (length (items q)))%Z.

(** [Queue.put_nowait(item)]: raises [QueueFull] on a full queue. *)
Definition put_nowait (q : Queue) (item : string) : result Queue :=
  if full q then Raise QueueFull
  else Ok {| qid := qid q; maxsize := maxsize q; items := items q ++ [item] |}.

Section Handler.

(** A log record and the handler's formatter, [self.__formatter.format]. *)
Context {LogRecord : Type}.
Variable format : LogRecord → string.

Record QueueHandler := {
  queues   : list Queue;
  next_qid : nat;
}.

Definition init : QueueHandler := {| queues := []; next_qid := 0 |}.

(** [register()] appends a fresh unbounded queue and returns it. *)
Definition register (h : QueueHandler) : Queue * QueueHandler :=
  let q := {| qid := next_qid h; maxsize := 0; items := [] |} in
  (q, {| queues := queues h ++ [q]; next_qid := S (next_qid h) |}).

(** [list.remove]: drops the first occurrence, [ValueError] when absent. *)
Fixpoint list_remove (i : nat) (qs : list Queue) : result (list Queue) :=
  match qs with
  | [] => Raise (ValueError "list.remove(x): x not in list")
  | q :: rest =>
      if decide (qid q = i) then Ok rest
      else match list_remove i rest with
           | Ok rest' => Ok (q :: rest')
           | Raise e => Raise e
           end
  end.

Definition unregister (h : QueueHandler) (q : Queue) : result QueueHandler :=
  match list_remove (qid q) (queues h) with
  | Ok qs => Ok {| queues := qs; next_qid := next_qid h |}
  | Raise e => Raise e
  end.

(** The loop of [emit]: [put_nowait] inside a [try] that passes on
    [QueueFull] only.  The queues visited so far keep what they got when
    an exception escapes. *)
Fixpoint emit_loop (data : string) (qs : list Queue)
  : result unit * list Queue :=
  match qs with
  | [] => (Ok (), [])
  | q :: rest =>
      match put_nowait q data with
      | Ok q' =>
          let '(r, rest') := emit_loop data rest in (r, q' :: rest')
      | Raise QueueFull =>
          let '(r, rest') := emit_loop data rest in (r, q :: rest')
      | Raise e => (Raise e, q :: rest)
      end
  end.

Definition emit (h : QueueHandler) (record : LogRecord)
  : result unit * QueueHandler :=
  let data := format record in
  let '(r, qs) := emit_loop data (queues h) in
  (r, {| queues := qs; next_qid := next_qid h |}).

(** What one queue holds after a record was offered to it. *)
Definition offered (data : string) (q : Queue) : Queue :=
  if full q then q
  else {| qid := qid q; maxsize := maxsize q; items := items q ++ [data] |}.

End Handler.

(** Records emitted one after another. *)
Definition emit_all {LogRecord} (format : LogRecord → string)
    (h : QueueHandler) (records : list LogRecord) : QueueHandler :=
  foldl (λ h r, (emit format h r).2) h records.

(** What a handler goes through: a client registers, a client
    unregisters the queue it holds, a record is logged. *)
Inductive HandlerOp {LogRecord : Type} :=
| OpRegister
| OpUnregister (q : Queue)
| OpEmit (record : LogRecord).
Arguments HandlerOp : clear implicits.

Definition handler_step {LogRecord} (format : LogRecord → string)
    (h : QueueHandler) (op : HandlerOp LogRecord) : QueueHandler :=
  match op with
  | OpRegister => (register h).2
  | OpUnregister q =>
      match unregister h q with
      | Ok h' => h'
      | Raise _ => h
      end
  | OpEmit record => (emit format h record).2
  end.

Definition handler_run {LogRecord} (format : LogRecord → string)
    (ops : list (HandlerOp LogRecord)) (h : QueueHandler) : QueueHandler :=
  foldl (handler_step format) h ops.

(** *** [websocket_log]

    The coroutine registers a queue and then forwards what arrives in it
    to the socket until the connection is closed; [finally] it
    unregisters the queue.  It is suspended in [await queue.get()] and in
    [await ws.send(...)], and the handler is used by others in between.
    The queue object is shared with the handler: the session names it by
    its id and finds it in the handler's list.  A cancellation of the
    coroutine from outside is not among the events. *)

(** How [await ws.send(data)] ends. *)
Inductive SendOutcome :=
| Sent
| ConnectionClosed
| SendFailed (e : exn).

(** What happens during a session: the handler is used by somebody
    else, [queue.get()] hands over the oldest message of the queue, the
    send ends. *)
Inductive WsEvent {LogRecord : Type} :=
| WsOther (op : HandlerOp LogRecord)
| WsGot
| WsSend (o : SendOutcome).
Arguments WsEvent : clear implicits.

(** Where the coroutine is. *)
Inductive WsState :=
| AwaitGet
| AwaitSend (data : string)
| WsReturned
| WsRaised (e : exn).

Record WsSession := {
  ws_handler : QueueHandler;
  ws_sent    : list string;
  ws_state   : WsState;
}.

(** The oldest message of the queue [i], and the queues once it is
    taken. *)
Fixpoint queue_get (i : nat) (qs : list Queue) : option (string * list Queue) :=
  match qs with
  | [] => None
  | q :: rest =>
      if decide (qid q = i) then
        match items q with
        | [] => None
        | data :: more =>
            Some (data, {| qid := qid q; maxsize := maxsize q; items := more |}
                          :: rest)
        end
      else (λ got, (got.1, q :: got.2)) <$> queue_get i rest
  end.

(** The [finally] clause, on the way to [final]. *)
Definition ws_finally (queue : Queue) (s : WsSession) (final : WsState)
  : WsSession :=
  match unregister (ws_handler s) queue with
  | Ok h => {| ws_handler := h; ws_sent := ws_sent s; ws_state := final |}
  | Raise e => {| ws_handler := ws_handler s; ws_sent := ws_sent s;
                  ws_state := WsRaised e |}
  end.

Definition ws_step {LogRecord} (format : LogRecord → string) (queue : Queue)
    (s : WsSession) (ev : WsEvent LogRecord) : WsSession :=
  match ws_state s, ev with
  | (AwaitGet | AwaitSend _), WsOther op =>
      {| ws_handler := handler_step format (ws_handler s) op;
         ws_sent := ws_sent s; ws_state := ws_state s |}
  | AwaitGet, WsGot =>
      match queue_get (qid queue) (queues (ws_handler s)) with
      | Some (data, qs) =>
          {| ws_handler := {| queues := qs;
                              next_qid := next_qid (ws_handler s) |};
             ws_sent := ws_sent s; ws_state := AwaitSend data |}
      | None => s
      end
  | AwaitSend data, WsSend Sent =>
      {| ws_handler := ws_handler s; ws_sent := ws_sent s ++ [data];
         ws_state := AwaitGet |}
  | AwaitSend _, WsSend ConnectionClosed => ws_finally queue s WsReturned
  | AwaitSend _, WsSend (SendFailed e) => ws_finally queue s (WsRaised e)
  | _, _ => s
  end.

(** [websocket_log(request, ws)], as far as the events go. *)
Definition websocket_log {LogRecord} (format : LogRecord → string)
    (h : QueueHandler) (evs : list (WsEvent LogRecord)) : WsSession :=
  let '(queue, h1) := register h in
  foldl (ws_step format queue)
        {| ws_handler := h1; ws_sent := []; ws_state := AwaitGet |} evs.

(** The records logged during a session. *)
Definition emitted {LogRecord} (evs : list (WsEvent LogRecord)) : list LogRecord :=
  omap (λ ev, match ev with WsOther (OpEmit r) => Some r | _ => None end) evs.

(** Nobody but the session unregisters the queue [i]. *)
Definition own_queue {LogRecord} (i : nat) (evs : list (WsEvent LogRecord)) : Prop :=
  Forall (λ ev, match ev with
                | WsOther (OpUnregister q) => qid q ≠ i
                | _ => True
                end) evs.

(** Handlers as [register] builds them: every queue has an id below the
    counter, no id twice, and every queue is unbounded. *)
Definition handler_wf (h : QueueHandler) : Prop :=
  Forall (λ q, (qid q < next_qid h)%nat ∧ maxsize q = 0%Z) (queues h) ∧
  NoDup (qid <$> queues h).

(** The records a queue still takes. *)
Definition room (q : Queue) : option nat :=
  if (maxsize q <=? 0)%Z then None
  else Some (Z.to_nat (maxsize q) - length (items q))%nat.

Definition taken (q : Queue) (data : list string) : list string :=
  match room q with
  | None => data
  | Some n => take n data
  end.

(** What holds during a session on the queue [i], [em] being the
    records logged so far. *)
Definition ws_inv {LogRecord} (format : LogRecord → string) (i : nat) (em : list LogRecord) (s : WsSession) : Prop :=
  handler_wf (ws_handler s) ∧
  match ws_state s with
  | AwaitGet =>
      ∃ q, q ∈ queues (ws_handler s) ∧ qid q = i ∧
           (ws_sent s ++ items q)%list = format <$> em
  | AwaitSend data =>
      ∃ q, q ∈ queues (ws_handler s) ∧ qid q = i ∧
           (ws_sent s ++ data :: items q)%list = format <$> em
  | WsReturned | WsRaised _ =>
      (i ∉ (qid <$> queues (ws_handler s))) ∧
      ws_sent s `prefix_of` (format <$> em) ∧ em ≠ []
  end.


(** A session: two records are logged, the first is sent, and the
    connection is found closed at the second. *)
Definition demo_session : list (WsEvent string) :=
  [ WsOther (OpEmit "a"); WsGot; WsOther (OpEmit "b"); WsSend Sent;
    WsOther OpRegister; WsGot; WsSend ConnectionClosed ].

End Service.

(** ** [apsis/program.py] *)

Module Program.

(** *** The operating system, as the program classes see it *)

(** A value for [stdin=], [stdout=] or [stderr=] of
    [asyncio.create_subprocess_exec]. *)
Inductive Stdio :=
| File (path : string)
| PIPE
| STDOUT.

(** One call of [asyncio.create_subprocess_exec]: the positional
    arguments and the keywords [executable], [stdin], [stdout], [stderr]. *)
Record Spawn := {
  sp_args       : list string;
  sp_executable : string;
  sp_stdin      : Stdio;
  sp_stdout     : Stdio;
  sp_stderr     : Stdio;
}.

(** What a child does once spawned: it writes chunks to its descriptors
    1 and 2 in some order, then exits. *)
Inductive Fd := Fd1 | Fd2.

#[global] Instance Fd_eq_dec : EqDecision Fd.
Proof. solve_decision. Defined.

Record Child := {
  child_pid    : Z;
  child_writes : list (Fd * string);
  child_exit   : Z;
}.

(** An [asyncio.subprocess.Process]. *)
Record Proc := {
  proc_spawn : Spawn;
  proc_child : Child;
}.

(** The system calls, either of which may raise. *)
Record OS := {
  os_open  : string → result unit;
  os_spawn : Spawn → result Child;
}.

(** What [start] and [wait] read from their surroundings:
    [socket.gethostname()], [getpass.getuser()] and [str(now())]. *)
Record Env := {
  gethostname : string;
  getuser     : string;
  now_str     : string;
}.

Definition written_to (fds : list Fd) (c : Child) : string :=
  String.concat ""
    (snd <$> filter (λ w, fst w ∈ fds) (child_writes c)).

(** [proc.communicate()]: a stream is returned when it was opened as a
    pipe; with [stderr=STDOUT] descriptor 2 shares the pipe of
    descriptor 1. *)
Definition communicate (p : Proc) : option string * option string :=
  let sp := proc_spawn p in
  let out :=
    match sp_stdout sp, sp_stderr sp with
    | PIPE, STDOUT => Some (written_to [Fd1; Fd2] (proc_child p))
    | PIPE, _ => Some (written_to [Fd1] (proc_child p))
    | _, _ => None
    end in
  let err :=
    match sp_stderr sp with
    | PIPE => Some (written_to [Fd2] (proc_child p))
    | _ => None
    end in
  (out, err).

(** [proc.returncode] once [communicate] has returned. *)
Definition returncode (p : Proc) : option Z := Some (child_exit (proc_child p)).

(** *** The run, as the program classes see it: [run.meta], [run.output] *)

Record Run := {
  meta   : gmap string MetaVal;
  output : option string;
}.

(** [dict.update]: the new entries win. *)
Definition update {V} (new old : gmap string V) : gmap string V := new ∪ old.

Definition program_exc (msg : string) : ProgramExc :=
  {| exc_message := msg; exc_meta := ∅; exc_times := ∅; exc_outputs := ∅ |}.

(** *** [ProcessProgram] *)

Record ProcessProgram := {
  argv       : list string;
  executable : string;
}.

(** The pieces of a string between slashes; [cur] is the piece being
    read. *)
Fixpoint split_slash (s cur : string) : list string :=
  match s with
  | EmptyString => [cur]
  | String c rest =>
      if Ascii.eqb c "/"%char then cur :: split_slash rest ""
      else split_slash rest (cur ++ String c "")
  end.

Fixpoint leading_slashes (s : string) : nat :=
  match s with
  | String c rest => if Ascii.eqb c "/"%char then S (leading_slashes rest) else 0
  | EmptyString => 0
  end.

(** [str(Path(s))] of [pathlib] on a POSIX system.  The path is taken
    apart at the slashes, and the empty pieces and the pieces ["."] are
    dropped; one leading slash is kept as the root, exactly two are kept
    as two, three or more count as one; a path with no root and no
    piece is ["."]. *)
Definition Path (s : string) : string :=
  let parts := filter (λ x, x ≠ "" ∧ x ≠ ".") (split_slash s "") in
  match leading_slashes s with
  | 0%nat => if decide (parts = []) then "." else String.concat "/" parts
  | 2%nat => "//" ++ String.concat "/" parts
  | _ => "/" ++ String.concat "/" parts
  end.

(** [__init__(argv)]: [Path(argv[0])] raises [IndexError] on an empty
    vector; the executable is kept as a path, which [str] and the
    spawn call read in its normal form. *)
Definition ProcessProgram_init (argv : list string) : result ProcessProgram :=
  match argv with
  | [] => Raise IndexError
  | a :: _ => Ok {| argv := argv; executable := Path a |}
  end.

(** [shlex.quote]. *)
Definition safe_char (c : ascii) : bool :=
  let n := nat_of_ascii c in
  ((48 <=? n)%nat && (n <=? 57)%nat) || ((65 <=? n)%nat && (n <=? 90)%nat) ||
  ((97 <=? n)%nat && (n <=? 122)%nat) ||
  bool_decide (c ∈ list_ascii_of_string "_@%+=:,./-").

Definition dquote : string := String (ascii_of_nat 34) "".

Fixpoint escape_squotes (s : string) : string :=
  match s with
  | EmptyString => EmptyString
  | String c rest =>
      if Ascii.eqb c "'"%char
      then "'" ++ dquote ++ "'" ++ dquote ++ "'" ++ escape_squotes rest
      else String c (escape_squotes rest)
  end.

Definition shlex_quote (s : string) : string :=
  match s with
  | EmptyString => "''"
  | _ => if forallb safe_char (list_ascii_of_string s) then s
         else "'" ++ escape_squotes s ++ "'"
  end.

(** [__str__]. *)
Definition ProcessProgram_str (self : ProcessProgram) : string :=
  String.concat " " (shlex_quote <$> argv self).

(** [to_jso]: the one entry ["argv"]. *)
Definition to_jso (self : ProcessProgram) : gmap string (list string) :=
  {[ "argv" := argv self ]}.

Section Running.

Variable os : OS.
Variable env : Env.

(** [start(run)]. *)
Definition start (self : ProcessProgram) (run : Run) : result Proc * Run :=
  let run' :=
    {| meta := update {[ "hostname"   := MStr (gethostname env);
                         "username"   := MStr (getuser env);
                         "start_time" := MStr (now_str env) ]} (meta run);
       output := output run |} in
  let spawned :=
    match os_open os "/dev/null" with
    | Ok _ =>
        let sp := {| sp_args := argv self;
                     sp_executable := executable self;
                     sp_stdin := File "/dev/null";
                     sp_stdout := PIPE;
                     sp_stderr := STDOUT |} in
        match os_spawn os sp with
        | Ok child => Ok {| proc_spawn := sp; proc_child := child |}
        | Raise e => Raise e
        end
    | Raise e => Raise e
    end in
  match spawned with
  | Ok proc => (Ok proc, run')
  | Raise (OSError msg) => (Raise (ProgramError (program_exc msg)), run')
  | Raise e => (Raise e, run')
  end.

(** [wait(run, proc)]. *)
Definition wait (self : ProcessProgram) (run : Run) (proc : Proc)
  : result unit * Run :=
  let '(stdout, stderr) := communicate proc in
  let end_time := now_str env in
  match stderr, returncode proc with
  | Some _, _ => (Raise AssertionError, run)
  | None, None => (Raise AssertionError, run)
  | None, Some return_code =>
      let run' :=
        {| meta := update {[ "pid"         := MInt (child_pid (proc_child proc));
                             "return_code" := MInt return_code;
                             "end_time"    := MStr end_time ]} (meta run);
           output := stdout |} in
      if (return_code =? 0)%Z then (Ok (), run')
      else (Raise (ProgramFailure
                     (program_exc ("return code = " ++ pretty return_code))),
            run')
  end.

End Running.

(** *** [ShellCommandProgram(ProcessProgram)] *)

(** A program object is an instance of one of the two classes; the
    subclass adds the attribute [__command]. *)
Inductive Program :=
| Process (p : ProcessProgram)
| ShellCommand (p : ProcessProgram) (command : string).

(** [ShellCommandProgram.__init__(command)]. *)
Definition ShellCommandProgram_init (command : string) : result Program :=
  match ProcessProgram_init ["/bin/bash"; "-c"; command] with
  | Ok p => Ok (ShellCommand p command)
  | Raise e => Raise e
  end.

(** Method lookup: [start], [wait] and [to_jso] are inherited, [__str__]
    is overridden. *)
Definition instance (prog : Program) : ProcessProgram :=
  match prog with
  | Process p => p
  | ShellCommand p _ => p
  end.

Definition prog_start os env (prog : Program) := start os env (instance prog).
Definition prog_wait env (prog : Program) := wait env (instance prog).
Definition prog_to_jso (prog : Program) := to_jso (instance prog).

Definition prog_str (prog : Program) : string :=
  match prog with
  | Process p => ProcessProgram_str p
  | ShellCommand _ command => command
  end.

(** *** Sample surroundings for the examples *)

Definition demo_env : Env :=
  {| gethostname := "host1"; getuser := "apsis"; now_str := "2018-01-01T00:00:00Z" |}.

(** A system on which every spawn succeeds; the child writes to both
    descriptors and exits with [code]. *)
Definition demo_os (code : Z) : OS :=
  {| os_open := λ _, Ok ();
     os_spawn := λ _, Ok {| child_pid := 4242;
                            child_writes := [(Fd1, "out1 "); (Fd2, "err "); (Fd1, "out2")];
                            child_exit := code |} |}.

(** A system that has [/bin/sh] and no other executable. *)
Definition sh_only_os : OS :=
  {| os_open := λ _, Ok ();
     os_spawn := λ sp,
       if String.eqb (sp_executable sp) "/bin/sh"
       then Ok {| child_pid := 1; child_writes := []; child_exit := 0 |}
       else Raise (OSError "No such file or directory") |}.

Definition demo_run : Run := {| meta := ∅; output := None |}.

Definition demo_program : ProcessProgram :=
  {| argv := ["/bin/echo"; "hello"]; executable := "/bin/echo" |}.

Definition bin_sh_true : ProcessProgram :=
  {| argv := ["/bin/sh"; "-c"; "true"]; executable := "/bin/sh" |}.

Definition bin_bash_true : ProcessProgram :=
  {| argv := ["/bin/bash"; "-c"; "true"]; executable := "/bin/bash" |}.

(** The process [demo_program] becomes on [demo_os 7], and the run
    [start] leaves behind. *)
Definition demo_proc : Proc :=
  {| proc_spawn := {| sp_args := ["/bin/echo"; "hello"];
                      sp_executable := "/bin/echo";
                      sp_stdin := File "/dev/null";
                      sp_stdout := PIPE;
                      sp_stderr := STDOUT |};
     proc_child := {| child_pid := 4242;
                      child_writes := [(Fd1, "out1 "); (Fd2, "err "); (Fd1, "out2")];
                      child_exit := 7 |} |}.

Definition demo_started : Run :=
  {| meta := update {[ "hostname"   := MStr "host1";
                       "username"   := MStr "apsis";
                       "start_time" := MStr "2018-01-01T00:00:00Z" ]} ∅;
     output := None |}.

(** *** [from_jso]

    The class method [from_jso(class_, jso)] calls the class on
    [jso["argv"]]; on [ShellCommandProgram] the vector it passes arrives as
    the parameter [command], which [__init__] turns into a string with
    [str]. *)

Definition jso_argv (jso : gmap string (list string)) : result (list string) :=
  match jso !! "argv" with
  | Some argv => Ok argv
  | None => Raise (KeyError "argv")
  end.

Definition ProcessProgram_from_jso (jso : gmap string (list string))
  : result Program :=
  match jso_argv jso with
  | Ok argv =>
      match ProcessProgram_init argv with
      | Ok p => Ok (Process p)
      | Raise e => Raise e
      end
  | Raise e => Raise e
  end.

Section FromJso.

(** Python's [str] of a list of strings. *)
Variable str_list : list string → string.

Definition ShellCommandProgram_from_jso (jso : gmap string (list string))
  : result Program :=
  match jso_argv jso with
  | Ok argv => ShellCommandProgram_init (str_list argv)
  | Raise e => Raise e
  end.

End FromJso.

End Program.

(** ** [apsis/apsis.py]: the lifecycle engine *)

Module Engine.

(** *** Runs

    [apsis/runs.py] is not part of the sources at hand.  The record below
    has the attributes of a run that [Apsis] reads and writes. *)

Module Inst.
Record t := {
  job_id : string;
  args   : gmap string string;
}.
End Inst.

(** What [job.program.bind(args)] returns: the template with the
    bindings it was given. *)
Record BoundProgram := {
  template : list string;
  bindings : gmap string string;
}.

Module Run.

Module STATE.
Inductive t := new | scheduled | running | error | success | failure.

Definition name (s : t) : string :=
  match s with
  | new => "new"
  | scheduled => "scheduled"
  | running => "running"
  | error => "error"
  | success => "success"
  | failure => "failure"
  end.
End STATE.

Record t := {
  run_id   : nat;
  inst     : Inst.t;
  rerun    : option nat;
  expected : bool;
  state    : STATE.t;
  times    : gmap string (option Z);
  meta     : gmap string MetaVal;
  message  : option string;
  program  : option BoundProgram;
}.

(** Modelled from the spec: the constructor [Run(inst, rerun=None)] of
    [apsis/runs.py].  A run starts in state [new]; its [rerun] is the id
    of the original run, or its own id when it is the original; [times]
    always has the entry [schedule].  The fresh [run_id] is handed in. *)
Definition init (run_id : nat) (inst : Inst.t) (rerun : option nat)
    (expected : bool) : t :=
  {| run_id := run_id; inst := inst;
     rerun := Some (default run_id rerun);
     expected := expected; state := STATE.new;
     times := {[ "schedule" := None ]}; meta := ∅;
     message := None; program := None |}.

(** Modelled from the spec: the state graph.  A [new] run goes to
    [scheduled], [running] or [error], a [scheduled] run to [running] or
    [error], a [running] run to [success], [failure] or [error]; the
    terminal states [success], [failure] and [error] are absorbing. *)
Definition allowed (from to : STATE.t) : bool :=
  match from, to with
  | STATE.new, (STATE.scheduled | STATE.running | STATE.error) => true
  | STATE.scheduled, (STATE.running | STATE.error) => true
  | STATE.running, (STATE.success | STATE.failure | STATE.error) => true
  | _, _ => false
  end.

(** Modelled from the spec: the terminal states. *)
Definition terminal (s : STATE.t) : bool :=
  match s with
  | STATE.success | STATE.failure | STATE.error => true
  | _ => false
  end.

(** Modelled from the spec: what a refused transition raises.  The
    specification names two precondition errors, [AlreadyTerminal] for
    a run in a terminal state and [AlreadyStarted]; the latter stands
    for every other refusal. *)
Definition refusal (from : STATE.t) : exn :=
  if terminal from then AlreadyTerminal else AlreadyStarted.

(** Modelled from the spec: the run object once a transition is
    applied.  The state is
    replaced, the message overwritten, [meta] and [times] are merged
    into the run's own, and the time at which the state was entered is
    recorded. *)
Definition applied (run : t) (time : Z) (state : STATE.t)
    (message : option string) (meta : gmap string MetaVal)
    (times : gmap string (option Z)) : t :=
  {| run_id := run_id run; inst := inst run; rerun := rerun run;
     expected := expected run;
     state := state;
     times := times ∪ <[ STATE.name state := Some time ]> (Run.times run);
     meta := meta ∪ Run.meta run;
     message := message;
     program := program run |}.

(** Modelled from the spec: the method [Run._transition(time, state,
    meta=, times=, message=)] of [apsis/runs.py].  The state graph is
    enforced here: a transition that is in the graph is applied, any
    other raises and leaves the run as it is. *)
Definition _transition (run : t) (time : Z) (state : STATE.t)
    (message : option string) (meta : gmap string MetaVal)
    (times : gmap string (option Z)) : result t :=
  if allowed (Run.state run) state
  then Ok (applied run time state message meta times)
  else Raise (refusal (Run.state run)).

Definition set_program (run : t) (p : BoundProgram) : t :=
  {| run_id := run_id run; inst := inst run; rerun := rerun run;
     expected := expected run; state := state run; times := times run;
     meta := meta run; message := message run; program := Some p |}.

End Run.

#[global] Instance STATE_eq_dec : EqDecision Run.STATE.t.
Proof. solve_decision. Defined.

(** What a program hands over when it has started ([running.__dict__])
    and when it has finished ([success.meta], [success.times],
    [success.outputs]). *)
Record ProgramRunning := {
  running_meta  : gmap string MetaVal;
  running_times : gmap string (option Z);
}.

Record ProgramSuccess := {
  success_meta    : gmap string MetaVal;
  success_times   : gmap string (option Z);
  success_outputs : gmap string string;
}.

(** *** Futures

    An [asyncio] future is pending until it is resolved, with a value,
    with an exception, or by cancellation, which is the exception
    [CancelledError].  [fut_run] is the run the callback [done] of
    [__wait] closes over. *)
Inductive FutState :=
| Pending
| Resolved (r : result ProgramSuccess).

Record Future := {
  fut_run   : nat;
  fut_state : FutState;
}.

Definition cancelled (f : Future) : bool :=
  match fut_state f with
  | Resolved (Raise CancelledError) => true
  | _ => false
  end.

(** *** The state of the engine

    [jobs], [runs], [scheduled], [outputs] and [running_tasks] are the
    attributes of [Apsis].  A run object is named by its [run_id], so
    that the run table, the timed queue and the callbacks share it.
    The remaining fields are the surroundings: the run database behind
    [Runs], the futures and the coroutines the event loop holds, the log,
    the id counters, the clock read by [now()], and whether the event
    loop was told to stop. *)
Record Apsis := {
  jobs          : gmap string Job.t;
  runs          : gmap nat Run.t;
  scheduled     : list (Z * nat);
  outputs       : gmap (nat * string) string;
  running_tasks : gmap nat nat;
  run_db        : gmap nat (Z * Run.t);
  futures       : gmap nat Future;
  loop_tasks    : list (nat * option Z);
  log           : list string;
  next_run_id   : nat;
  next_future   : nat;
  clock         : Z;
  loop_stopped  : bool;
}.

Definition set_runs (f : gmap nat Run.t → gmap nat Run.t) (a : Apsis) :=
  {| jobs := jobs a; runs := f (runs a); scheduled := scheduled a;
     outputs := outputs a; running_tasks := running_tasks a;
     run_db := run_db a; futures := futures a; loop_tasks := loop_tasks a;
     log := log a; next_run_id := next_run_id a;
     next_future := next_future a; clock := clock a;
     loop_stopped := loop_stopped a |}.

Definition set_scheduled (f : list (Z * nat) → list (Z * nat)) (a : Apsis) :=
  {| jobs := jobs a; runs := runs a; scheduled := f (scheduled a);
     outputs := outputs a; running_tasks := running_tasks a;
     run_db := run_db a; futures := futures a; loop_tasks := loop_tasks a;
     log := log a; next_run_id := next_run_id a;
     next_future := next_future a; clock := clock a;
     loop_stopped := loop_stopped a |}.

Definition set_outputs
    (f : gmap (nat * string) string → gmap (nat * string) string) (a : Apsis) :=
  {| jobs := jobs a; runs := runs a; scheduled := scheduled a;
     outputs := f (outputs a); running_tasks := running_tasks a;
     run_db := run_db a; futures := futures a; loop_tasks := loop_tasks a;
     log := log a; next_run_id := next_run_id a;
     next_future := next_future a; clock := clock a;
     loop_stopped := loop_stopped a |}.

Definition set_running_tasks (f : gmap nat nat → gmap nat nat) (a : Apsis) :=
  {| jobs := jobs a; runs := runs a; scheduled := scheduled a;
     outputs := outputs a; running_tasks := f (running_tasks a);
     run_db := run_db a; futures := futures a; loop_tasks := loop_tasks a;
     log := log a; next_run_id := next_run_id a;
     next_future := next_future a; clock := clock a;
     loop_stopped := loop_stopped a |}.

Definition set_run_db
    (f : gmap nat (Z * Run.t) → gmap nat (Z * Run.t)) (a : Apsis) :=
  {| jobs := jobs a; runs := runs a; scheduled := scheduled a;
     outputs := outputs a; running_tasks := running_tasks a;
     run_db := f (run_db a); futures := futures a; loop_tasks := loop_tasks a;
     log := log a; next_run_id := next_run_id a;
     next_future := next_future a; clock := clock a;
     loop_stopped := loop_stopped a |}.

Definition set_futures (f : gmap nat Future → gmap nat Future) (a : Apsis) :=
  {| jobs := jobs a; runs := runs a; scheduled := scheduled a;
     outputs := outputs a; running_tasks := running_tasks a;
     run_db := run_db a; futures := f (futures a); loop_tasks := loop_tasks a;
     log := log a; next_run_id := next_run_id a;
     next_future := next_future a; clock := clock a;
     loop_stopped := loop_stopped a |}.

Definition set_loop_tasks
    (f : list (nat * option Z) → list (nat * option Z)) (a : Apsis) :=
  {| jobs := jobs a; runs := runs a; scheduled := scheduled a;
     outputs := outputs a; running_tasks := running_tasks a;
     run_db := run_db a; futures := futures a; loop_tasks := f (loop_tasks a);
     log := log a; next_run_id := next_run_id a;
     next_future := next_future a; clock := clock a;
     loop_stopped := loop_stopped a |}.

Definition set_log (f : list string → list string) (a : Apsis) :=
  {| jobs := jobs a; runs := runs a; scheduled := scheduled a;
     outputs := outputs a; running_tasks := running_tasks a;
     run_db := run_db a; futures := futures a; loop_tasks := loop_tasks a;
     log := f (log a); next_run_id := next_run_id a;
     next_future := next_future a; clock := clock a;
     loop_stopped := loop_stopped a |}.

Definition set_next_run_id (f : nat → nat) (a : Apsis) :=
  {| jobs := jobs a; runs := runs a; scheduled := scheduled a;
     outputs := outputs a; running_tasks := running_tasks a;
     run_db := run_db a; futures := futures a; loop_tasks := loop_tasks a;
     log := log a; next_run_id := f (next_run_id a);
     next_future := next_future a; clock := clock a;
     loop_stopped := loop_stopped a |}.

Definition set_next_future (f : nat → nat) (a : Apsis) :=
  {| jobs := jobs a; runs := runs a; scheduled := scheduled a;
     outputs := outputs a; running_tasks := running_tasks a;
     run_db := run_db a; futures := futures a; loop_tasks := loop_tasks a;
     log := log a; next_run_id := next_run_id a;
     next_future := f (next_future a); clock := clock a;
     loop_stopped := loop_stopped a |}.

Definition set_clock (f : Z → Z) (a : Apsis) :=
  {| jobs := jobs a; runs := runs a; scheduled := scheduled a;
     outputs := outputs a; running_tasks := running_tasks a;
     run_db := run_db a; futures := futures a; loop_tasks := loop_tasks a;
     log := log a; next_run_id := next_run_id a;
     next_future := next_future a; clock := f (clock a);
     loop_stopped := loop_stopped a |}.

Definition set_loop_stopped (f : bool → bool) (a : Apsis) :=
  {| jobs := jobs a; runs := runs a; scheduled := scheduled a;
     outputs := outputs a; running_tasks := running_tasks a;
     run_db := run_db a; futures := futures a; loop_tasks := loop_tasks a;
     log := log a; next_run_id := next_run_id a;
     next_future := next_future a; clock := clock a;
     loop_stopped := f (loop_stopped a) |}.

(** *** Methods as state transformers that may raise

    A method takes the engine to a new engine and either returns or
    raises; what was written before the exception stays written. *)
Definition M (A : Type) : Type := Apsis → result A * Apsis.

Definition ret {A} (a : A) : M A := λ st, (Ok a, st).

Definition bind {A B} (m : M A) (k : A → M B) : M B :=
  λ st, match m st with
        | (Ok a, st') => k a st'
        | (Raise e, st') => (Raise e, st')
        end.

Definition raise {A} (e : exn) : M A := λ st, (Raise e, st).

(** A call that touches nothing of the engine: its value is returned,
    its exception raised. *)
Definition of_result {A} (r : result A) : M A :=
  match r with
  | Ok a => ret a
  | Raise e => raise e
  end.
Definition gets {A} (f : Apsis → A) : M A := λ st, (Ok (f st), st).
Definition modify (f : Apsis → Apsis) : M unit := λ st, (Ok (), f st).

#[global] Instance M_ret : MRet M := @ret.
#[global] Instance M_bind : MBind M := λ A B k m, bind m k.

(** [for x in xs: body(x)]. *)
Fixpoint for_each {A} (xs : list A) (body : A → M unit) : M unit :=
  match xs with
  | [] => ret ()
  | x :: rest => body x ;; for_each rest body
  end.

(** [ora.now()]. *)
Definition now : M Z := gets clock.

(** [log.info(msg)]. *)
Definition log_info (msg : string) : M unit := modify (set_log (λ l, (l ++ [msg])%list)).

(** A run object, by its name.  Python passes the object itself; a name
    without an object does not arise there. *)
Definition the_run (run : nat) : M Run.t :=
  rs ← gets runs;
  match rs !! run with
  | Some r => ret r
  | None => raise (KeyError (pretty run))
  end.

(** An attribute write on the run object of that name. *)
Definition write_run (run : nat) (r : Run.t) : M unit :=
  modify (set_runs (insert run r)).

(** *** The collaborators of [Apsis]

    [Jobs], [Runs], [ScheduledRuns] and the output database are defined
    in modules that are not part of the sources at hand. *)

Module Jobs.
(** Modelled from the spec: [Jobs.get_job(job_id)] of [apsis/jobs.py],
    the lookup of a job in the catalog.  An unknown id raises. *)
Definition get_job (job_id : string) : M Job.t :=
  js ← gets jobs;
  match js !! job_id with
  | Some j => ret j
  | None => raise (LookupError job_id)
  end.
End Jobs.

Module Runs.
(** Modelled from the spec: [Runs.add(run)] of [apsis/runs.py].  It puts
    the run object into the table and fails if the id exists. *)
Definition add (r : Run.t) : M unit :=
  rs ← gets runs;
  match rs !! Run.run_id r with
  | Some _ => raise DuplicateRun
  | None => modify (set_runs (insert (Run.run_id r) r))
  end.

(** Modelled from the spec: [Runs.update(run, time)] of [apsis/runs.py].
    It overwrites the durable record of the run; an expected run is
    never persisted. *)
Definition update (run : nat) (time : Z) : M unit :=
  r ← the_run run;
  if Run.expected r then ret ()
  else modify (set_run_db (insert run (time, r))).

(** Modelled from the spec: [Runs.query(rerun=...)] of [apsis/runs.py],
    the runs of the table whose [rerun] is the given one. *)
Definition query (rerun : option nat) : M (gmap nat Run.t) :=
  rs ← gets runs;
  ret (filter (λ kr, Run.rerun kr.2 = rerun) rs).
End Runs.

Module ScheduledRuns.
(** Modelled from the spec: [ScheduledRuns.schedule(time, run)] of
    [apsis/scheduled.py].  It inserts the run; nothing happens if it is
    present with the same time. *)
Definition schedule (time : Z) (run : nat) : M unit :=
  modify (set_scheduled
            (λ q, if decide ((time, run) ∈ q) then q else (q ++ [(time, run)])%list)).

(** Modelled from the spec: [ScheduledRuns.unschedule(run)] of
    [apsis/scheduled.py].  It removes the run, silently if absent. *)
Definition unschedule (run : nat) : M unit :=
  modify (set_scheduled (filter (λ e, e.2 ≠ run))).

(** Modelled from the spec: one release of the loop of [ScheduledRuns],
    which takes an entry out of the queue once its time has come. *)
Fixpoint remove_due (now : Z) (run : nat) (q : list (Z * nat))
  : option (list (Z * nat)) :=
  match q with
  | [] => None
  | e :: q' =>
      if decide (e.2 = run ∧ (e.1 ≤ now)%Z) then Some q'
      else cons e <$> remove_due now run q'
  end.
End ScheduledRuns.

(** Modelled from the spec: [output_db.add(run_id, output_id, output)]. *)
Definition output_db_add (run_id : nat) (output_id : string) (output : string)
  : M unit :=
  modify (set_outputs (insert (run_id, output_id) output)).

(** Modelled from the spec: the constructor call [Run(inst, rerun=...)]
    with the fresh [run_id] it gets. *)
Definition new_Run (inst : Inst.t) (rerun : option nat) (expected : bool)
  : M Run.t :=
  id ← gets next_run_id;
  modify (set_next_run_id S);;
  ret (Run.init id inst rerun expected).

(** [str] of a run id that may be [None]. *)
Definition str_opt (o : option nat) : string :=
  match o with
  | Some n => pretty n
  | None => "None"
  end.

(** The one-element unpacking [x, = xs]. *)
Definition unpack_one {A} (xs : list A) : M A :=
  match xs with
  | [x] => ret x
  | [] => raise (ValueError "not enough values to unpack (expected 1, got 0)")
  | _ => raise (ValueError "too many values to unpack (expected 1)")
  end.

(** [asyncio.ensure_future(self.rerun(run, time=rerun_time))]: the
    coroutine is queued on the event loop and runs later. *)
Definition ensure_future_rerun (run : nat) (time : option Z) : M unit :=
  modify (set_loop_tasks (λ l, (l ++ [(run, time)])%list)).

(** *** [Apsis] *)

(** [__get_program(run)]. The dictionary display lets the instance
    arguments override [run_id] and [job_id]. *)
Definition __get_program (run : nat) : M BoundProgram :=
  r ← the_run run;
  job ← Jobs.get_job (Inst.job_id (Run.inst r));
  ret {| template := Job.program job;
         bindings := Inst.args (Run.inst r) ∪
                     {[ "run_id" := pretty (Run.run_id r);
                        "job_id" := Inst.job_id (Run.inst r) ]} |}.

(** [__rerun(run)]. *)
Definition __rerun (run : nat) : M unit :=
  r ← the_run run;
  job ← Jobs.get_job (Inst.job_id (Run.inst r));
  if decide (Reruns.count (Job.reruns job) = 0) then ret ()
  else
    rs ← Runs.query (Run.rerun r);
    if decide (Reruns.count (Job.reruns job) < size rs)
    then log_info ("retry max count exceeded: " ++ str_opt (Run.rerun r))
    else
      time ← now;
      main_run ← unpack_one
        (filter (λ r', Some (Run.run_id r') = Run.rerun r) (map_to_list rs).*2);
      sched ← match Run.times main_run !! "schedule" with
              | Some v => ret v
              | None => raise (KeyError "schedule")
              end;
      match sched with
      | Some t =>
          if decide (Reruns.max_delay (Job.reruns job) < time - t)%Z
          then log_info ("retry max delay exceeded: " ++ str_opt (Run.rerun r))
          else ret ()
      | None => ret ()
      end;;
      let rerun_time := (time + Reruns.delay (Job.reruns job))%Z in
      ensure_future_rerun run (Some rerun_time).

(** [_transition(run, state, *, outputs={}, **kw_args)]. *)
Definition _transition (run : nat) (state : Run.STATE.t)
    (message : option string) (meta : gmap string MetaVal)
    (times : gmap string (option Z)) (outputs : gmap string string)
  : M unit :=
  time ← now;
  r ← the_run run;
  r' ← of_result (Run._transition r time state message meta times);
  write_run run r';;
  for_each (map_to_list outputs)
           (λ o, output_db_add (Run.run_id r) o.1 o.2);;
  Runs.update run time;;
  if decide (state = Run.STATE.failure) then __rerun run else ret ().

(** The callback [done] defined in [__wait], for the run it closes
    over and the outcome [future.result()] gives. *)
Definition done (run : nat) (res : result ProgramSuccess) : M unit :=
  match res with
  | Raise CancelledError =>
      log_info ("canceled waiting for run to complete: " ++ pretty run)
  | Raise (ProgramFailure exc) =>
      _transition run Run.STATE.failure (Some (exc_message exc))
                  (exc_meta exc) (exc_times exc) (exc_outputs exc);;
      st ← gets running_tasks;
      match st !! run with
      | Some _ => modify (set_running_tasks (delete run))
      | None => raise (KeyError (pretty run))
      end
  | Raise (ProgramError exc) =>
      _transition run Run.STATE.error (Some (exc_message exc))
                  (exc_meta exc) (exc_times exc) (exc_outputs exc);;
      st ← gets running_tasks;
      match st !! run with
      | Some _ => modify (set_running_tasks (delete run))
      | None => raise (KeyError (pretty run))
      end
  | Raise e => raise e
  | Ok success =>
      _transition run Run.STATE.success None
                  (success_meta success) (success_times success)
                  (success_outputs success);;
      st ← gets running_tasks;
      match st !! run with
      | Some _ => modify (set_running_tasks (delete run))
      | None => raise (KeyError (pretty run))
      end
  end.

(** [asyncio.ensure_future(coro)]: a new pending future. *)
Definition ensure_future (run : nat) : M nat :=
  fid ← gets next_future;
  modify (set_next_future S);;
  modify (set_futures (insert fid {| fut_run := run; fut_state := Pending |}));;
  ret fid.

(** [__wait(run, future)]: the future goes into [__running_tasks] and
    gets [done] as its callback. *)
Definition __wait (run : nat) (future : nat) : M unit :=
  modify (set_running_tasks (insert run future)).

(** [__start(run)], for the outcome of [await run.program.start(run)]. *)
Definition __start (run : nat) (started : result ProgramRunning) : M unit :=
  r ← the_run run;
  match Run.program r with
  | None => p ← __get_program run; write_run run (Run.set_program r p)
  | Some _ => ret ()
  end;;
  match started with
  | Raise (ProgramError exc) =>
      _transition run Run.STATE.error (Some (exc_message exc))
                  (exc_meta exc) (exc_times exc) (exc_outputs exc)
  | Raise e => raise e
  | Ok running =>
      _transition run Run.STATE.running None
                  (running_meta running) (running_times running) ∅;;
      future ← ensure_future run;
      __wait run future
  end.

(** [schedule(time, run)]. *)
Definition schedule (time : option Z) (run : Run.t)
    (started : result ProgramRunning) : M unit :=
  Runs.add run;;
  match time with
  | None => __start (Run.run_id run) started
  | Some t =>
      ScheduledRuns.schedule t (Run.run_id run);;
      _transition (Run.run_id run) Run.STATE.scheduled None ∅
                  {[ "schedule" := Some t ]} ∅
  end.

(** [cancel(run)]. *)
Definition cancel (run : nat) : M unit :=
  ScheduledRuns.unschedule run;;
  _transition run Run.STATE.error (Some "cancelled") ∅ ∅ ∅.

(** [start(run)]. *)
Definition start (run : nat) (started : result ProgramRunning) : M unit :=
  ScheduledRuns.unschedule run;;
  __start run started.

(** [rerun(run, *, time=None)]. *)
Definition rerun (run : nat) (time : option Z)
    (started : result ProgramRunning) : M nat :=
  r ← the_run run;
  log_info ("rerun: " ++ pretty (Run.run_id r) ++ " at " ++
            match time with Some t => pretty t | None => "now" end);;
  let rerun := match Run.rerun r with
               | None => Run.run_id r
               | Some x => x
               end in
  new_run ← new_Run (Run.inst r) (Some rerun) false;
  schedule time new_run started;;
  ret (Run.run_id new_run).

(** A future is resolved, by the program it waits for or by
    cancellation, and its callback runs.  A future resolves once. *)
Definition resolve (future : nat) (res : result ProgramSuccess) : M unit :=
  fs ← gets futures;
  match fs !! future with
  | Some f =>
      match fut_state f with
      | Pending =>
          modify (set_futures
                    (insert future {| fut_run := fut_run f;
                                      fut_state := Resolved res |}));;
          done (fut_run f) res
      | Resolved _ => ret ()
      end
  | None => ret ()
  end.

(** [await task] on a future that is resolved. *)
Definition await (future : nat) : M unit :=
  fs ← gets futures;
  match fut_state <$> fs !! future with
  | Some (Resolved (Raise e)) => raise e
  | _ => ret ()
  end.

(** The body of the loop of [shut_down()], for one entry of
    [__running_tasks].  [task.cancel()] resolves a pending future with
    [CancelledError] and leaves any other as it is. *)
Definition cancel_task (run_id task : nat) : M unit :=
  fs ← gets futures;
  if default false (cancelled <$> fs !! task)
  then log_info ("task for " ++ pretty run_id ++ " already cancelled")
  else (log_info ("canceling task for " ++ pretty run_id);;
        resolve task (Raise CancelledError)).

Definition await_task (run_id task : nat) : M unit :=
  λ st, match await task st with
        | (Raise CancelledError, st') =>
            log_info ("task for " ++ pretty run_id ++ " canceled successfully") st'
        | other => other
        end.

(** [shut_down()].  The scheduler task is made in [__init__] from
    [scheduler.loop()], which is not part of the sources at hand;
    [scheduler] is what [await self.__scheduler_task] gives once the
    task was told to cancel: [CancelledError] if the cancellation went
    through, the result or the exception of the loop if it had ended
    before.  [loop.stop()] is recorded in [loop_stopped]. *)
Definition shut_down (scheduler : result unit) : M unit :=
  log_info "shutting down";;
  tasks ← gets running_tasks;
  for_each (map_to_list tasks)
           (λ entry, cancel_task entry.1 entry.2;; await_task entry.1 entry.2);;
  match scheduler with
  | Raise CancelledError => log_info "scheduler canceled"
  | Raise e => raise e
  | Ok _ => ret ()
  end;;
  log_info "done shutting down";;
  modify (set_loop_stopped (λ _, true)).

(** The timed queue releases a run whose time has come and hands it to
    [__start], the callback [ScheduledRuns] was constructed with. *)
Definition release (run : nat) (started : result ProgramRunning) : M unit :=
  q ← gets scheduled;
  time ← now;
  match ScheduledRuns.remove_due time run q with
  | Some q' => modify (set_scheduled (λ _, q'));; __start run started
  | None => ret ()
  end.

(** The event loop runs the oldest coroutine queued by
    [ensure_future_rerun]. *)
Definition run_task (started : result ProgramRunning) : M unit :=
  ts ← gets loop_tasks;
  match ts with
  | [] => ret ()
  | (run, time) :: rest =>
      modify (set_loop_tasks (λ _, rest));;
      rerun run time started;;
      ret ()
  end.

(** *** The engine in its surroundings

    What happens to an engine: time passes; the scheduler hands in a new
    run; the timed queue releases a run; a future resolves; the event
    loop runs a queued rerun; a user cancels a run; the engine is shut
    down.  Each event carries what the surroundings decide: the instance
    and the time, how the program start went, how the program ended,
    how the scheduler task ended. *)
Inductive Event :=
| Tick (dt : N)
| Schedule (time : option Z) (inst : Inst.t) (expected : bool)
           (started : result ProgramRunning)
| Release (run : nat) (started : result ProgramRunning)
| Resolve (future : nat) (res : result ProgramSuccess)
| RunTask (started : result ProgramRunning)
| Cancel (run : nat)
| ShutDown (scheduler : result unit).

Definition step (ev : Event) : M unit :=
  match ev with
  | Tick dt => modify (set_clock (λ t, t + Z.of_N dt)%Z)
  | Schedule time inst expected started =>
      run ← new_Run inst None expected;
      schedule time run started
  | Release run started => release run started
  | Resolve future res => resolve future res
  | RunTask started => run_task started
  | Cancel run => cancel run
  | ShutDown scheduler => shut_down scheduler
  end.

(** An exception that escapes a callback or a coroutine is reported by
    the event loop, and the engine goes on from the state reached.  The
    events are not cut off at [loop.stop()]: what holds of every list of
    events holds of those that end with the shutdown. *)
Definition exec (evs : list Event) (st : Apsis) : Apsis :=
  foldl (λ st ev, (step ev st).2) st evs.

(** An engine with a job catalog and nothing else. *)
Definition init (jobs : gmap string Job.t) (t0 : Z) : Apsis :=
  {| jobs := jobs; runs := ∅; scheduled := []; outputs := ∅;
     running_tasks := ∅; run_db := ∅; futures := ∅; loop_tasks := [];
     log := []; next_run_id := 0; next_future := 0; clock := t0;
     loop_stopped := false |}.

(** *** Rerun families *)

(** The runs of the table that share the rerun id [f]. *)
Definition family (st : Apsis) (f : nat) : gmap nat Run.t :=
  filter (λ kr, Run.rerun kr.2 = Some f) (runs st).

(** *** Sample engines *)

Definition failing_job (n : nat) (d md : Z) : Job.t :=
  {| Job.job_id := "j1"; Job.params := [];
     Job.program := ["/bin/sh"; "-c"; "exit 7"];
     Job.reruns := {| Reruns.count := n; Reruns.delay := d;
                      Reruns.max_delay := md |} |}.

Definition j1 : Inst.t := {| Inst.job_id := "j1"; Inst.args := ∅ |}.

Definition has_started : result ProgramRunning :=
  Ok {| running_meta := {[ "pid" := MInt 100 ]}; running_times := ∅ |}.

Definition exit_7 : result ProgramSuccess :=
  Raise (ProgramFailure
           {| exc_message := "return code = 7";
              exc_meta := {[ "return_code" := MInt 7 ]};
              exc_times := ∅;
              exc_outputs := {[ "output" := "" ]} |}).

(** Scenario 3 of the specification: policy [{count: 2, delay: 1,
    max_delay: 3600}], the program fails each time. *)
Definition scenario_3 : list Event :=
  [ Schedule None j1 false has_started;
    Tick 5; Resolve 0 exit_7; RunTask has_started;
    Tick 1; Release 1 has_started;
    Tick 5; Resolve 1 exit_7; RunTask has_started;
    Tick 1; Release 2 has_started;
    Tick 5; Resolve 2 exit_7; RunTask has_started ].

(** *** Sample engines for the claims on cancellation and on [max_delay] *)

(** One run of [j1], started at once and still running. *)
Definition one_running : Apsis :=
  exec [ Schedule None j1 false has_started; Tick 5 ]
       (init {[ "j1" := failing_job 2 1 3600 ]} 1000).

(** One run of [j1], scheduled for time 1100, cancelled at time 1001; the
    time is now 1006. *)
Definition cancelled_once : Apsis :=
  exec [ Schedule (Some 1100%Z) j1 false has_started; Tick 1; Cancel 0; Tick 5 ]
       (init {[ "j1" := failing_job 2 1 3600 ]} 1000).

(** One run of [j1] under the policy [{count: 2, delay: 60, max_delay:
    10}], scheduled for time 1100 and started then; the time is now
    2100, so that 1000 seconds have gone by since the schedule time. *)
Definition long_running : Apsis :=
  exec [ Schedule (Some 1100%Z) j1 false has_started; Tick 100;
         Release 0 has_started; Tick 1000 ]
       (init {[ "j1" := failing_job 2 60 10 ]} 1000).

(** The third failure of scenario 3 leaves the family at three runs. *)
Definition after_scenario_3 : Apsis :=
  exec scenario_3 (init {[ "j1" := failing_job 2 1 3600 ]} 1000).

Definition last_rerun : Run.t :=
  default (Run.init 0 j1 None false) (runs after_scenario_3 !! 2).


(** *** Counting the members and the live items of a family *)

(** The family a run belongs to. *)
Definition family_of (st : Apsis) (run : nat) : option nat :=
  runs st !! run ≫= Run.rerun.

Definition pending (f : Future) : bool :=
  match fut_state f with
  | Pending => true
  | Resolved _ => false
  end.

(** Runs of the family [f] waiting in the timed queue, runs of [f] with
    a pending future, queued reruns of runs of [f], and members of
    [f]. *)
Definition n_sched (st : Apsis) (f : nat) : nat :=
  length (filter (λ e, family_of st e.2 = Some f) (scheduled st)).

Definition n_wait (st : Apsis) (f : nat) : nat :=
  size (filter (λ kv, pending kv.2 ∧ family_of st (fut_run kv.2) = Some f)
               (futures st)).

Definition n_task (st : Apsis) (f : nat) : nat :=
  length (filter (λ t, family_of st t.1 = Some f) (loop_tasks st)).

Definition n_fam (st : Apsis) (f : nat) : nat := size (family st f).

(** The number of runs the policy of the original run [r0] allows its
    family. *)
Definition budget (st : Apsis) (r0 : Run.t) : nat :=
  match jobs st !! Inst.job_id (Run.inst r0) with
  | Some job => S (Reruns.count (Job.reruns job))
  | None => 1
  end.

(** A token: one unit held for the family [o], if any. *)
Definition tk (o : option nat) (f : nat) : nat :=
  if decide (o = Some f) then 1 else 0.

Section InvariantDef.

(** The job catalog the engine was started with. *)
Variable J : gmap string Job.t.

(** The invariant of the engine.  Within an operation a family may have
    given up its live item ([lt]) or a unit of its budget ([bt]) that
    the operation is about to hand back. *)
Record GInv (lt bt : option nat) (st : Apsis) : Prop := {
  g_ids : ∀ id r, runs st !! id = Some r →
            Run.run_id r = id ∧ (id < next_run_id st)%nat;
  g_fam : ∀ id r, runs st !! id = Some r →
            ∃ f r0, Run.rerun r = Some f ∧ runs st !! f = Some r0 ∧
                    Run.rerun r0 = Some f ∧ Run.inst r0 = Run.inst r;
  g_ref_sched : ∀ e, e ∈ scheduled st → is_Some (runs st !! e.2);
  g_ref_wait : ∀ k fu, futures st !! k = Some fu →
            (k < next_future st)%nat ∧ is_Some (runs st !! fut_run fu);
  g_ref_task : ∀ t, t ∈ loop_tasks st → is_Some (runs st !! t.1);
  g_live : ∀ f, (n_sched st f + n_wait st f + n_task st f + tk lt f ≤ 1)%nat;
  g_budget : ∀ f r0, runs st !! f = Some r0 →
            (n_fam st f + n_task st f + tk bt f ≤ budget st r0)%nat;
  g_jobs : jobs st = J;
}.

Definition Inv : Apsis → Prop := GInv None None.

End InvariantDef.

(** *** Weakest preconditions

    [wpe E m Q st]: from [st] the method [m] either returns [a] in a
    state with [Q a], or raises in a state with [E]. *)
Definition wpe {A} (E : Apsis → Prop) (m : M A) (Q : A → Apsis → Prop)
    (st : Apsis) : Prop :=
  match m st with
  | (Ok a, st') => Q a st'
  | (Raise _, st') => E st'
  end.


(** The run [id] is in the table with instance [x] and rerun id [y]. *)
Definition keeps (id : nat) (x : Inst.t) (y : option nat) (st : Apsis) : Prop :=
  ∃ r, runs st !! id = Some r ∧ Run.run_id r = id ∧ Run.inst r = x ∧
       Run.rerun r = y.


(** *** What a transition writes *)

(** The output database after the loop of [_transition] over
    [outputs.items()]. *)
Definition add_outputs (run_id : nat) (outs : gmap string string)
    (db : gmap (nat * string) string) : gmap (nat * string) string :=
  foldl (λ db o, <[(run_id, o.1) := o.2]> db) db (map_to_list outs).

(** The engine after the writes of [_transition(run, state, ...)] on
    the run object [r], before the rerun evaluation. *)
Definition transitioned (st : Apsis) (run : nat) (r : Run.t)
    (state : Run.STATE.t) (message : option string)
    (meta : gmap string MetaVal) (times : gmap string (option Z))
    (outs : gmap string string) : Apsis :=
  set_run_db
    (λ db, if Run.expected r then db
           else <[run := (clock st,
                          Run.applied r (clock st) state message meta times)]> db)
    (set_outputs (add_outputs (Run.run_id r) outs)
       (set_runs (insert run (Run.applied r (clock st) state message meta times))
          st)).

(** Two engines that differ at most in the log and in the queued
    reruns. *)
Definition same_but_log_and_tasks (st st' : Apsis) : Prop :=
  jobs st' = jobs st ∧ runs st' = runs st ∧ scheduled st' = scheduled st ∧
  outputs st' = outputs st ∧ running_tasks st' = running_tasks st ∧
  run_db st' = run_db st ∧ futures st' = futures st ∧
  next_run_id st' = next_run_id st ∧ next_future st' = next_future st ∧
  clock st' = clock st ∧ loop_stopped st' = loop_stopped st.

(** Two engines that differ at most in the log, in futures that went
    from pending to cancelled, and in whether the event loop was told
    to stop. *)
Definition same_but_cancelled (st st' : Apsis) : Prop :=
  jobs st' = jobs st ∧ runs st' = runs st ∧ scheduled st' = scheduled st ∧
  outputs st' = outputs st ∧ running_tasks st' = running_tasks st ∧
  run_db st' = run_db st ∧ loop_tasks st' = loop_tasks st ∧
  next_run_id st' = next_run_id st ∧ next_future st' = next_future st ∧
  clock st' = clock st ∧
  ∀ fid, futures st' !! fid = futures st !! fid ∨
         ∃ fu, futures st !! fid = Some fu ∧ fut_state fu = Pending ∧
               futures st' !! fid =
                 Some {| fut_run := fut_run fu;
                         fut_state := Resolved (Raise CancelledError) |}.

(** *** More sample values *)

Definition said_hello : ProgramSuccess :=
  {| success_meta := {[ "return_code" := MInt 0 ]}; success_times := ∅;
     success_outputs := {[ "output" := "hello" ]} |}.

(** The run of [one_running]. *)
Definition first_run : Run.t :=
  default (Run.init 0 j1 None false) (runs one_running !! 0).

Definition return_code_7 : ProgramExc :=
  {| exc_message := "return code = 7";
     exc_meta := {[ "return_code" := MInt 7 ]};
     exc_times := ∅;
     exc_outputs := {[ "output" := "" ]} |}.

(** One run of [j1], scheduled for time 1100 and waiting in the timed
    queue; the time is 1001. *)
Definition one_scheduled : Apsis :=
  exec [ Schedule (Some 1100%Z) j1 false has_started; Tick 1 ]
       (init {[ "j1" := failing_job 2 1 3600 ]} 1000).

Definition scheduled_run : Run.t :=
  default (Run.init 0 j1 None false) (runs one_scheduled !! 0).

(** What an exception on the way leaves behind: the run in the state
    it had, no durable record written, no future made. *)
Definition left_as (st : Apsis) (run : nat) (r : Run.t) (e : exn)
    (res : result unit * Apsis) : Prop :=
  res.1 = Raise e ∧
  Run.state <$> runs res.2 !! run = Some (Run.state r) ∧
  run_db res.2 = run_db st ∧
  futures res.2 = futures st ∧
  running_tasks res.2 = running_tasks st.

(** What [__start] leaves behind when the state graph lets the run go
    on, by the outcome of the program start. *)
Definition started_ok (st : Apsis) (run : nat) (r : Run.t)
    (started : result ProgramRunning) (res : result unit * Apsis) : Prop :=
  match started with
  | Ok running =>
      res.1 = Ok () ∧
      Run.state <$> runs res.2 !! run = Some Run.STATE.running ∧
      Run.meta <$> runs res.2 !! run = Some (running_meta running ∪ Run.meta r) ∧
      futures res.2
        = <[next_future st := {| fut_run := run; fut_state := Pending |}]> (futures st) ∧
      running_tasks res.2 = <[run := next_future st]> (running_tasks st)
  | Raise (ProgramError exc) =>
      res.1 = Ok () ∧
      Run.state <$> runs res.2 !! run = Some Run.STATE.error ∧
      Run.message <$> runs res.2 !! run = Some (Some (exc_message exc)) ∧
      futures res.2 = futures st ∧
      running_tasks res.2 = running_tasks st
  | Raise e => left_as st run r e res
  end.

(** What [__start] leaves behind on a run in any state.  The
    transition that follows the start is applied to a run that is [new]
    or [scheduled]; on any other run the state graph refuses the
    transition to [running], and on a run in a terminal state the one to
    [error] as well, and the refusal leaves [__start] as an exception. *)
Definition started_as (st : Apsis) (run : nat) (r : Run.t)
    (started : result ProgramRunning) (res : result unit * Apsis) : Prop :=
  let target := match started with
                | Ok _ => Some Run.STATE.running
                | Raise (ProgramError _) => Some Run.STATE.error
                | Raise _ => None
                end in
  match target with
  | Some state =>
      if Run.allowed (Run.state r) state then started_ok st run r started res
      else left_as st run r (Run.refusal (Run.state r)) res
  | None => started_ok st run r started res
  end.

(** *** The bookkeeping of the engine *)

(** Two run objects that differ at most in the bound program. *)
Definition same_but_program (r r' : Run.t) : Prop :=
  Run.run_id r' = Run.run_id r ∧ Run.inst r' = Run.inst r ∧
  Run.rerun r' = Run.rerun r ∧ Run.expected r' = Run.expected r ∧
  Run.state r' = Run.state r ∧ Run.times r' = Run.times r ∧
  Run.meta r' = Run.meta r ∧ Run.message r' = Run.message r.

(** How the run table, the timed queue, the futures, [__running_tasks]
    and the run database fit together. *)
Record SInv (st : Apsis) : Prop := {
  s_queue : ∀ t id, (t, id) ∈ scheduled st →
      ∃ r, runs st !! id = Some r ∧ Run.state r = Run.STATE.scheduled ∧
           Run.times r !! "schedule" = Some (Some t);
  s_once : NoDup (scheduled st).*2;
  s_future : ∀ fid fu, futures st !! fid = Some fu →
      (fid < next_future st)%nat ∧
      ∃ r, runs st !! fut_run fu = Some r ∧
           Run.state r ≠ Run.STATE.new ∧ Run.state r ≠ Run.STATE.scheduled;
  s_one : ∀ fid fid' fu fu',
      futures st !! fid = Some fu → futures st !! fid' = Some fu' →
      fut_run fu = fut_run fu' → fid = fid';
  s_registered : ∀ fid fu, futures st !! fid = Some fu →
      fut_state fu = Pending → running_tasks st !! fut_run fu = Some fid;
  s_task : ∀ run fid, running_tasks st !! run = Some fid →
      ∃ fu, futures st !! fid = Some fu ∧ fut_run fu = run;
  s_durable : ∀ id t r, run_db st !! id = Some (t, r) →
      ∃ r', runs st !! id = Some r' ∧ Run.expected r' = false ∧
            same_but_program r r';
  s_persisted : ∀ id r, runs st !! id = Some r → Run.expected r = false →
      Run.state r ≠ Run.STATE.new → is_Some (run_db st !! id);
}.

End Engine.

(** * Part II: the properties *)

Module ApiFacts.
Import Api.

Example to_bool_T : to_bool "T" = Ok true.
Proof. reflexivity. Qed.

Example to_bool_false : to_bool "false" = Ok false.
Proof. reflexivity. Qed.

Example to_bool_yes : to_bool "yes" = Raise (ValueError "unknown bool: yes").
Proof. reflexivity. Qed.

Example to_bool_upper : to_bool "TRUE" = Raise (ValueError "unknown bool: TRUE").
Proof. reflexivity. Qed.

(** C8. [to_bool] returns [True] exactly on "True", "true", "T", "t",
    returns [False] exactly on "False", "false", "F", "f", and raises
    [ValueError] exactly on every other string. *)
Theorem to_bool_total_on_eight (s : string) :
  (to_bool s = Ok true ↔ s ∈ ["True"; "true"; "T"; "t"]) ∧
  (to_bool s = Ok false ↔ s ∈ ["False"; "false"; "F"; "f"]) ∧
  ((∃ msg, to_bool s = Raise (ValueError msg)) ↔
   s ∉ ["True"; "true"; "T"; "t"; "False"; "false"; "F"; "f"]).
Proof.
  unfold to_bool.
  destruct (bool_decide_reflect (s ∈ ["True"; "true"; "T"; "t"])) as [Ht|Ht].
  - split; [tauto|]. split.
    + split; [discriminate|]. intros Hf.
      set_unfold. destruct Ht as [->|[->|[->|[->|[]]]]];
        destruct Hf as [?|[?|[?|[?|[]]]]]; discriminate.
    + split; [intros [? ?]; discriminate|]. intros Hn. exfalso. apply Hn.
      set_unfold. tauto.
  - destruct (bool_decide_reflect (s ∈ ["False"; "false"; "F"; "f"])) as [Hf|Hf].
    + split; [split; [discriminate|tauto]|]. split; [tauto|].
      split; [intros [? ?]; discriminate|]. intros Hn. exfalso. apply Hn.
      set_unfold. tauto.
    + split; [split; [discriminate|tauto]|].
      split; [split; [discriminate|tauto]|].
      split; [|eauto]. intros _. set_unfold. tauto.
Qed.

End ApiFacts.

Module CondFacts.
Import Cond.

Section BindFacts.

Variable expand : string → gmap string string → string.
Variable job : Job.t.
Variables obj_args inst_args bind_args : gmap string string.

Local Abbreviation get' := (get (λ t a, Ok (expand t a)) job obj_args inst_args bind_args).
Local Abbreviation comprehend' :=
  (comprehend (λ t a, Ok (expand t a)) job obj_args inst_args bind_args).
Local Abbreviation value := (bound_value expand obj_args inst_args bind_args).

Lemma get_bound n v : value n = Some v → get' n = Ok v.
Proof.
  unfold bound_value, get. destruct (obj_args !! n); [congruence|].
  intros ->. done.
Qed.

Lemma get_unbound n :
  value n = None →
  get' n = Raise (LookupError
                    ("no value for param " ++ n ++ " of job " ++ Job.job_id job)).
Proof.
  unfold bound_value, get. destruct (obj_args !! n); [discriminate|].
  intros ->. done.
Qed.

Lemma comprehend_ok names acc :
  Forall (λ n, is_Some (value n)) names →
  ∃ m, comprehend' names acc = Ok m ∧
       dom m = list_to_set names ∪ dom acc ∧
       (∀ n, n ∈ names → m !! n = value n) ∧
       (∀ n, n ∉ names → m !! n = acc !! n).
Proof.
  revert acc. induction names as [|a names IH]; intros acc Hall.
  - exists acc. simpl. split; [done|]. split; [set_solver|].
    split; [intros n Hn; inversion Hn|done].
  - apply Forall_cons in Hall as [[v Hv] Hall].
    simpl. rewrite (get_bound _ _ Hv).
    destruct (IH (<[a := v]> acc) Hall) as (m & Hm & Hdom & Hin & Hout).
    exists m. split; [done|]. split.
    { rewrite Hdom, dom_insert_L. set_solver. }
    split.
    + intros n Hn. destruct (decide (n ∈ names)) as [?|Hnot]; [by apply Hin|].
      apply elem_of_cons in Hn as [->|?]; [|done].
      rewrite (Hout _ Hnot), lookup_insert_eq. done.
    + intros n Hn. apply not_elem_of_cons in Hn as [Hne Hn].
      rewrite (Hout _ Hn). by rewrite lookup_insert_ne.
Qed.

Lemma comprehend_raises names acc :
  Exists (λ n, value n = None) names →
  ∃ n, n ∈ names ∧ value n = None ∧
       comprehend' names acc =
         Raise (LookupError
                  ("no value for param " ++ n ++ " of job " ++ Job.job_id job)).
Proof.
  revert acc. induction names as [|a names IH]; intros acc Hex.
  - inversion Hex.
  - simpl. destruct (value a) as [v|] eqn:Hv.
    + rewrite (get_bound _ _ Hv).
      apply Exists_cons in Hex as [Hex|Hex]; [congruence|].
      destruct (IH (<[a := v]> acc) Hex) as (n & Hn & Hnone & Hr).
      exists n. split; [by right|]. done.
    + rewrite (get_unbound _ Hv). exists a. split; [by left|]. done.
Qed.

(** C9. [_bind] returns a map whose key set is exactly [job.params]; each
    parameter is bound to its [obj_args] entry expanded with [bind_args]
    when there is one, else to its [inst_args] entry as it is; and when
    some parameter is in neither map the call raises [LookupError]. *)
Theorem _bind_binds_params :
  (Forall (λ n, is_Some (obj_args !! n) ∨ is_Some (inst_args !! n))
          (Job.params job) →
   ∃ m, _bind (λ t a, Ok (expand t a)) job obj_args inst_args bind_args = Ok m ∧
        dom m = list_to_set (Job.params job) ∧
        ∀ n, n ∈ Job.params job →
             m !! n = match obj_args !! n with
                      | Some t => Some (expand t bind_args)
                      | None => inst_args !! n
                      end) ∧
  (Exists (λ n, obj_args !! n = None ∧ inst_args !! n = None) (Job.params job) →
   ∃ n, n ∈ Job.params job ∧ obj_args !! n = None ∧ inst_args !! n = None ∧
        _bind (λ t a, Ok (expand t a)) job obj_args inst_args bind_args =
          Raise (LookupError
                   ("no value for param " ++ n ++ " of job " ++ Job.job_id job))).
Proof.
  split.
  - intros Hall.
    destruct (comprehend_ok (Job.params job) ∅) as (m & Hm & Hdom & Hin & _).
    { eapply Forall_impl; [exact Hall|]. intros n. unfold bound_value.
      destruct (obj_args !! n); [eauto|]. intros [[? ?]|?]; [done|done]. }
    exists m. split; [done|]. split; [|exact Hin].
    rewrite Hdom, dom_empty_L. set_solver.
  - intros Hex.
    destruct (comprehend_raises (Job.params job) ∅) as (n & Hn & Hnone & Hr).
    { eapply Exists_impl; [exact Hex|]. intros n [Ho Hi].
      unfold bound_value. by rewrite Ho. }
    exists n. unfold bound_value in Hnone.
    destruct (obj_args !! n) eqn:Ho; [discriminate|]. done.
Qed.

End BindFacts.

Example _bind_demo :
  _bind (λ t a, Ok (demo_expand t a)) demo_job
        {[ "date" := "{d}" ]} {[ "date" := "x"; "host" := "h1" ]} ∅
  = Ok {[ "date" := "{d}!"; "host" := "h1" ]}.
Proof. vm_compute. reflexivity. Qed.

Example _bind_demo_missing :
  _bind (λ t a, Ok (demo_expand t a)) demo_job {[ "date" := "{d}" ]} ∅ ∅
  = Raise (LookupError "no value for param host of job j1").
Proof. reflexivity. Qed.

(** A [KeyError] raised inside [template_expand] is swallowed as well: the
    parameter then falls back to [inst_args]. *)
Example _bind_expand_keyerror :
  _bind (λ t a, Raise (KeyError "d")) demo_job
        {[ "date" := "{d}" ]} {[ "date" := "x"; "host" := "h1" ]} ∅
  = Ok {[ "date" := "x"; "host" := "h1" ]}.
Proof. vm_compute. reflexivity. Qed.

(** *** The order of the parameters, exceptions of [template_expand], and
    arguments that name no parameter *)

Section BindOrder.

Variable template_expand : string → gmap string string → result string.
Variable job : Job.t.
Variables obj_args inst_args bind_args : gmap string string.

Local Abbreviation get1 := (get template_expand job obj_args inst_args bind_args).
Local Abbreviation comprehend1 :=
  (comprehend template_expand job obj_args inst_args bind_args).

Lemma comprehend_first_failure names acc e :
  comprehend1 names acc = Raise e ↔
  ∃ l1 n l2, names = (l1 ++ n :: l2)%list ∧
             Forall (λ x, ∃ v, get1 x = Ok v) l1 ∧ get1 n = Raise e.
Proof.
  revert acc. induction names as [|a names IH]; intros acc; simpl.
  - split; [done|]. intros (l1 & n & l2 & Hl & _). by destruct l1.
  - destruct (get1 a) as [v|e'] eqn:Ha.
    + rewrite IH. split.
      * intros (l1 & n & l2 & -> & Hall & Hn).
        exists (a :: l1), n, l2. split; [done|]. split; [|done].
        constructor; eauto.
      * intros (l1 & n & l2 & Hl & Hall & Hn). destruct l1 as [|b l1].
        -- simpl in Hl. injection Hl as -> ->. congruence.
        -- simpl in Hl. injection Hl as -> ->.
           apply Forall_cons in Hall as [_ Hall]. eauto 10.
    + split.
      * intros [= ->]. exists [], a, names. split; [done|]. split; [constructor|done].
      * intros (l1 & n & l2 & Hl & Hall & Hn). destruct l1 as [|b l1].
        -- simpl in Hl. injection Hl as -> ->. congruence.
        -- simpl in Hl. injection Hl as -> ->.
           apply Forall_cons in Hall as [[v Hv] _]. congruence.
Qed.

(** X7. [_bind] raises exactly what the lookup of the first parameter
    that fails raises, first in the order of [job.params]: the
    parameters before it have a value, those after it are not looked
    at. *)
Theorem _bind_first_failure (e : exn) :
  _bind template_expand job obj_args inst_args bind_args = Raise e ↔
  ∃ l1 n l2, Job.params job = (l1 ++ n :: l2)%list ∧
             Forall (λ x, ∃ v, get template_expand job obj_args inst_args
                                   bind_args x = Ok v) l1 ∧
             get template_expand job obj_args inst_args bind_args n = Raise e.
Proof. apply comprehend_first_failure. Qed.

End BindOrder.

Lemma comprehend_ext te job obj inst bind te' obj' inst' bind' names acc :
  (∀ n, n ∈ names →
        get te job obj inst bind n = get te' job obj' inst' bind' n) →
  comprehend te job obj inst bind names acc =
  comprehend te' job obj' inst' bind' names acc.
Proof.
  revert acc. induction names as [|a names IH]; intros acc Hext; [done|].
  simpl. rewrite <-(Hext a) by (by left).
  destruct (get te job obj inst bind a); [|done].
  apply IH. intros n Hn. apply Hext. by right.
Qed.

(** X8. Only the entries for the parameters of the job count: argument
    maps that agree on [job.params] are bound alike, whatever else they
    hold. *)
Theorem _bind_reads_params_only te job obj inst obj' inst' bind :
  (∀ n, n ∈ Job.params job → obj !! n = obj' !! n ∧ inst !! n = inst' !! n) →
  _bind te job obj inst bind = _bind te job obj' inst' bind.
Proof.
  intros Hagree. apply comprehend_ext. intros n Hn.
  destruct (Hagree n Hn) as [Ho Hi]. unfold get. by rewrite Ho, Hi.
Qed.

Lemma _bind_reads_params_only_witness :
  _bind (λ t a, Ok (demo_expand t a)) demo_job
        {[ "date" := "{d}" ]} {[ "host" := "h1" ]} ∅ =
  _bind (λ t a, Ok (demo_expand t a)) demo_job
        {[ "date" := "{d}"; "colour" := "red" ]}
        {[ "host" := "h1"; "size" := "9" ]} ∅.
Proof.
  apply _bind_reads_params_only. intros n Hn.
  apply elem_of_cons in Hn as [->|Hn]; [split; reflexivity|].
  apply elem_of_cons in Hn as [->|Hn]; [split; reflexivity|].
  by apply elem_of_nil in Hn.
Defined.

(** X9. A [KeyError] that comes out of [template_expand] is taken for
    a missing object argument: the call gives what it gives without the
    object arguments whose expansion raises [KeyError], so such a
    parameter is bound to its instance argument, unexpanded, or reported
    as having no value. *)
Theorem _bind_swallows_expansion_KeyError te job obj inst bind :
  _bind te job obj inst bind =
  _bind te job (filter (λ kv, ¬ is_KeyError (te kv.2 bind)) obj) inst bind.
Proof.
  apply comprehend_ext. intros n _. unfold get.
  destruct (obj !! n) as [t|] eqn:Ho.
  - destruct (is_KeyError (te t bind)) eqn:Hk.
    + rewrite (proj2 (map_lookup_filter_None _ _ _)).
      * destruct (te t bind) as [v|[]]; done.
      * right. intros t' Ht'. simpl. simplify_eq. rewrite Hk. intros H. by apply H.
    + rewrite (proj2 (map_lookup_filter_Some _ _ _ t)); [done|].
      split; [done|]. simpl. rewrite Hk. by intros [].
  - rewrite (proj2 (map_lookup_filter_None _ _ _)); [done|]. by left.
Qed.

End CondFacts.

Module ServiceFacts.
Import Service.

Section Handler.

Context {LogRecord : Type}.
Variable format : LogRecord → string.

Lemma emit_loop_offered data qs :
  emit_loop data qs = (Ok (), offered data <$> qs).
Proof.
  induction qs as [|q qs IH]; [done|].
  simpl. unfold put_nowait, offered at 1.
  destruct (full q); rewrite IH; done.
Qed.


End Handler.

Example emit_full_queue_skipped :
  emit (λ s : string, s)
       {| queues := [ {| qid := 0; maxsize := 0; items := ["a"] |};
                      {| qid := 1; maxsize := 1; items := ["a"] |};
                      {| qid := 2; maxsize := 2; items := ["a"] |} ];
          next_qid := 3 |} "b"
  = (Ok (),
     {| queues := [ {| qid := 0; maxsize := 0; items := ["a"; "b"] |};
                    {| qid := 1; maxsize := 1; items := ["a"] |};
                    {| qid := 2; maxsize := 2; items := ["a"; "b"] |} ];
        next_qid := 3 |}).
Proof. reflexivity. Qed.

(** *** Registering, unregistering and repeated emission *)

Lemma list_remove_absent i qs :
  i ∉ (qid <$> qs) →
  list_remove i qs = Raise (ValueError "list.remove(x): x not in list").
Proof.
  induction qs as [|q qs IH]; intros Hi; [done|].
  simpl. rewrite fmap_cons in Hi. apply not_elem_of_cons in Hi as [Hne Hi].
  case_decide; [congruence|]. by rewrite IH.
Qed.

Lemma list_remove_present i qs :
  i ∈ (qid <$> qs) →
  ∃ l1 q l2, qs = (l1 ++ q :: l2)%list ∧ qid q = i ∧ (i ∉ (qid <$> l1)) ∧
             list_remove i qs = Ok (l1 ++ l2)%list.
Proof.
  induction qs as [|q qs IH]; intros Hi; [by apply elem_of_nil in Hi|].
  simpl. case_decide as Hq.
  - exists [], q, qs. repeat split; try done; simpl; apply not_elem_of_nil.
  - rewrite fmap_cons in Hi. apply elem_of_cons in Hi as [Hi|Hi]; [congruence|].
    destruct (IH Hi) as (l1 & q' & l2 & -> & Hq' & Hl1 & ->).
    exists (q :: l1), q', l2. repeat split; try done.
    rewrite fmap_cons. apply not_elem_of_cons. split; [congruence|done].
Qed.

Lemma unregister_spec (h : QueueHandler) (q : Queue) :
  (qid q ∈ (qid <$> queues h) →
   ∃ l1 q' l2, queues h = (l1 ++ q' :: l2)%list ∧ qid q' = qid q ∧
               (qid q ∉ (qid <$> l1)) ∧
               unregister h q = Ok {| queues := (l1 ++ l2)%list;
                                      next_qid := next_qid h |}) ∧
  (qid q ∉ (qid <$> queues h) →
   unregister h q = Raise (ValueError "list.remove(x): x not in list")).
Proof.
  unfold unregister. split.
  - intros Hi. destruct (list_remove_present _ _ Hi) as (l1 & q' & l2 & ? & ? & ? & ->).
    exists l1, q', l2. done.
  - intros Hi. by rewrite list_remove_absent.
Qed.

(** X1. [unregister(queue)] takes the first occurrence of the queue out
    of the list and leaves the other queues in their order; for a queue
    that is not registered it raises [ValueError]. *)
Theorem unregister_removes_first (h : QueueHandler) (q : Queue) :
  (qid q ∈ (qid <$> queues h) →
   ∃ l1 q' l2, queues h = (l1 ++ q' :: l2)%list ∧ qid q' = qid q ∧
               (qid q ∉ (qid <$> l1)) ∧
               unregister h q = Ok {| queues := (l1 ++ l2)%list;
                                      next_qid := next_qid h |}) ∧
  (qid q ∉ (qid <$> queues h) →
   unregister h q = Raise (ValueError "list.remove(x): x not in list")).
Proof. apply unregister_spec. Qed.

Lemma init_wf : handler_wf init.
Proof. split; [constructor|]. simpl. constructor. Qed.

Lemma register_wf h : handler_wf h → handler_wf (register h).2.
Proof.
  intros [Hall Hnd]. split; simpl.
  - apply Forall_app. split.
    + eapply Forall_impl; [done|]. intros q [? ?]. split; [lia|done].
    + repeat constructor; simpl; lia.
  - rewrite fmap_app. simpl. apply NoDup_app. split; [done|]. split.
    + intros i Hi Hi'. apply list_elem_of_singleton in Hi'. subst.
      apply list_elem_of_fmap in Hi as (q & Hq & Hin).
      rewrite Forall_forall in Hall. destruct (Hall q Hin). lia.
    + apply NoDup_singleton.
Qed.

Lemma unregister_wf h q h' : handler_wf h → unregister h q = Ok h' → handler_wf h'.
Proof.
  intros [Hall Hnd] Hun.
  destruct (decide (qid q ∈ (qid <$> queues h))) as [Hi|Hi].
  - destruct (proj1 (unregister_spec h q) Hi)
      as (l1 & q' & l2 & Hq & _ & _ & Hun').
    rewrite Hun' in Hun. injection Hun as <-. rewrite Hq in Hall, Hnd.
    split; simpl.
    + apply Forall_app in Hall as [H1 H2]. apply Forall_cons in H2 as [_ H2].
      apply Forall_app. done.
    + rewrite fmap_app, fmap_cons in Hnd. rewrite fmap_app.
      apply NoDup_app in Hnd as (N1 & N2 & N3). apply NoDup_cons in N3 as [_ N3].
      apply NoDup_app. split; [done|]. split; [|done].
      intros i Hi1 Hi2. apply (N2 i Hi1). by right.
  - by rewrite (proj2 (unregister_spec h q) Hi) in Hun.
Qed.

Section Format.

Context {LogRecord : Type}.
Variable format : LogRecord → string.

Lemma emit_queues h record :
  (emit format h record).2 =
    {| queues := offered (format record) <$> queues h; next_qid := next_qid h |}.
Proof. unfold emit. by rewrite emit_loop_offered. Qed.

Lemma emit_wf h record : handler_wf h → handler_wf (emit format h record).2.
Proof.
  intros [Hall Hnd]. rewrite emit_queues. split; simpl.
  - apply Forall_fmap. eapply Forall_impl; [done|]. intros q [? ?].
    unfold offered, compose. destruct (full q); simpl; auto.
  - rewrite <-list_fmap_compose.
    erewrite list_fmap_ext; [done|]. intros i q _. simpl.
    unfold offered. by destruct (full q).
Qed.

Lemma handler_run_wf ops h : handler_wf h → handler_wf (handler_run format ops h).
Proof.
  revert h. induction ops as [|op ops IH]; intros h Hwf; [done|].
  simpl. apply IH. destruct op; simpl.
  - by apply register_wf.
  - destruct (unregister h q) eqn:Hun; [by eapply unregister_wf|done].
  - by apply emit_wf.
Qed.

(** X2. The queue [register()] hands out is new and empty, and
    [unregister] of that queue undoes the registration: the handler has
    the queues it had before, in their order. *)
Theorem register_then_unregister (ops : list (HandlerOp LogRecord)) :
  items (register (handler_run format ops init)).1 = [] ∧
  (qid (register (handler_run format ops init)).1
    ∉ (qid <$> queues (handler_run format ops init))) ∧
  ∃ h', unregister (register (handler_run format ops init)).2
                   (register (handler_run format ops init)).1 = Ok h' ∧
        queues h' = queues (handler_run format ops init).
Proof.
  pose proof (handler_run_wf ops init init_wf) as [Hall Hnd].
  set (h := handler_run format ops init) in *.
  assert (Hfresh : next_qid h ∉ (qid <$> queues h)).
  { intros Hi. apply list_elem_of_fmap in Hi as (q & Hq & Hin).
    rewrite Forall_forall in Hall. destruct (Hall q Hin). lia. }
  split; [done|]. split; [done|].
  destruct (proj1 (unregister_spec (register h).2 (register h).1))
    as (l1 & q' & l2 & Hq & Hid & Hl1 & ->).
  { simpl. rewrite fmap_app. apply elem_of_app. right. simpl. by left. }
  eexists. split; [done|]. simpl in *.
  assert (Hl2 : l2 = [] ∧ queues h = l1).
  { destruct l2 as [|x l2 _] using rev_ind.
    - apply app_inj_tail in Hq as [? ?]. done.
    - rewrite app_comm_cons, app_assoc in Hq.
      apply app_inj_tail in Hq as [Hq _]. exfalso. apply Hfresh.
      rewrite Hq, fmap_app, fmap_cons, Hid. apply elem_of_app. right. by left. }
  destruct Hl2 as [-> ->]. by rewrite app_nil_r.
Qed.


Lemma offered_taken q x :
  offered x q = {| qid := qid q; maxsize := maxsize q;
                   items := items q ++ taken q [x] |}.
Proof.
  unfold offered, full, taken, room.
  destruct (Z.leb_spec (maxsize q) 0); [done|].
  destruct (Z.leb_spec (maxsize q) (Z.of_nat (length (items q)))).
  - replace (Z.to_nat (maxsize q) - length (items q))%nat with 0%nat by lia.
    simpl. rewrite app_nil_r. by destruct q.
  - destruct (Z.to_nat (maxsize q) - length (items q))%nat eqn:E; [lia|].
    simpl. by rewrite take_nil.
Qed.

Lemma taken_snoc q data x :
  taken q (data ++ [x]) =
    (taken q data ++
     taken {| qid := qid q; maxsize := maxsize q;
              items := items q ++ taken q data |} [x])%list.
Proof.
  unfold taken, room. simpl.
  destruct (Z.leb_spec (maxsize q) 0); [done|].
  rewrite length_app, length_take.
  set (n := (Z.to_nat (maxsize q) - length (items q))%nat).
  destruct (decide (length data < n)%nat) as [Hlt|Hge].
  - rewrite take_app_ge by lia. rewrite (take_ge data) by lia. f_equal.
    f_equal. lia.
  - rewrite take_app_le by lia.
    replace (Z.to_nat (maxsize q) - (length (items q) + n `min` length data))%nat
      with 0%nat by lia.
    simpl. by rewrite app_nil_r.
Qed.

(** X4. Records emitted one after another reach a queue in the order
    of emission.  An unbounded queue takes them all; a bounded queue takes
    the first ones up to its size and drops the later ones, and what it
    held before stays in front. *)
Theorem emit_all_in_order (h : QueueHandler) (records : list LogRecord) :
  emit_all format h records =
    {| queues := (λ q, {| qid := qid q; maxsize := maxsize q;
                          items := items q ++ taken q (format <$> records) |})
                   <$> queues h;
       next_qid := next_qid h |}.
Proof.
  induction records as [|r records IH] using rev_ind.
  - simpl. destruct h as [qs n]. simpl. f_equal.
    rewrite <-(list_fmap_id qs) at 1. apply list_fmap_ext. intros i q _.
    simpl. destruct q. simpl. f_equal. unfold taken.
    destruct (room _); [by rewrite take_nil, app_nil_r|by rewrite app_nil_r].
  - unfold emit_all in *. rewrite foldl_snoc, IH, emit_queues. simpl. f_equal.
    rewrite <-list_fmap_compose. apply list_fmap_ext. intros i q _. simpl.
    rewrite offered_taken. simpl. f_equal.
    rewrite fmap_app. change (format <$> [r]) with [format r].
    by rewrite taken_snoc, app_assoc.
Qed.

End Format.

(** *** A websocket session *)

Lemma queue_get_None i qs q :
  NoDup (qid <$> qs) → q ∈ qs → qid q = i → items q = [] →
  queue_get i qs = None.
Proof.
  induction qs as [|q0 qs IH]; intros Hnd Hin Hi Hit; [by apply elem_of_nil in Hin|].
  rewrite fmap_cons in Hnd. apply NoDup_cons in Hnd as [Hni Hnd].
  simpl. apply elem_of_cons in Hin as [<-|Hin].
  - rewrite decide_True by done. by rewrite Hit.
  - rewrite decide_False.
    + by rewrite IH.
    + intros Heq. apply Hni. apply list_elem_of_fmap. exists q. split; [congruence|done].
Qed.

Lemma queue_get_Some i qs q data more :
  NoDup (qid <$> qs) → q ∈ qs → qid q = i → items q = data :: more →
  ∃ qs', queue_get i qs = Some (data, qs') ∧
         (qid <$> qs') = (qid <$> qs) ∧
         {| qid := i; maxsize := maxsize q; items := more |} ∈ qs' ∧
         ∀ n, Forall (λ q', (qid q' < n)%nat ∧ maxsize q' = 0%Z) qs →
              Forall (λ q', (qid q' < n)%nat ∧ maxsize q' = 0%Z) qs'.
Proof.
  induction qs as [|q0 qs IH]; intros Hnd Hin Hi Hit; [by apply elem_of_nil in Hin|].
  rewrite fmap_cons in Hnd. apply NoDup_cons in Hnd as [Hni Hnd].
  simpl. apply elem_of_cons in Hin as [<-|Hin].
  - rewrite decide_True by done. rewrite Hit. eexists. split; [done|].
    split; [done|]. split; [rewrite Hi; by left|].
    intros n Hall. apply Forall_cons in Hall as [Hm Hall]. by constructor.
  - rewrite decide_False.
    + destruct (IH Hnd Hin Hi Hit) as (qs' & -> & Hids & Hin' & Hrest). simpl.
      eexists. split; [done|]. split; [by rewrite !fmap_cons, Hids|].
      split; [by right|].
      intros n Hall. apply Forall_cons in Hall as [Hm Hall]. constructor; auto.
    + intros Heq. apply Hni. apply list_elem_of_fmap. exists q. split; [congruence|done].
Qed.

Section Websocket.

Context {LogRecord : Type}.
Variable format : LogRecord → string.

Lemma ws_inv_other i em s op :
  ws_state s = AwaitGet ∨ (∃ data, ws_state s = AwaitSend data) →
  match op with OpUnregister q => qid q ≠ i | _ => True end →
  ws_inv format i em s →
  ws_inv format i (em ++ match op with OpEmit r => [r] | _ => [] end)
         {| ws_handler := handler_step format (ws_handler s) op;
            ws_sent := ws_sent s; ws_state := ws_state s |}.
Proof.
  intros Hrun Hown [Hwf Hst].
  assert (Hq : ∃ q hold, q ∈ queues (ws_handler s) ∧ qid q = i ∧
                         (ws_sent s ++ hold ++ items q)%list = format <$> em ∧
                         ∀ h' em' q',
                           handler_wf h' → q' ∈ queues h' → qid q' = i →
                           (ws_sent s ++ hold ++ items q')%list = format <$> em' →
                           ws_inv format i em' {| ws_handler := h'; ws_sent := ws_sent s;
                                           ws_state := ws_state s |}).
  { destruct Hrun as [Hs|[data Hs]]; rewrite Hs in Hst |- *;
      destruct Hst as (q & Hin & Hi & Heq).
    - exists q, []. split_and!; try done.
      intros h' em' q' Hwf' Hin' Hi' Heq'. split; [done|]. simpl. by exists q'.
    - exists q, [data]. split_and!; try done.
      intros h' em' q' Hwf' Hin' Hi' Heq'. split; [done|]. simpl. by exists q'. }
  destruct Hq as (q & hold & Hin & Hi & Heq & Hback).
  destruct op as [|q0|r]; simpl.
  - rewrite app_nil_r. apply (Hback _ _ q); try done.
    + by apply register_wf.
    + simpl. apply elem_of_app. by left.
  - rewrite app_nil_r. destruct (unregister (ws_handler s) q0) as [h1|e] eqn:Hun;
      [|by apply (Hback _ _ q)].
    apply (Hback _ _ q); try done; [by eapply unregister_wf|].
    destruct (decide (qid q0 ∈ (qid <$> queues (ws_handler s)))) as [Hi0|Hi0].
    + destruct (proj1 (unregister_spec _ q0) Hi0) as (l1 & q' & l2 & Hqs & Hid & _ & Hun').
      rewrite Hun' in Hun. injection Hun as <-. simpl. rewrite Hqs in Hin.
      apply elem_of_app in Hin as [Hin|Hin]; [apply elem_of_app; by left|].
      apply elem_of_cons in Hin as [->|Hin]; [congruence|].
      apply elem_of_app. by right.
    + by rewrite (proj2 (unregister_spec _ q0) Hi0) in Hun.
  - rewrite emit_queues.
    apply (Hback _ _ (offered (format r) q)).
    + rewrite <- emit_queues. by apply emit_wf.
    + simpl. apply list_elem_of_fmap. by exists q.
    + unfold offered. by destruct (full q).
    + destruct Hwf as [Hall _]. rewrite Forall_forall in Hall.
      destruct (Hall q Hin) as [_ Hm]. unfold offered, full. rewrite Hm. simpl.
      rewrite fmap_app, <- Heq. by rewrite !app_assoc.
Qed.

Lemma ws_inv_ended i em em' s :
  ws_state s = WsReturned ∨ (∃ e, ws_state s = WsRaised e) →
  ws_inv format i em s → ws_inv format i (em ++ em') s.
Proof.
  intros Hend [Hwf Hst]. split; [done|].
  destruct Hend as [Hs|[e Hs]]; rewrite Hs in Hst |- *;
    destruct Hst as (Hi & Hpre & Hne); split_and!; try done.
  - rewrite fmap_app. by apply prefix_app_r.
  - by destruct em.
  - rewrite fmap_app. by apply prefix_app_r.
  - by destruct em.
Qed.

Lemma ws_inv_finally queue em s data final :
  final = WsReturned ∨ (∃ e, final = WsRaised e) →
  ws_state s = AwaitSend data →
  ws_inv format (qid queue) em s →
  ws_inv format (qid queue) em (ws_finally queue s final).
Proof.
  intros Hfinal Hs [Hwf Hst]. rewrite Hs in Hst.
  destruct Hst as (q & Hin & Hi & Heq).
  assert (Hpre : ws_sent s `prefix_of` (format <$> em) ∧ em ≠ []).
  { split; [rewrite <- Heq; by apply prefix_app_r|].
    intros ->. simpl in Heq. by destruct (ws_sent s). }
  assert (Hmem : qid queue ∈ (qid <$> queues (ws_handler s))).
  { apply list_elem_of_fmap. by exists q. }
  destruct (proj1 (unregister_spec _ queue) Hmem)
    as (l1 & q' & l2 & Hqs & Hid & Hl1 & Hun).
  unfold ws_finally. rewrite Hun.
  assert (Hwf' : handler_wf {| queues := (l1 ++ l2)%list;
                               next_qid := next_qid (ws_handler s) |})
    by (by eapply unregister_wf).
  assert (Hout : qid queue ∉ (qid <$> (l1 ++ l2)%list)).
  { destruct Hwf as [_ Hnd]. rewrite Hqs, fmap_app, fmap_cons in Hnd.
    apply NoDup_app in Hnd as (_ & Hdis & Hnd2). apply NoDup_cons in Hnd2 as [Hni _].
    rewrite fmap_app. intros Hmem'. apply elem_of_app in Hmem' as [?|Hm2]; [done|].
    apply Hni. by rewrite Hid. }
  split; [done|]. simpl. destruct Hpre as [Hp Hne].
  destruct Hfinal as [->|[e ->]]; by split_and!.
Qed.

Lemma ws_step_inv queue em s ev :
  ws_inv format (qid queue) em s →
  match ev with
  | WsOther (OpUnregister q) => qid q ≠ qid queue
  | _ => True
  end →
  ws_inv format (qid queue) (em ++ emitted [ev]) (ws_step format queue s ev).
Proof.
  intros HI Hown. destruct (ws_state s) as [|data| |e] eqn:Hs.
  - destruct ev as [op| |o].
    + unfold ws_step. rewrite Hs. rewrite <- Hs.
      replace (emitted [WsOther op])
        with (match op with OpEmit r => [r] | _ => [] end) by (by destruct op).
      apply ws_inv_other; [by left| |done]. by destruct op.
    + unfold ws_step. rewrite Hs. simpl. rewrite app_nil_r.
      pose proof HI as [[Hall Hnd] Hst]. rewrite Hs in Hst.
      destruct Hst as (q & Hin & Hi & Heq).
      destruct (items q) as [|data more] eqn:Hit.
      * by rewrite (queue_get_None _ _ q).
      * destruct (queue_get_Some _ _ q data more Hnd Hin Hi Hit)
          as (qs' & -> & Hids & Hin' & Hall').
        split; simpl.
        -- split; simpl; [by apply Hall'|by rewrite Hids].
        -- eexists. split; [done|]. split; [done|]. done.
    + unfold ws_step. rewrite Hs. simpl. by rewrite app_nil_r.
  - destruct ev as [op| |o].
    + unfold ws_step. rewrite Hs. rewrite <- Hs.
      replace (emitted [WsOther op])
        with (match op with OpEmit r => [r] | _ => [] end) by (by destruct op).
      apply ws_inv_other; [right; by eexists| |done]. by destruct op.
    + unfold ws_step. rewrite Hs. simpl. by rewrite app_nil_r.
    + unfold ws_step. rewrite Hs. simpl. rewrite app_nil_r. destruct o as [| |e].
      * destruct HI as [Hwf Hst]. rewrite Hs in Hst.
        destruct Hst as (q & Hin & Hi & Heq). split; [done|]. simpl.
        exists q. split; [done|]. split; [done|]. by rewrite <- app_assoc.
      * apply (ws_inv_finally _ _ _ data); [by left|done..].
      * apply (ws_inv_finally _ _ _ data); [right; by eexists|done..].
  - replace (ws_step format queue s ev) with s
      by (unfold ws_step; rewrite Hs; by destruct ev).
    apply ws_inv_ended; [by left|done].
  - replace (ws_step format queue s ev) with s
      by (unfold ws_step; rewrite Hs; by destruct ev).
    apply ws_inv_ended; [right; by eexists|done].
Qed.

Lemma ws_run_inv queue evs em s :
  ws_inv format (qid queue) em s → own_queue (qid queue) evs →
  ws_inv format (qid queue) (em ++ emitted evs)
         (foldl (ws_step format queue) s evs).
Proof.
  revert em s. induction evs as [|ev evs IH]; intros em s HI Hown.
  - simpl. by rewrite app_nil_r.
  - apply Forall_cons in Hown as [Hev Hown]. simpl foldl.
    replace (emitted (ev :: evs)) with (emitted [ev] ++ emitted evs)%list
      by (unfold emitted; simpl; by destruct ev as [[| |]| |]).
    rewrite app_assoc. apply IH; [|done]. by apply ws_step_inv.
Qed.

Lemma websocket_log_inv h evs :
  handler_wf h → own_queue (next_qid h) evs →
  ws_inv format (next_qid h) (emitted evs) (websocket_log format h evs).
Proof.
  intros Hwf Hown. unfold websocket_log. simpl.
  apply (ws_run_inv {| qid := next_qid h; maxsize := 0; items := [] |} evs []);
    [|done].
  split; [by apply (register_wf h)|]. simpl.
  exists {| qid := next_qid h; maxsize := 0; items := [] |}. split; [|done].
  apply elem_of_app. right. by left.
Qed.

(** X5. What [websocket_log] has sent is a beginning of what was
    logged during the session, formatted and in the order of logging:
    no message is sent twice, out of order, or from before the session. *)
Theorem websocket_log_sends_in_order h evs :
  handler_wf h → own_queue (next_qid h) evs →
  ws_sent (websocket_log format h evs) `prefix_of` (format <$> emitted evs).
Proof.
  intros Hwf Hown. destruct (websocket_log_inv h evs Hwf Hown) as [_ Hst].
  destruct (ws_state (websocket_log format h evs));
    [destruct Hst as (q & _ & _ & <-); by apply prefix_app_r..| |];
    by destruct Hst as (_ & ? & _).
Qed.

(** X6. The queue of a session is registered exactly as long as the
    session runs: while the coroutine waits for a message or for the
    socket the queue is in the handler, and once the coroutine has
    returned or raised, the [finally] clause has taken it out.  The
    loop is left only through the outcome of a send, so not before a
    record was logged. *)
Theorem websocket_log_unregisters h evs :
  handler_wf h → own_queue (next_qid h) evs →
  match ws_state (websocket_log format h evs) with
  | AwaitGet | AwaitSend _ =>
      next_qid h ∈ (qid <$> queues (ws_handler (websocket_log format h evs)))
  | WsReturned | WsRaised _ =>
      (next_qid h ∉ (qid <$> queues (ws_handler (websocket_log format h evs)))) ∧
      emitted evs ≠ []
  end.
Proof.
  intros Hwf Hown. destruct (websocket_log_inv h evs Hwf Hown) as [_ Hst].
  destruct (ws_state (websocket_log format h evs));
    [destruct Hst as (q & Hin & Hi & _); apply list_elem_of_fmap; by exists q..| |];
    by destruct Hst as (? & _ & ?).
Qed.

End Websocket.

Lemma websocket_log_sends_in_order_witness :
  ws_sent (websocket_log (λ s : string, s) init demo_session)
    `prefix_of` ((λ s : string, s) <$> emitted demo_session).
Proof.
  apply websocket_log_sends_in_order; [apply init_wf|].
  unfold own_queue, demo_session. repeat constructor.
Defined.

Lemma websocket_log_unregisters_witness :
  (0 ∉ (qid <$> queues (ws_handler
                          (websocket_log (λ s : string, s) init demo_session)))) ∧
  emitted demo_session ≠ [].
Proof.
  apply (websocket_log_unregisters (λ s : string, s) init demo_session);
    [apply init_wf|].
  unfold own_queue, demo_session. repeat constructor.
Defined.

End ServiceFacts.

Module ProgramFacts.
Import Program.


Lemma written_to_both (c : Child) :
  written_to [Fd1; Fd2] c = String.concat "" (snd <$> child_writes c).
Proof.
  unfold written_to. f_equal. f_equal.
  induction (child_writes c) as [|[fd s] l IH]; [done|].
  rewrite filter_cons_True; [by rewrite IH|].
  simpl. destruct fd; set_solver.
Qed.

(** The shape of a successful [start]: the call made and the run left. *)
Lemma start_ok os env self run proc run' :
  start os env self run = (Ok proc, run') →
  proc_spawn proc = {| sp_args := argv self;
                       sp_executable := executable self;
                       sp_stdin := File "/dev/null";
                       sp_stdout := PIPE;
                       sp_stderr := STDOUT |} ∧
  os_open os "/dev/null" = Ok () ∧
  os_spawn os (proc_spawn proc) = Ok (proc_child proc) ∧
  run' = {| meta := update {[ "hostname"   := MStr (gethostname env);
                              "username"   := MStr (getuser env);
                              "start_time" := MStr (now_str env) ]} (meta run);
            output := output run |}.
Proof.
  unfold start. destruct (os_open os "/dev/null") as [[]|e] eqn:Hopen.
  - match goal with |- context [os_spawn os ?sp] =>
      destruct (os_spawn os sp) as [child|e] eqn:Hspawn end.
    + intros [= <- <-]. done.
    + destruct e; intros [=].
  - destruct e; intros [=].
Qed.

Lemma communicate_merged (p : Proc) :
  sp_stdout (proc_spawn p) = PIPE → sp_stderr (proc_spawn p) = STDOUT →
  communicate p =
    (Some (String.concat "" (snd <$> child_writes (proc_child p))), None).
Proof.
  intros Ho He. unfold communicate. rewrite Ho, He, written_to_both. done.
Qed.

(** C6. For a run executed as a child process: the child's stdin is
    [/dev/null]; stdout and stderr go to one pipe and are captured, in the
    order written, into the single blob [run.output]; [wait] returns
    normally exactly when the exit code is 0, and any other exit code
    raises [ProgramFailure]. *)
Theorem child_stdio_and_exit_status os env self run proc run1 :
  start os env self run = (Ok proc, run1) →
  sp_stdin (proc_spawn proc) = File "/dev/null" ∧
  sp_stdout (proc_spawn proc) = PIPE ∧
  sp_stderr (proc_spawn proc) = STDOUT ∧
  ∀ env',
    output (snd (wait env' self run1 proc)) =
      Some (String.concat "" (snd <$> child_writes (proc_child proc))) ∧
    (fst (wait env' self run1 proc) = Ok () ↔
     child_exit (proc_child proc) = 0%Z) ∧
    (child_exit (proc_child proc) ≠ 0%Z →
     fst (wait env' self run1 proc) =
       Raise (ProgramFailure
                (program_exc
                   ("return code = " ++ pretty (child_exit (proc_child proc)))))).
Proof.
  intros Hstart. destruct (start_ok _ _ _ _ _ _ Hstart) as (Hsp & _ & _ & _).
  rewrite Hsp. simpl. do 3 (split; [done|]).
  intros env'. unfold wait.
  rewrite communicate_merged by (by rewrite Hsp). unfold returncode.
  destruct (Z.eqb_spec (child_exit (proc_child proc)) 0) as [Hz|Hz]; simpl.
  - split; [done|]. split; [done|]. intros Hne. by destruct Hne.
  - split; [done|]. split; [|done]. split; [discriminate|done].
Qed.

Lemma child_stdio_and_exit_status_witness :
  sp_stdin (proc_spawn demo_proc) = File "/dev/null" ∧
  sp_stdout (proc_spawn demo_proc) = PIPE ∧
  sp_stderr (proc_spawn demo_proc) = STDOUT ∧
  ∀ env',
    output (snd (wait env' demo_program demo_started demo_proc)) =
      Some (String.concat "" (snd <$> child_writes (proc_child demo_proc))) ∧
    (fst (wait env' demo_program demo_started demo_proc) = Ok () ↔
     child_exit (proc_child demo_proc) = 0%Z) ∧
    (child_exit (proc_child demo_proc) ≠ 0%Z →
     fst (wait env' demo_program demo_started demo_proc) =
       Raise (ProgramFailure
                (program_exc
                   ("return code = " ++ pretty (child_exit (proc_child demo_proc)))))).
Proof.
  apply (child_stdio_and_exit_status (demo_os 7) demo_env demo_program demo_run).
  reflexivity.
Defined.

Example wait_exit_0 :
  ∃ proc run1, start (demo_os 0) demo_env demo_program demo_run = (Ok proc, run1) ∧
    fst (wait demo_env demo_program run1 proc) = Ok () ∧
    output (snd (wait demo_env demo_program run1 proc)) = Some "out1 err out2".
Proof. do 2 eexists. split; [reflexivity|]. split; reflexivity. Qed.

Example wait_exit_7 :
  ∃ proc run1, start (demo_os 7) demo_env demo_program demo_run = (Ok proc, run1) ∧
    fst (wait demo_env demo_program run1 proc) =
      Raise (ProgramFailure (program_exc "return code = 7")).
Proof. do 2 eexists. split; [reflexivity|]. reflexivity. Qed.

Example wait_killed :
  ∃ proc run1, start (demo_os (-9)) demo_env demo_program demo_run = (Ok proc, run1) ∧
    fst (wait demo_env demo_program run1 proc) =
      Raise (ProgramFailure (program_exc "return code = -9")).
Proof. do 2 eexists. split; [reflexivity|]. reflexivity. Qed.

Example start_no_executable :
  fst (start sh_only_os demo_env demo_program demo_run) =
    Raise (ProgramError (program_exc "No such file or directory")).
Proof. reflexivity. Qed.

(** The entries of [run.meta] once [start] has returned. *)
Lemma start_meta os env self run proc run' :
  start os env self run = (Ok proc, run') →
  ∀ k, meta run' !! k =
         if decide (k = "hostname") then Some (MStr (gethostname env))
         else if decide (k = "username") then Some (MStr (getuser env))
         else if decide (k = "start_time") then Some (MStr (now_str env))
         else meta run !! k.
Proof.
  intros Hstart k. destruct (start_ok _ _ _ _ _ _ Hstart) as (_ & _ & _ & ->).
  simpl. unfold update.
  repeat case_decide; subst;
    try (apply lookup_union_Some_l; by simplify_map_eq).
  rewrite lookup_union_r; [done|]. by simplify_map_eq.
Qed.

(** C7, as the code has it. When [start(run)] has succeeded, [run.meta]
    holds [hostname], [username] and [start_time]; [start] does not touch
    the entry [pid], which [wait(run, proc)] records afterwards, together
    with [return_code] and [end_time]. *)
Theorem start_records_host_user_time os env self run proc run' :
  start os env self run = (Ok proc, run') →
  meta run' !! "hostname" = Some (MStr (gethostname env)) ∧
  meta run' !! "username" = Some (MStr (getuser env)) ∧
  meta run' !! "start_time" = Some (MStr (now_str env)) ∧
  meta run' !! "pid" = meta run !! "pid" ∧
  ∀ env',
    meta (snd (wait env' self run' proc)) !! "pid" =
      Some (MInt (child_pid (proc_child proc))).
Proof.
  intros Hstart. pose proof (start_meta _ _ _ _ _ _ Hstart) as Hk.
  rewrite !Hk. do 4 (split; [done|]).
  intros env'. destruct (start_ok _ _ _ _ _ _ Hstart) as (Hsp & _ & _ & _).
  unfold wait. rewrite communicate_merged by (by rewrite Hsp).
  unfold returncode. destruct (_ =? _)%Z; simpl; unfold update;
    rewrite lookup_union, lookup_insert_eq; by destruct (meta run' !! "pid").
Qed.

Lemma start_records_host_user_time_witness :
  meta demo_started !! "hostname" = Some (MStr (gethostname demo_env)) ∧
  meta demo_started !! "username" = Some (MStr (getuser demo_env)) ∧
  meta demo_started !! "start_time" = Some (MStr (now_str demo_env)) ∧
  meta demo_started !! "pid" = meta demo_run !! "pid" ∧
  ∀ env',
    meta (snd (wait env' demo_program demo_started demo_proc)) !! "pid" =
      Some (MInt (child_pid (proc_child demo_proc))).
Proof.
  apply (start_records_host_user_time (demo_os 7) demo_env demo_program demo_run).
  reflexivity.
Defined.

(** C7, as the specification words it, fails: on a run whose [meta] is
    empty a successful [start] returns with no [pid] entry in
    [run.meta]. *)
Lemma start_leaves_no_pid :
  start (demo_os 7) demo_env demo_program demo_run = (Ok demo_proc, demo_started) ∧
  meta demo_started !! "pid" = None.
Proof. split; reflexivity. Qed.

(** C5, as the code has it. A [ShellCommandProgram] built from [cmd] is a
    [ProcessProgram] over the vector [/bin/bash -c cmd] with the attribute
    [__command] added: it starts, waits and serializes as that process
    program does, and only [__str__], which gives back [cmd], is its
    own. *)
Theorem shell_command_is_bash_process (cmd : string) :
  ∃ p, ProcessProgram_init ["/bin/bash"; "-c"; cmd] = Ok p ∧
       argv p = ["/bin/bash"; "-c"; cmd] ∧
       executable p = "/bin/bash" ∧
       ShellCommandProgram_init cmd = Ok (ShellCommand p cmd) ∧
       (∀ os env run,
          prog_start os env (ShellCommand p cmd) run =
          prog_start os env (Process p) run) ∧
       (∀ env run proc,
          prog_wait env (ShellCommand p cmd) run proc =
          prog_wait env (Process p) run proc) ∧
       prog_to_jso (ShellCommand p cmd) = prog_to_jso (Process p) ∧
       prog_str (ShellCommand p cmd) = cmd.
Proof.
  eexists. split; [reflexivity|]. simpl. repeat split.
Qed.

(** C5, as the specification words it, fails: the shell is [/bin/bash],
    not [/bin/sh].  The program for the command [true] and the process
    program over [/bin/sh -c true] ask the system for different
    executables, and where only [/bin/sh] exists the first fails to start
    while the second starts. *)
Lemma shell_command_is_not_bin_sh :
  ShellCommandProgram_init "true" = Ok (ShellCommand bin_bash_true "true") ∧
  ProcessProgram_init ["/bin/sh"; "-c"; "true"] = Ok bin_sh_true ∧
  fst (prog_start sh_only_os demo_env (ShellCommand bin_bash_true "true") demo_run)
    = Raise (ProgramError (program_exc "No such file or directory")) ∧
  (∃ proc, fst (prog_start sh_only_os demo_env (Process bin_sh_true) demo_run)
             = Ok proc) ∧
  prog_to_jso (ShellCommand bin_bash_true "true") ≠ prog_to_jso (Process bin_sh_true).
Proof.
  split; [reflexivity|]. split; [reflexivity|]. split; [reflexivity|].
  split; [eexists; reflexivity|].
  unfold prog_to_jso, to_jso. simpl. intros H.
  apply (f_equal (λ m, m !! "argv")) in H.
  rewrite !lookup_singleton_eq in H. discriminate.
Qed.

(** The rendering differs as well: the subclass prints the bare
    command. *)
Example shell_command_str :
  prog_str (ShellCommand {| argv := ["/bin/bash"; "-c"; "ls -l"];
                            executable := "/bin/bash" |} "ls -l") = "ls -l" ∧
  prog_str (Process {| argv := ["/bin/bash"; "-c"; "ls -l"];
                       executable := "/bin/bash" |}) = "/bin/bash -c 'ls -l'".
Proof. split; reflexivity. Qed.

(** *** Failing starts, the observations of a whole run, serialization *)




(** X11. The observations of a whole run.  After a [start] that
    succeeded and the [wait] that follows, whatever the exit code,
    [run.meta] holds [hostname], [username] and [start_time] as read at
    the start, [pid], [return_code] and [end_time] as read at the end, and
    every other entry it had before; [run.output] is the captured
    stream. *)
Theorem start_then_wait_meta os env env' self run proc run1 :
  start os env self run = (Ok proc, run1) →
  (∀ k, meta (wait env' self run1 proc).2 !! k =
     if decide (k = "pid") then Some (MInt (child_pid (proc_child proc)))
     else if decide (k = "return_code")
          then Some (MInt (child_exit (proc_child proc)))
     else if decide (k = "end_time") then Some (MStr (now_str env'))
     else if decide (k = "hostname") then Some (MStr (gethostname env))
     else if decide (k = "username") then Some (MStr (getuser env))
     else if decide (k = "start_time") then Some (MStr (now_str env))
     else meta run !! k) ∧
  output (wait env' self run1 proc).2 =
    Some (String.concat "" (snd <$> child_writes (proc_child proc))).
Proof.
  intros Hstart. pose proof (start_meta _ _ _ _ _ _ Hstart) as Hmeta.
  destruct (start_ok _ _ _ _ _ _ Hstart) as (Hsp & _ & _ & _).
  unfold wait. rewrite communicate_merged by (by rewrite Hsp).
  unfold returncode.
  split.
  - intros k.
    assert (Hw : meta (if (child_exit (proc_child proc) =? 0)%Z
              then (Ok (), {| meta := update
                       {[ "pid" := MInt (child_pid (proc_child proc));
                          "return_code" := MInt (child_exit (proc_child proc));
                          "end_time" := MStr (now_str env') ]} (meta run1);
                     output := Some (String.concat ""
                                (snd <$> child_writes (proc_child proc))) |})
              else (Raise (ProgramFailure (program_exc
                      ("return code = " +:+ pretty (child_exit (proc_child proc))))),
                    {| meta := update
                       {[ "pid" := MInt (child_pid (proc_child proc));
                          "return_code" := MInt (child_exit (proc_child proc));
                          "end_time" := MStr (now_str env') ]} (meta run1);
                     output := Some (String.concat ""
                                (snd <$> child_writes (proc_child proc))) |})).2
            = update {[ "pid" := MInt (child_pid (proc_child proc));
                        "return_code" := MInt (child_exit (proc_child proc));
                        "end_time" := MStr (now_str env') ]} (meta run1)).
    { by destruct (_ =? _)%Z. }
    rewrite Hw. unfold update.
    repeat case_decide; subst;
      try (apply lookup_union_Some_l; by simplify_map_eq).
    all: rewrite lookup_union_r by (by simplify_map_eq).
    all: rewrite Hmeta; repeat case_decide; done.
  - by destruct (_ =? _)%Z.
Qed.

Lemma start_then_wait_meta_witness :
  (∀ k, meta (wait demo_env demo_program demo_started demo_proc).2 !! k =
     if decide (k = "pid") then Some (MInt (child_pid (proc_child demo_proc)))
     else if decide (k = "return_code")
          then Some (MInt (child_exit (proc_child demo_proc)))
     else if decide (k = "end_time") then Some (MStr (now_str demo_env))
     else if decide (k = "hostname") then Some (MStr (gethostname demo_env))
     else if decide (k = "username") then Some (MStr (getuser demo_env))
     else if decide (k = "start_time") then Some (MStr (now_str demo_env))
     else meta demo_run !! k) ∧
  output (wait demo_env demo_program demo_started demo_proc).2 =
    Some (String.concat "" (snd <$> child_writes (proc_child demo_proc))).
Proof.
  apply (start_then_wait_meta (demo_os 7) demo_env demo_env demo_program demo_run).
  reflexivity.
Defined.

(** The normal form [Path] gives: [./x] loses its directory, double
    slashes and a trailing slash go, two leading slashes stay. *)
Example Path_normal_form :
  Path "/bin/bash" = "/bin/bash" ∧ Path "./x" = "x" ∧
  Path "bin//sh/" = "bin/sh" ∧ Path "//bin/sh" = "//bin/sh" ∧
  Path "///bin/./sh" = "/bin/sh" ∧ Path "../x" = "../x" ∧ Path "" = ".".
Proof. repeat split. Qed.

(** X12. Serialization of a process program.  [from_jso] of [to_jso]
    gives the program back; [from_jso] needs the entry [argv]
    ([KeyError] without it) and a vector that is not empty
    ([IndexError]), and a program it returns serializes to that
    vector and has as executable the first element as [Path] reads
    it, which need not be the string itself. *)
Theorem process_jso_round_trip :
  (∀ argv p, ProcessProgram_init argv = Ok p →
     ProcessProgram_from_jso (to_jso p) = Ok (Process p)) ∧
  (∀ jso, jso !! "argv" = None →
     ProcessProgram_from_jso jso = Raise (KeyError "argv")) ∧
  (∀ jso, jso !! "argv" = Some [] →
     ProcessProgram_from_jso jso = Raise IndexError) ∧
  (∀ jso prog, ProcessProgram_from_jso jso = Ok prog →
     jso !! "argv" = Some (argv (instance prog)) ∧
     prog_to_jso prog = {[ "argv" := argv (instance prog) ]} ∧
     ∃ a rest, argv (instance prog) = a :: rest ∧
               executable (instance prog) = Path a).
Proof.
  unfold ProcessProgram_from_jso, jso_argv, to_jso.
  split; [|split; [|split]].
  - intros argv p Hp. rewrite lookup_singleton_eq.
    destruct argv as [|a argv]; [done|]. simpl in Hp. injection Hp as <-. done.
  - by intros jso ->.
  - by intros jso ->.
  - intros jso prog.
    destruct (jso !! "argv") as [[|a l]|]; simpl; intros; simplify_eq.
    split; [done|]. split; [done|]. by exists a, l.
Qed.

(** X13. Serialization of a shell command program does not come back.
    [to_jso] gives the vector [/bin/bash -c cmd]; the inherited [from_jso]
    passes that vector to [ShellCommandProgram], which takes [str] of the
    whole vector as the command.  The program returned runs
    [/bin/bash -c str(vector)], and it is the program that was serialized
    only if [str] of the vector is [cmd] itself. *)
Theorem shell_jso_round_trip (str_list : list string → string) (cmd : string) :
  ∀ prog, ShellCommandProgram_init cmd = Ok prog →
  prog_to_jso prog = {[ "argv" := ["/bin/bash"; "-c"; cmd] ]} ∧
  ShellCommandProgram_from_jso str_list (prog_to_jso prog) =
    Ok (ShellCommand
          {| argv := ["/bin/bash"; "-c"; str_list ["/bin/bash"; "-c"; cmd]];
             executable := "/bin/bash" |}
          (str_list ["/bin/bash"; "-c"; cmd])) ∧
  (ShellCommandProgram_from_jso str_list (prog_to_jso prog) = Ok prog ↔
   str_list ["/bin/bash"; "-c"; cmd] = cmd).
Proof.
  intros prog Hp. unfold ShellCommandProgram_init in Hp. simpl in Hp.
  injection Hp as <-.
  unfold ShellCommandProgram_from_jso, jso_argv, prog_to_jso, to_jso. simpl.
  rewrite lookup_singleton_eq. unfold ShellCommandProgram_init. simpl.
  split; [done|]. split; [done|]. split.
  - by intros [= -> _].
  - by intros ->.
Qed.

Lemma shell_jso_round_trip_witness :
  prog_to_jso (ShellCommand bin_bash_true "true") =
    {[ "argv" := ["/bin/bash"; "-c"; "true"] ]} ∧
  ShellCommandProgram_from_jso (String.concat ", ")
      (prog_to_jso (ShellCommand bin_bash_true "true")) =
    Ok (ShellCommand
          {| argv := ["/bin/bash"; "-c";
                      String.concat ", " ["/bin/bash"; "-c"; "true"]];
             executable := "/bin/bash" |}
          (String.concat ", " ["/bin/bash"; "-c"; "true"])) ∧
  (ShellCommandProgram_from_jso (String.concat ", ")
      (prog_to_jso (ShellCommand bin_bash_true "true"))
     = Ok (ShellCommand bin_bash_true "true") ↔
   String.concat ", " ["/bin/bash"; "-c"; "true"] = "true").
Proof.
  apply (shell_jso_round_trip (String.concat ", ") "true"). reflexivity.
Defined.

End ProgramFacts.

Module EngineFacts.
Import Engine.

Example scenario_3_runs :
  let st := exec scenario_3 (init {[ "j1" := failing_job 2 1 3600 ]} 1000) in
  (λ r, (Run.rerun r, Run.state r)) <$> runs st =
    {[ 0 := (Some 0, Run.STATE.failure);
       1 := (Some 0, Run.STATE.failure);
       2 := (Some 0, Run.STATE.failure) ]} ∧
  size (family st 0) = 3 ∧
  loop_tasks st = [] ∧ scheduled st = [] ∧ running_tasks st = ∅.
Proof. vm_compute. repeat split. Qed.

(** *** Facts about single operations *)

Lemma bind_unfold {A B} (m : M A) (k : A → M B) st :
  (m ≫= k) st = match m st with
                | (Ok a, st') => k a st'
                | (Raise e, st') => (Raise e, st')
                end.
Proof. reflexivity. Qed.

(** Cancellation of the wait: [done] logs and returns; it writes
    nothing else, and the entry in [__running_tasks] stays. *)
Lemma done_cancelled run st :
  done run (Raise CancelledError) st =
    (Ok (), set_log (λ l, l ++ ["canceled waiting for run to complete: " +:+ pretty run])%list st).
Proof. reflexivity. Qed.

(** C2, on the code. The run 0 of [one_running] is running and its
    future is pending.  When the future is cancelled, the callback
    persists no transition and the run stays [running], in the table and
    in the database; but the entry of the run in [__running_tasks] is
    still there afterwards, both after a bare cancellation of the
    future and after [shut_down()], however the scheduler task ends. *)
Lemma cancelled_wait_keeps_running_task :
  running_tasks one_running !! 0 = Some 0 ∧
  fut_state <$> futures one_running !! 0 = Some Pending ∧
  Run.state <$> runs one_running !! 0 = Some Run.STATE.running ∧
  (let st := (resolve 0 (Raise CancelledError) one_running).2 in
   runs st = runs one_running ∧ run_db st = run_db one_running ∧
   Run.state <$> runs st !! 0 = Some Run.STATE.running ∧
   Run.state ∘ snd <$> run_db st !! 0 = Some Run.STATE.running ∧
   running_tasks st !! 0 = Some 0) ∧
  (∀ scheduler,
     let st := (shut_down scheduler one_running).2 in
     runs st = runs one_running ∧ run_db st = run_db one_running ∧
     running_tasks st !! 0 = Some 0).
Proof.
  split_and!; try (vm_compute; repeat split; done).
  intros [[]|e]; [|destruct e]; vm_compute; repeat split.
Qed.

(** The sibling outcomes do remove the entry. *)
Example failed_wait_drops_running_task :
  running_tasks (resolve 0 exit_7 one_running).2 !! 0 = None.
Proof. vm_compute. reflexivity. Qed.

(** C1, on the code. In [long_running] the original run was scheduled
    for time 1100 and the policy has [max_delay] 10.  The run fails at
    time 2100: [__rerun] logs that the maximum delay is exceeded and
    queues the rerun all the same, and the rerun is created and
    scheduled for time 2160. *)
Lemma max_delay_is_not_enforced :
  (r ← runs long_running !! 0; Run.times r !! "schedule") = Some (Some 1100%Z) ∧
  clock long_running = 2100%Z ∧
  (Reruns.max_delay ∘ Job.reruns <$> jobs long_running !! "j1") = Some 10%Z ∧
  (let st := (resolve 0 exit_7 long_running).2 in
   Run.state <$> runs st !! 0 = Some Run.STATE.failure ∧
   "retry max delay exceeded: 0" ∈ log st ∧
   loop_tasks st = [(0, Some 2160%Z)] ∧
   let st' := exec [RunTask has_started] st in
   (λ r, (Run.rerun r, Run.state r)) <$> runs st' !! 1 =
     Some (Some 0, Run.STATE.scheduled) ∧
   scheduled st' = [(2160%Z, 1)]).
Proof.
  vm_compute. repeat split. apply list_elem_of_In. simpl. tauto.
Qed.


(** *** The invariant *)

Section Invariant.

Variable J : gmap string Job.t.

Local Abbreviation GInv := (Engine.GInv J).
Local Abbreviation Inv := (Engine.Inv J).
Local Abbreviation wp := (wpe Inv).
Local Abbreviation g_ids := (Engine.g_ids J).
Local Abbreviation g_fam := (Engine.g_fam J).
Local Abbreviation g_ref_sched := (Engine.g_ref_sched J).
Local Abbreviation g_ref_wait := (Engine.g_ref_wait J).
Local Abbreviation g_ref_task := (Engine.g_ref_task J).
Local Abbreviation g_live := (Engine.g_live J).
Local Abbreviation g_budget := (Engine.g_budget J).
Local Abbreviation g_jobs := (Engine.g_jobs J).

Lemma wp_ret {A} E (a : A) Q st : Q a st → wpe E (ret a) Q st.
Proof. done. Qed.

Lemma wp_bind {A B} E (m : M A) (k : A → M B) Q st :
  wpe E m (λ a st', wpe E (k a) Q st') st → wpe E (m ≫= k) Q st.
Proof.
  unfold wpe. rewrite bind_unfold. by destruct (m st) as [[a|e] st'].
Qed.

Lemma wp_gets {A} E (f : Apsis → A) Q st : Q (f st) st → wpe E (gets f) Q st.
Proof. done. Qed.

Lemma wp_modify E f Q st : Q () (f st) → wpe E (modify f) Q st.
Proof. done. Qed.

Lemma wp_raise {A} E e (Q : A → Apsis → Prop) st : E st → wpe E (raise e) Q st.
Proof. done. Qed.

Lemma wp_of_result {A} E (r : result A) (Q : A → Apsis → Prop) st :
  E st → (∀ a, r = Ok a → Q a st) → wpe E (of_result r) Q st.
Proof. intros HE HQ. destruct r as [a|e]; [by apply wp_ret, HQ|by apply wp_raise]. Qed.

(** A transition is applied or refused. *)
Lemma Run__transition_Ok r time state message meta times r' :
  Run._transition r time state message meta times = Ok r' →
  Run.allowed (Run.state r) state = true ∧
  r' = Run.applied r time state message meta times.
Proof.
  unfold Run._transition. destruct (Run.allowed _ _); [|done].
  by intros [= <-].
Qed.

Lemma wp_mono {A} E (m : M A) (Q Q' : A → Apsis → Prop) st :
  wpe E m Q st → (∀ a st', Q a st' → Q' a st') → wpe E m Q' st.
Proof. unfold wpe. destruct (m st) as [[a|e] st']; eauto. Qed.

Lemma wp_the_run E run Q st :
  E st → (∀ r, runs st !! run = Some r → Q r st) → wpe E (the_run run) Q st.
Proof.
  intros HI HQ. unfold the_run. apply wp_bind, wp_gets.
  destruct (runs st !! run) as [r|] eqn:Hr; [by apply wp_ret, HQ|by apply wp_raise].
Qed.

Lemma wp_for_each {A} E (P : Apsis → Prop) (xs : list A) (body : A → M unit) Q st :
  P st →
  (∀ x st, P st → wpe E (body x) (λ _, P) st) →
  (∀ st, P st → Q () st) →
  wpe E (for_each xs body) Q st.
Proof.
  intros HP Hbody HQ. revert st HP.
  induction xs as [|x xs IH]; intros st HP; simpl.
  - apply wp_ret. auto.
  - apply wp_bind. eapply wp_mono; [by apply Hbody|].
    intros [] st' HP'. by apply IH.
Qed.

Lemma wp_log_info E msg Q st : Q () (set_log (λ l, (l ++ [msg])%list) st) →
  wpe E (log_info msg) Q st.
Proof. done. Qed.

Lemma wp_get_job E job_id Q st :
  E st → (∀ job, jobs st !! job_id = Some job → Q job st) →
  wpe E (Jobs.get_job job_id) Q st.
Proof.
  intros HI HQ. unfold Jobs.get_job. apply wp_bind, wp_gets.
  destruct (jobs st !! job_id) as [job|] eqn:Hj;
    [by apply wp_ret, HQ|by apply wp_raise].
Qed.

Lemma wp_unpack_one {A} E (xs : list A) Q st :
  E st → (∀ x, Q x st) → wpe E (unpack_one xs) Q st.
Proof.
  intros HI HQ. unfold unpack_one.
  destruct xs as [|x [|y xs]]; [by apply wp_raise|by apply wp_ret|by apply wp_raise].
Qed.

(** *** How the counts move *)

Lemma tk_None f : tk None f = 0.
Proof. unfold tk. by case_decide. Qed.

Lemma tk_Some f : tk (Some f) f = 1.
Proof. unfold tk. by case_decide. Qed.

Lemma tk_Some_ne f g : f ≠ g → tk (Some f) g = 0.
Proof. unfold tk. case_decide; [congruence|done]. Qed.

Lemma tk_le o f : (tk o f ≤ 1)%nat.
Proof. unfold tk. case_decide; lia. Qed.

Lemma GInv_drop lt bt st : GInv lt bt st → Inv st.
Proof.
  intros [H1 H2 H3 H4 H5 H6 H7 H8]. constructor; try done.
  - intros f. specialize (H6 f). rewrite tk_None. lia.
  - intros f r0 Hf. specialize (H7 f r0 Hf). rewrite tk_None. lia.
Qed.

Lemma GInv_drop_l lt bt st : GInv lt bt st → GInv None bt st.
Proof.
  intros [H1 H2 H3 H4 H5 H6 H7 H8]. constructor; try done.
  intros f. specialize (H6 f). rewrite tk_None. lia.
Qed.

Lemma filter_ext_elem {A} (P Q : A → Prop) `{!∀ x, Decision (P x)}
    `{!∀ x, Decision (Q x)} (l : list A) :
  (∀ x, x ∈ l → P x ↔ Q x) → filter P l = filter Q l.
Proof.
  induction l as [|a l IH]; intros Hext; [done|].
  rewrite !filter_cons.
  rewrite IH by (intros x Hx; apply Hext; by right).
  destruct (decide (P a)) as [HP|HP], (decide (Q a)) as [HQ|HQ]; try done.
  - destruct HQ. apply Hext; [by left|done].
  - destruct HP. apply Hext; [by left|done].
Qed.

(** Fields the invariant does not read. *)
Lemma GInv_set_log lt bt f st : GInv lt bt st → GInv lt bt (set_log f st).
Proof. intros []; by constructor. Qed.

Lemma GInv_set_outputs lt bt f st : GInv lt bt st → GInv lt bt (set_outputs f st).
Proof. intros []; by constructor. Qed.

Lemma GInv_set_running_tasks lt bt f st :
  GInv lt bt st → GInv lt bt (set_running_tasks f st).
Proof. intros []; by constructor. Qed.

Lemma GInv_set_run_db lt bt f st : GInv lt bt st → GInv lt bt (set_run_db f st).
Proof. intros []; by constructor. Qed.

Lemma GInv_set_clock lt bt f st : GInv lt bt st → GInv lt bt (set_clock f st).
Proof. intros []; by constructor. Qed.

Lemma GInv_set_loop_stopped lt bt f st :
  GInv lt bt st → GInv lt bt (set_loop_stopped f st).
Proof. intros []; by constructor. Qed.

Lemma GInv_next_future lt bt st :
  GInv lt bt st → GInv lt bt (set_next_future S st).
Proof.
  intros [H1 H2 H3 H4 H5 H6 H7 H8]. constructor; try done.
  intros k fu Hk. destruct (H4 k fu Hk). simpl. split; [lia|done].
Qed.

Lemma GInv_next_run_id lt bt st :
  GInv lt bt st → GInv lt bt (set_next_run_id S st).
Proof.
  intros [H1 H2 H3 H4 H5 H6 H7 H8]. constructor; try done.
  intros id r Hr. destruct (H1 id r Hr). simpl. split; [done|lia].
Qed.

(** A run of the table has a family. *)
Lemma family_of_Some lt bt st run r :
  GInv lt bt st → runs st !! run = Some r →
  ∃ f, Run.rerun r = Some f ∧ family_of st run = Some f.
Proof.
  intros HI Hr. destruct (g_fam _ _ _ HI run r Hr) as (f & r0 & Hf & _).
  exists f. split; [done|]. unfold family_of. by rewrite Hr.
Qed.

(** Counts depend on the table through [family_of] only. *)
Lemma counts_ext st st' f :
  scheduled st' = scheduled st → futures st' = futures st →
  loop_tasks st' = loop_tasks st →
  (∀ id, is_Some (runs st !! id) → family_of st' id = family_of st id) →
  (∀ e, e ∈ scheduled st → is_Some (runs st !! e.2)) →
  (∀ k fu, futures st !! k = Some fu → is_Some (runs st !! fut_run fu)) →
  (∀ t, t ∈ loop_tasks st → is_Some (runs st !! t.1)) →
  n_sched st' f = n_sched st f ∧ n_wait st' f = n_wait st f ∧
  n_task st' f = n_task st f.
Proof.
  intros Hs Hf Ht Hfam R1 R2 R3. unfold n_sched, n_wait, n_task.
  rewrite Hs, Hf, Ht. repeat split.
  - f_equal. apply filter_ext_elem. intros e He. by rewrite Hfam by auto.
  - f_equal. apply map_filter_ext. intros k fu Hk. simpl.
    by rewrite Hfam by eauto.
  - f_equal. apply filter_ext_elem. intros t Ht'. by rewrite Hfam by auto.
Qed.

(** An attribute write that keeps [run_id], [rerun] and [inst]. *)
Lemma family_of_write st run r r' id :
  runs st !! run = Some r → Run.rerun r' = Run.rerun r →
  family_of (set_runs (insert run r') st) id = family_of st id.
Proof.
  intros Hr Hre. unfold family_of. simpl.
  destruct (decide (id = run)) as [->|Hne].
  - rewrite lookup_insert_eq, Hr. simpl. done.
  - by rewrite lookup_insert_ne.
Qed.

Lemma n_fam_write st run r r' f :
  runs st !! run = Some r → Run.rerun r' = Run.rerun r →
  n_fam (set_runs (insert run r') st) f = n_fam st f.
Proof.
  intros Hr Hre. unfold n_fam, family. simpl.
  destruct (decide (Run.rerun r = Some f)) as [Hf|Hf].
  - rewrite map_filter_insert_True by (simpl; congruence).
    apply map_size_insert_Some. exists r. by apply map_lookup_filter_Some.
  - rewrite map_filter_insert_False by (simpl; congruence).
    rewrite map_filter_delete. apply map_size_delete_None.
    apply map_lookup_filter_None. right. intros r0 Hr0. simpl. congruence.
Qed.

Lemma GInv_write lt bt st run r r' :
  runs st !! run = Some r →
  Run.run_id r' = Run.run_id r → Run.rerun r' = Run.rerun r →
  Run.inst r' = Run.inst r →
  GInv lt bt st → GInv lt bt (set_runs (insert run r') st).
Proof.
  intros Hr Hid Hre Hin [H1 H2 H3 H4 H5 H6 H7 H8].
  assert (Hlook : ∀ id x, runs st !! id = Some x →
            ∃ x', <[run:=r']> (runs st) !! id = Some x' ∧
                  Run.run_id x' = Run.run_id x ∧ Run.rerun x' = Run.rerun x ∧
                  Run.inst x' = Run.inst x).
  { intros id x Hx. destruct (decide (id = run)) as [->|Hne].
    - exists r'. rewrite lookup_insert_eq. split; [done|]. by simplify_eq.
    - exists x. by rewrite lookup_insert_ne. }
  assert (Hback : ∀ id x', <[run:=r']> (runs st) !! id = Some x' →
            ∃ x, runs st !! id = Some x ∧
                 Run.run_id x' = Run.run_id x ∧ Run.rerun x' = Run.rerun x ∧
                 Run.inst x' = Run.inst x).
  { intros id x' Hx'. destruct (decide (id = run)) as [->|Hne].
    - rewrite lookup_insert_eq in Hx'. simplify_eq. eauto.
    - rewrite lookup_insert_ne in Hx' by done. eauto. }
  assert (Hsome : ∀ id, is_Some (runs st !! id) →
            is_Some (<[run:=r']> (runs st) !! id)).
  { intros id [x Hx]. destruct (Hlook id x Hx) as (x' & ? & _). eauto. }
  assert (Hc : ∀ f, n_sched (set_runs (insert run r') st) f = n_sched st f ∧
                    n_wait (set_runs (insert run r') st) f = n_wait st f ∧
                    n_task (set_runs (insert run r') st) f = n_task st f).
  { intros f. apply counts_ext; try done.
    - intros id _. by eapply family_of_write.
    - intros k fu Hk. by destruct (H4 k fu Hk). }
  constructor; simpl.
  - intros id x' Hx'. destruct (Hback id x' Hx') as (x & Hx & Ei & _).
    rewrite Ei. by apply H1.
  - intros id x' Hx'. destruct (Hback id x' Hx') as (x & Hx & _ & Er & Ein).
    destruct (H2 id x Hx) as (f & r0 & Hf & Hr0 & Hrr0 & Hi0).
    destruct (Hlook f r0 Hr0) as (r0' & Hr0' & _ & Er0 & Ei0).
    exists f, r0'. repeat split; congruence.
  - intros e He. apply Hsome. by apply H3.
  - intros k fu Hk. destruct (H4 k fu Hk). split; [done|]. by apply Hsome.
  - intros t Ht. apply Hsome. by apply H5.
  - intros f. destruct (Hc f) as (-> & -> & ->). apply H6.
  - intros f x' Hx'. destruct (Hback f x' Hx') as (x & Hx & _ & _ & Ein).
    destruct (Hc f) as (_ & _ & ->).
    rewrite (n_fam_write st run r r') by done.
    unfold budget. simpl. rewrite Ein. by apply H7.
  - done.
Qed.

(** The timed queue, the futures and the queued reruns change. *)
Lemma GInv_set_scheduled lt lt' bt st g :
  (∀ e, e ∈ g (scheduled st) → is_Some (runs st !! e.2)) →
  (∀ f, length (filter (λ e, family_of st e.2 = Some f) (g (scheduled st)))
          + tk lt' f ≤ n_sched st f + tk lt f)%nat →
  GInv lt bt st → GInv lt' bt (set_scheduled g st).
Proof.
  intros Href Hn [H1 H2 H3 H4 H5 H6 H7 H8]. constructor; try done.
  intros f. specialize (H6 f). specialize (Hn f).
  unfold n_sched at 1. unfold n_wait, n_task, family_of in *. simpl. lia.
Qed.

Lemma GInv_set_futures lt lt' bt st g :
  (∀ k fu, g (futures st) !! k = Some fu →
           (k < next_future st)%nat ∧ is_Some (runs st !! fut_run fu)) →
  (∀ f, size (filter (λ kv, pending kv.2 ∧ family_of st (fut_run kv.2) = Some f)
                     (g (futures st)))
          + tk lt' f ≤ n_wait st f + tk lt f)%nat →
  GInv lt bt st → GInv lt' bt (set_futures g st).
Proof.
  intros Href Hn [H1 H2 H3 H4 H5 H6 H7 H8]. constructor; try done.
  intros f. specialize (H6 f). specialize (Hn f).
  unfold n_wait at 1. unfold n_sched, n_task, family_of in *. simpl. lia.
Qed.

Lemma GInv_set_loop_tasks lt lt' bt bt' st g :
  (∀ t, t ∈ g (loop_tasks st) → is_Some (runs st !! t.1)) →
  (∀ f, length (filter (λ t, family_of st t.1 = Some f) (g (loop_tasks st)))
          + tk lt' f ≤ n_task st f + tk lt f)%nat →
  (∀ f r0, runs st !! f = Some r0 →
     n_fam st f
       + length (filter (λ t, family_of st t.1 = Some f) (g (loop_tasks st)))
       + tk bt' f ≤ budget st r0)%nat →
  GInv lt bt st → GInv lt' bt' (set_loop_tasks g st).
Proof.
  intros Href Hn Hb [H1 H2 H3 H4 H5 H6 H7 H8]. constructor; try done.
  intros f. specialize (H6 f). specialize (Hn f).
  unfold n_task at 1. unfold n_sched, n_wait, family_of in *. simpl. lia.
Qed.

(** Putting a run with a fresh id into the table. *)
Lemma family_of_add st r id :
  runs st !! Run.run_id r = None → is_Some (runs st !! id) →
  family_of (set_runs (insert (Run.run_id r) r) st) id = family_of st id.
Proof.
  intros Hnew [x Hx]. unfold family_of. simpl.
  rewrite lookup_insert_ne; [done|]. intros E. rewrite E in Hnew. congruence.
Qed.

Lemma n_fam_add st r f :
  runs st !! Run.run_id r = None →
  n_fam (set_runs (insert (Run.run_id r) r) st) f =
    (n_fam st f + if decide (Run.rerun r = Some f) then 1 else 0)%nat.
Proof.
  intros Hnew. unfold n_fam, family. simpl.
  assert (Hnone : filter (λ kr : nat * Run.t, Run.rerun kr.2 = Some f)
                         (runs st) !! Run.run_id r = None).
  { apply map_lookup_filter_None. by left. }
  case_decide as Hf.
  - rewrite map_filter_insert_True by done.
    rewrite map_size_insert_None by done. lia.
  - rewrite map_filter_insert_False by done.
    rewrite map_filter_delete, map_size_delete_None by done. lia.
Qed.

(** A family nobody belongs to has no members and no live items. *)
Lemma counts_zero st f :
  (∀ id, family_of st id ≠ Some f) →
  n_sched st f = 0 ∧ n_wait st f = 0 ∧ n_task st f = 0 ∧ n_fam st f = 0.
Proof.
  intros Hno. unfold n_sched, n_wait, n_task, n_fam, family. repeat split.
  - rewrite (filter_ext_elem _ (λ _, False)).
    + induction (scheduled st); [done|]. rewrite filter_cons_False; [done|tauto].
    + intros e _. split; [apply Hno|done].
  - apply map_size_empty_iff, map_empty. intros k.
    apply map_lookup_filter_None. right. intros fu _ [_ ?]. by eapply Hno.
  - rewrite (filter_ext_elem _ (λ _, False)).
    + induction (loop_tasks st); [done|]. rewrite filter_cons_False; [done|tauto].
    + intros e _. split; [apply Hno|done].
  - apply map_size_empty_iff, map_empty. intros k.
    apply map_lookup_filter_None. right. intros r Hr Hre. simpl in Hre.
    apply (Hno k). unfold family_of. by rewrite Hr.
Qed.

Lemma budget_pos st r0 : (1 ≤ budget st r0)%nat.
Proof. unfold budget. destruct (jobs st !! _); lia. Qed.

Lemma GInv_add st r (lt bt : option nat) f :
  runs st !! Run.run_id r = None → (Run.run_id r < next_run_id st)%nat →
  Run.rerun r = Some f →
  (f = Run.run_id r ∧ lt = None ∧ bt = None ∨
   lt = Some f ∧ bt = Some f ∧
   ∃ r0, runs st !! f = Some r0 ∧ Run.rerun r0 = Some f ∧
         Run.inst r0 = Run.inst r) →
  GInv lt bt st →
  GInv (Some f) None (set_runs (insert (Run.run_id r) r) st).
Proof.
  intros Hnew Hlt Hre Hcase HI.
  pose proof HI as [H1 H2 H3 H4 H5 H6 H7 H8].
  set (st' := set_runs (insert (Run.run_id r) r) st).
  assert (Hold : ∀ id x, runs st !! id = Some x → runs st' !! id = Some x).
  { intros id x Hx. simpl. rewrite lookup_insert_ne; [done|].
    intros <-. congruence. }
  assert (Hc : ∀ g, n_sched st' g = n_sched st g ∧ n_wait st' g = n_wait st g ∧
                    n_task st' g = n_task st g).
  { intros g. apply counts_ext; try done.
    - intros id Hid. by apply family_of_add.
    - intros k fu Hk. by destruct (H4 k fu Hk). }
  assert (Hsome : ∀ id, is_Some (runs st !! id) → is_Some (runs st' !! id)).
  { intros id [x Hx]. exists x. by apply Hold. }
  assert (Hfresh : ∀ id, family_of st id ≠ Some (Run.run_id r)).
  { intros id Hid. unfold family_of in Hid.
    destruct (runs st !! id) as [x|] eqn:Hx; [|done]. simpl in Hid.
    destruct (H2 id x Hx) as (f' & r0 & Hf' & Hr0 & _). congruence. }
  constructor.
  - intros id x Hx. simpl in Hx.
    destruct (decide (id = Run.run_id r)) as [->|Hne].
    + rewrite lookup_insert_eq in Hx. by simplify_eq.
    + rewrite lookup_insert_ne in Hx by done. by apply H1.
  - intros id x Hx. simpl in Hx.
    destruct (decide (id = Run.run_id r)) as [->|Hne].
    + rewrite lookup_insert_eq in Hx. simplify_eq.
      destruct Hcase as [(-> & _)|(_ & _ & r0 & Hr0 & Hrr0 & Hi0)].
      * exists (Run.run_id x), x. simpl. by rewrite lookup_insert_eq.
      * exists f, r0. eauto.
    + rewrite lookup_insert_ne in Hx by done.
      destruct (H2 id x Hx) as (f' & r0 & ? & ? & ? & ?).
      exists f', r0. eauto.
  - intros e He. apply Hsome. by apply H3.
  - intros k fu Hk. destruct (H4 k fu Hk). split; [done|]. by apply Hsome.
  - intros t Ht. apply Hsome. by apply H5.
  - intros g. destruct (Hc g) as (-> & -> & ->).
    destruct Hcase as [(-> & -> & ->)|(-> & -> & _)].
    + destruct (decide (g = Run.run_id r)) as [->|Hne].
      * destruct (counts_zero st (Run.run_id r)) as (-> & -> & -> & _);
          [done|]. rewrite tk_Some. lia.
      * specialize (H6 g). rewrite tk_Some_ne by done.
        rewrite tk_None in H6. lia.
    + apply H6.
  - intros g r0 Hg. destruct (Hc g) as (_ & _ & ->).
    unfold st'. rewrite n_fam_add by done. rewrite tk_None.
    replace (budget (set_runs (insert (Run.run_id r) r) st) r0)
      with (budget st r0) by done.
    simpl in Hg. destruct (decide (g = Run.run_id r)) as [->|Hne].
    + rewrite lookup_insert_eq in Hg. simplify_eq.
      destruct (counts_zero st (Run.run_id r0)) as (_ & _ & -> & ->); [done|].
      pose proof (budget_pos st r0). case_decide; lia.
    + rewrite lookup_insert_ne in Hg by done.
      specialize (H7 g r0 Hg).
      destruct Hcase as [(-> & _ & ->)|(_ & -> & _)].
      * rewrite tk_None in H7. case_decide; [congruence|lia].
      * case_decide as Hfg.
        -- assert (g = f) as -> by congruence. rewrite tk_Some in H7. lia.
        -- lia.
  - done.
Qed.

Lemma family_of_is_Some st run f :
  family_of st run = Some f → is_Some (runs st !! run).
Proof. unfold family_of. destruct (runs st !! run); [eauto|done]. Qed.

Lemma length_filter_singleton {A} (P : A → Prop) `{!∀ x, Decision (P x)} x :
  length (filter P [x]) = if decide (P x) then 1 else 0.
Proof. rewrite filter_cons. by destruct (decide (P x)). Qed.

(** [ScheduledRuns.schedule] takes the live item the family gave up. *)
Lemma GInv_schedule bt st t run f :
  family_of st run = Some f → GInv (Some f) bt st →
  GInv None bt
    (set_scheduled
       (λ q, if decide ((t, run) ∈ q) then q else (q ++ [(t, run)])%list) st).
Proof.
  intros Hf HI. apply (GInv_set_scheduled (Some f)); [| |done].
  - intros e He. case_decide; [by apply (g_ref_sched _ _ _ HI)|].
    apply elem_of_app in He as [He|He]; [by apply (g_ref_sched _ _ _ HI)|].
    apply list_elem_of_singleton in He as ->. by eapply family_of_is_Some.
  - intros g. rewrite tk_None. case_decide; [unfold n_sched; lia|].
    rewrite filter_app, length_app, length_filter_singleton. simpl.
    unfold n_sched, tk. rewrite Hf.
    destruct (decide (Some f = Some g)); lia.
Qed.

Lemma GInv_unschedule lt bt st run :
  GInv lt bt st → GInv lt bt (set_scheduled (filter (λ e, e.2 ≠ run)) st).
Proof.
  intros HI. apply (GInv_set_scheduled lt); [| |done].
  - intros e He. apply list_elem_of_filter in He as [_ He'].
    by apply (g_ref_sched _ _ _ HI).
  - intros g. unfold n_sched. rewrite list_filter_filter.
    pose proof (length_filter (λ e : Z * nat, e.2 ≠ run)
                  (filter (λ e, family_of st e.2 = Some g) (scheduled st))).
    rewrite list_filter_filter in H.
    erewrite (filter_ext_elem _ (λ x, x.2 ≠ run ∧ family_of st x.2 = Some g));
      [lia|]. intros; tauto.
Qed.

(** A release hands the live item of the run to its caller. *)
Lemma remove_due_spec st now run q q' f :
  ScheduledRuns.remove_due now run q = Some q' →
  family_of st run = Some f →
  (∀ e, e ∈ q' → e ∈ q) ∧
  ∀ g, (length (filter (λ e, family_of st e.2 = Some g) q') + tk (Some f) g
        = length (filter (λ e : Z * nat, family_of st e.2 = Some g) q))%nat.
Proof.
  intros Hrem Hf. revert q' Hrem.
  induction q as [|e q IH]; intros q' Hrem; [done|].
  simpl in Hrem. case_decide as Hd.
  - destruct Hd as [<- _]. injection Hrem as <-. split; [intros; by right|].
    intros g. rewrite (filter_cons _ e). rewrite Hf. unfold tk.
    destruct (decide (Some f = Some g)); simpl; lia.
  - destruct (ScheduledRuns.remove_due now run q) as [q0|]; [|done].
    simpl in Hrem. simplify_eq. destruct (IH q0 eq_refl) as [Hin Hn]. split.
    + intros x Hx. apply elem_of_cons in Hx as [->|Hx]; [by left|].
      right. by apply Hin.
    + intros g. specialize (Hn g). rewrite !(filter_cons _ e).
      destruct (decide (family_of st e.2 = Some g)); simpl; lia.
Qed.

Lemma GInv_release st run q' f :
  ScheduledRuns.remove_due (clock st) run (scheduled st) = Some q' →
  family_of st run = Some f → Inv st →
  GInv (Some f) None (set_scheduled (λ _, q') st).
Proof.
  intros Hrem Hf HI.
  destruct (remove_due_spec st _ _ _ _ f Hrem Hf) as [Hin Hn].
  apply (GInv_set_scheduled None); [| |done].
  - intros e He. by apply (g_ref_sched _ _ _ HI), Hin.
  - intros g. specialize (Hn g). rewrite tk_None. unfold n_sched. lia.
Qed.

(** A new pending future takes the live item, a resolved one gives it
    back. *)
Lemma GInv_ensure_future bt st run f :
  family_of st run = Some f → GInv (Some f) bt st →
  GInv None bt
    (set_futures (insert (next_future st)
                         {| fut_run := run; fut_state := Pending |})
                 (set_next_future S st)).
Proof.
  intros Hf HI. apply GInv_next_future in HI as HI'.
  assert (Hnew : futures st !! next_future st = None).
  { destruct (futures st !! next_future st) as [fu|] eqn:Hk; [|done].
    destruct (g_ref_wait _ _ _ HI _ _ Hk). lia. }
  apply (GInv_set_futures (Some f)); [| |done].
  - intros k fu Hk. simpl in Hk. simpl.
    destruct (decide (k = next_future st)) as [->|Hne].
    + rewrite lookup_insert_eq in Hk. simplify_eq. simpl. split; [lia|].
      by eapply family_of_is_Some.
    + rewrite lookup_insert_ne in Hk by done.
      destruct (g_ref_wait _ _ _ HI _ _ Hk). split; [lia|done].
  - intros g. rewrite tk_None. simpl. unfold n_wait. simpl.
    change (family_of (set_next_future S st)) with (family_of st).
    assert (Hnone : filter (λ kv : nat * Future,
                       pending kv.2 ∧ family_of st (fut_run kv.2) = Some g)
                      (futures st) !! next_future st = None).
    { apply map_lookup_filter_None. by left. }
    unfold tk. destruct (decide (Some f = Some g)) as [Hfg|Hfg].
    + rewrite map_filter_insert_True by (simpl; split; [done|congruence]).
      rewrite map_size_insert_None by done. lia.
    + rewrite map_filter_insert_False by (simpl; intros [_ ?]; congruence).
      rewrite map_filter_delete, map_size_delete_None by done. lia.
Qed.

Lemma GInv_resolve st k fu res f :
  futures st !! k = Some fu → fut_state fu = Pending →
  family_of st (fut_run fu) = Some f → Inv st →
  GInv (Some f) None
    (set_futures (insert k {| fut_run := fut_run fu;
                              fut_state := Resolved res |}) st).
Proof.
  intros Hk Hp Hf HI.
  apply (GInv_set_futures None); [| |done].
  - intros k' fu' Hk'. simpl in Hk'.
    destruct (decide (k' = k)) as [->|Hne].
    + rewrite lookup_insert_eq in Hk'. simplify_eq. simpl.
      apply (g_ref_wait _ _ _ HI _ _ Hk).
    + rewrite lookup_insert_ne in Hk' by done.
      apply (g_ref_wait _ _ _ HI _ _ Hk').
  - intros g. rewrite tk_None. unfold n_wait.
    rewrite map_filter_insert_False by (simpl; intros [[] _]).
    rewrite map_filter_delete. rewrite map_size_delete.
    unfold tk. destruct (decide (Some f = Some g)) as [Hfg|Hfg].
    + assert (Hin : filter (λ kv : nat * Future,
                       pending kv.2 ∧ family_of st (fut_run kv.2) = Some g)
                      (futures st) !! k = Some fu).
      { apply map_lookup_filter_Some. split; [done|]. simpl.
        unfold pending. rewrite Hp. split; [done|congruence]. }
      pose proof (map_size_ne_0_lookup_2 _ k (mk_is_Some _ _ Hin)).
      rewrite Hin. simpl. lia.
    + assert (Hout : filter (λ kv : nat * Future,
                       pending kv.2 ∧ family_of st (fut_run kv.2) = Some g)
                      (futures st) !! k = None).
      { apply map_lookup_filter_None. right. intros fu' Hfu' [_ Hg].
        simpl in Hg. simplify_eq; congruence. }
      rewrite Hout. simpl. lia.
Qed.

(** A queued rerun takes the live item and a unit of the budget; when
    the event loop takes it off the queue it hands both back. *)
Lemma GInv_push_task st run r f t job :
  GInv (Some f) None st → runs st !! run = Some r → Run.rerun r = Some f →
  jobs st !! Inst.job_id (Run.inst r) = Some job →
  (n_fam st f ≤ Reruns.count (Job.reruns job))%nat →
  Inv (set_loop_tasks (λ l, (l ++ [(run, t)])%list) st).
Proof.
  intros HI Hr Hre Hjob Hle.
  assert (Hf : family_of st run = Some f).
  { unfold family_of. by rewrite Hr. }
  assert (Hn : ∀ g, length (filter (λ t : nat * option Z, family_of st t.1 = Some g)
                              (loop_tasks st ++ [(run, t)])%list)
                    = (n_task st g + tk (Some f) g)%nat).
  { intros g. rewrite filter_app, length_app, length_filter_singleton. simpl.
    unfold n_task, tk. rewrite Hf. by destruct (decide (Some f = Some g)). }
  apply (GInv_set_loop_tasks (Some f) None None None); [| | |done].
  - intros x Hx. apply elem_of_app in Hx as [Hx|Hx];
      [by apply (g_ref_task _ _ _ HI)|].
    apply list_elem_of_singleton in Hx as ->. simpl. eauto.
  - intros g. rewrite Hn, tk_None. lia.
  - intros g r0 Hg. rewrite Hn, tk_None.
    pose proof (g_budget _ _ _ HI g r0 Hg) as Hb. rewrite tk_None in Hb.
    destruct (decide (g = f)) as [->|Hne]; [|rewrite tk_Some_ne by done; lia].
    rewrite tk_Some. pose proof (g_live _ _ _ HI f) as Hl.
    rewrite tk_Some in Hl.
    destruct (g_fam _ _ _ HI run r Hr) as (f' & r0' & Hf' & Hr0' & _ & Hinst).
    assert (f' = f) as -> by congruence. assert (r0' = r0) as -> by congruence.
    unfold budget. rewrite Hinst, Hjob. lia.
Qed.

Lemma GInv_pop_task st run t rest f :
  loop_tasks st = (run, t) :: rest → family_of st run = Some f → Inv st →
  GInv (Some f) (Some f) (set_loop_tasks (λ _, rest) st).
Proof.
  intros Hl Hf HI.
  assert (Hn : ∀ g, n_task st g
    = (length (filter (λ t : nat * option Z, family_of st t.1 = Some g) rest)
       + tk (Some f) g)%nat).
  { intros g. unfold n_task. rewrite Hl, filter_cons. simpl. rewrite Hf.
    unfold tk. destruct (decide (Some f = Some g)); simpl; lia. }
  apply (GInv_set_loop_tasks None (Some f) None (Some f)); [| | |done].
  - intros x Hx. apply (g_ref_task _ _ _ HI). rewrite Hl. by right.
  - intros g. rewrite (Hn g), tk_None. lia.
  - intros g r0 Hg. pose proof (g_budget _ _ _ HI g r0 Hg) as Hb.
    rewrite (Hn g), tk_None in Hb. lia.
Qed.

(** *** The operations keep the invariant *)

(** [__rerun] queues a rerun only while the family is within the count
    of the policy, and uses up the live item of the failed run. *)
Lemma wp___rerun st run f :
  GInv (Some f) None st → family_of st run = Some f →
  wp (__rerun run) (λ _, Inv) st.
Proof.
  intros HI Hf. pose proof (GInv_drop _ _ _ HI) as HI0.
  unfold __rerun. apply wp_bind, wp_the_run; [done|]. intros r Hr.
  apply wp_bind, wp_get_job; [done|]. intros job Hjob.
  case_decide as Hc; [by apply wp_ret|].
  apply wp_bind. unfold Runs.query. apply wp_bind, wp_gets, wp_ret.
  assert (Hre : Run.rerun r = Some f).
  { unfold family_of in Hf. by rewrite Hr in Hf. }
  rewrite Hre. fold (family st f). fold (n_fam st f).
  case_decide as Hsz; [by apply wp_log_info, GInv_set_log|].
  apply wp_bind, wp_gets. apply wp_bind, wp_unpack_one; [done|]. intros main_run.
  apply wp_bind.
  destruct (Run.times main_run !! "schedule") as [sched|];
    [apply wp_ret|by apply wp_raise].
  assert (Hpush : ∀ st' t,
            GInv (Some f) None st' → runs st' = runs st → jobs st' = jobs st →
            Inv (set_loop_tasks (λ l, (l ++ [(run, t)])%list) st')).
  { intros st' t HI' Hruns Hjobs.
    eapply (GInv_push_task st' run r f t job); try done.
    - by rewrite Hruns.
    - by rewrite Hjobs.
    - unfold n_fam, family in *. rewrite Hruns. lia. }
  apply wp_bind.
  destruct sched as [t|]; [case_decide|].
  - apply wp_log_info. unfold ensure_future_rerun. apply wp_modify.
    apply Hpush; [by apply GInv_set_log|done|done].
  - apply wp_ret. apply wp_modify. by apply Hpush.
  - apply wp_ret. apply wp_modify. by apply Hpush.
Qed.

(** [_transition] up to the rerun evaluation: it writes attributes of
    the run, outputs and the database. *)
Lemma wp__transition lt bt st run state message meta times outputs Q :
  GInv lt bt st →
  (∀ st', GInv lt bt st' → (∀ id, family_of st' id = family_of st id) →
          wp (if decide (state = Run.STATE.failure)
              then __rerun run else ret ()) Q st') →
  wp (_transition run state message meta times outputs) Q st.
Proof.
  intros HI HQ. pose proof (GInv_drop _ _ _ HI) as HI0.
  unfold _transition. apply wp_bind, wp_gets.
  apply wp_bind, wp_the_run; [done|]. intros r Hr.
  apply wp_bind, wp_of_result; [done|]. intros r' Hr'.
  apply Run__transition_Ok in Hr' as [_ ->].
  apply wp_bind. unfold write_run. apply wp_modify.
  set (r' := Run.applied r (clock st) state message meta times).
  assert (HI1 : GInv lt bt (set_runs (insert run r') st)).
  { by apply (GInv_write lt bt st run r r'). }
  assert (Hfam1 : ∀ id, family_of (set_runs (insert run r') st) id = family_of st id).
  { intros id. by apply (family_of_write st run r r'). }
  assert (Hr1 : runs (set_runs (insert run r') st) !! run = Some r').
  { simpl. by rewrite lookup_insert_eq. }
  revert HI1 Hfam1 Hr1. generalize (set_runs (insert run r') st). intros st1 HI1 Hfam1 Hr1.
  apply wp_bind.
  apply (wp_for_each _ (λ s, GInv lt bt s ∧ (∀ id, family_of s id = family_of st id)
                           ∧ runs s !! run = Some r')); [done| |].
  { intros o s (? & ? & ?). unfold output_db_add. apply wp_modify.
    split; [by apply GInv_set_outputs|done]. }
  intros st2 (HI2 & Hfam2 & Hr2).
  apply wp_bind. unfold Runs.update.
  apply wp_bind, wp_the_run; [by eapply GInv_drop|]. intros r2 _.
  destruct (Run.expected r2).
  - apply wp_ret. by apply HQ.
  - apply wp_modify. apply HQ; [by apply GInv_set_run_db|done].
Qed.

Lemma wp__transition_keep lt bt st run state message meta times outputs :
  state ≠ Run.STATE.failure → GInv lt bt st →
  wp (_transition run state message meta times outputs)
     (λ _ st', GInv lt bt st' ∧ ∀ id, family_of st' id = family_of st id) st.
Proof.
  intros Hne HI. apply wp__transition with (lt := lt) (bt := bt); [done|].
  intros st' HI' Hfam. case_decide; [done|]. by apply wp_ret.
Qed.

Lemma wp__transition_failure st run f message meta times outputs :
  GInv (Some f) None st → family_of st run = Some f →
  wp (_transition run Run.STATE.failure message meta times outputs)
     (λ _, Inv) st.
Proof.
  intros HI Hf. apply wp__transition with (lt := Some f) (bt := None); [done|].
  intros st' HI' Hfam. case_decide; [|done].
  apply wp___rerun with (f := f); [done|]. by rewrite Hfam.
Qed.

Lemma wp__transition_drop lt bt st run state message meta times outputs f :
  GInv lt bt st → (state = Run.STATE.failure → lt = Some f ∧ bt = None ∧
                   family_of st run = Some f) →
  wp (_transition run state message meta times outputs) (λ _, Inv) st.
Proof.
  intros HI Hfail. destruct (decide (state = Run.STATE.failure)) as [->|Hne].
  - destruct Hfail as (-> & -> & Hf); [done|]. by eapply wp__transition_failure.
  - eapply wp_mono; [by apply wp__transition_keep|].
    intros [] st' [HI' _]. by eapply GInv_drop.
Qed.

(** The tail of [done]: the entry leaves [__running_tasks]. *)
Lemma wp_del_running_task run st :
  Inv st →
  wp (st ← gets running_tasks;
      match st !! run with
      | Some _ => modify (set_running_tasks (delete run))
      | None => raise (KeyError (pretty run))
      end) (λ _, Inv) st.
Proof.
  intros HI. apply wp_bind, wp_gets.
  destruct (running_tasks st !! run);
    [by apply wp_modify, GInv_set_running_tasks|by apply wp_raise].
Qed.

Lemma wp_done st run f res :
  GInv (Some f) None st → family_of st run = Some f →
  wp (done run res) (λ _, Inv) st.
Proof.
  intros HI Hf. pose proof (GInv_drop _ _ _ HI) as HI0.
  assert (Hkeep : ∀ state message meta times outputs,
            state ≠ Run.STATE.failure →
            wp (_transition run state message meta times outputs;;
                st ← gets running_tasks;
                match st !! run with
                | Some _ => modify (set_running_tasks (delete run))
                | None => raise (KeyError (pretty run))
                end) (λ _, Inv) st).
  { intros. apply wp_bind. eapply wp_mono; [by apply wp__transition_keep|].
    intros [] st' [HI' _]. simpl. apply wp_del_running_task. by eapply GInv_drop. }
  destruct res as [success|e]; [by apply Hkeep|].
  destruct e; simpl; try (by apply wp_raise); try (by apply Hkeep).
  - by apply wp_log_info, GInv_set_log.
  - apply wp_bind. eapply wp_mono; [by eapply wp__transition_failure|].
    intros [] st' HI'. simpl. by apply wp_del_running_task.
Qed.

Lemma wp_resolve st future res :
  Inv st → wp (resolve future res) (λ _, Inv) st.
Proof.
  intros HI. unfold resolve. apply wp_bind, wp_gets.
  destruct (futures st !! future) as [fu|] eqn:Hk; [|by apply wp_ret].
  destruct (fut_state fu) eqn:Hp; [|by apply wp_ret].
  destruct (g_ref_wait _ _ _ HI _ _ Hk) as [_ [r Hr]].
  destruct (family_of_Some _ _ _ _ _ HI Hr) as (f & _ & Hf).
  apply wp_bind, wp_modify.
  apply wp_done with (f := f); [by apply GInv_resolve|done].
Qed.

Lemma wp___start st run f started :
  GInv (Some f) None st → family_of st run = Some f →
  wp (__start run started) (λ _, Inv) st.
Proof.
  intros HI Hf. pose proof (GInv_drop _ _ _ HI) as HI0.
  unfold __start. apply wp_bind, wp_the_run; [done|]. intros r Hr.
  apply wp_bind.
  apply (wp_mono _ _ (λ _ st', GInv (Some f) None st' ∧ family_of st' run = Some f)).
  { destruct (Run.program r); [by apply wp_ret|].
    apply wp_bind. unfold __get_program.
    apply wp_bind, wp_the_run; [done|]. intros r1 _.
    apply wp_bind, wp_get_job; [done|]. intros job _. apply wp_ret.
    unfold write_run. apply wp_modify. split.
    - by apply (GInv_write _ _ st run r).
    - by rewrite (family_of_write st run r). }
  intros [] st1 [HI1 Hf1]. simpl.
  destruct started as [running|e].
  - apply wp_bind. eapply wp_mono; [by apply wp__transition_keep|].
    intros [] st2 [HI2 Hfam2]. simpl.
    apply wp_bind. unfold ensure_future.
    apply wp_bind, wp_gets. apply wp_bind, wp_modify. apply wp_bind, wp_modify.
    apply wp_ret. unfold __wait. apply wp_modify.
    apply GInv_set_running_tasks. apply (GInv_ensure_future None st2 run f);
      [|done]. by rewrite Hfam2.
  - destruct e; try (by apply wp_raise; eapply GInv_drop).
    eapply wp_mono; [by apply wp__transition_keep|].
    intros [] st2 [HI2 _]. by eapply GInv_drop.
Qed.

Lemma wp_schedule st time run started lt bt f :
  GInv lt bt st → (Run.run_id run < next_run_id st)%nat →
  Run.rerun run = Some f →
  (f = Run.run_id run ∧ lt = None ∧ bt = None ∨
   lt = Some f ∧ bt = Some f ∧
   ∃ r0, runs st !! f = Some r0 ∧ Run.rerun r0 = Some f ∧
         Run.inst r0 = Run.inst run) →
  wp (schedule time run started) (λ _, Inv) st.
Proof.
  intros HI Hlt Hre Hcase. pose proof (GInv_drop _ _ _ HI) as HI0.
  unfold schedule. apply wp_bind. unfold Runs.add. apply wp_bind, wp_gets.
  destruct (runs st !! Run.run_id run) eqn:Hnew; [by apply wp_raise|].
  apply wp_modify.
  pose proof (GInv_add st run lt bt f Hnew Hlt Hre Hcase HI) as HI1.
  assert (Hf1 : family_of (set_runs (insert (Run.run_id run) run) st)
                          (Run.run_id run) = Some f).
  { unfold family_of. simpl. by rewrite lookup_insert_eq. }
  revert HI1 Hf1. generalize (set_runs (insert (Run.run_id run) run) st).
  intros st1 HI1 Hf1.
  destruct time as [t|]; [|by apply wp___start with (f := f)].
  apply wp_bind. unfold ScheduledRuns.schedule. apply wp_modify.
  eapply wp_mono; [apply wp__transition_keep; [done|]|].
  - by apply (GInv_schedule None st1 t (Run.run_id run) f).
  - by intros [] st2 [HI2 _].
Qed.

Lemma wp_rerun st run time started f :
  GInv (Some f) (Some f) st → family_of st run = Some f →
  wp (rerun run time started) (λ _, Inv) st.
Proof.
  intros HI Hf. pose proof (GInv_drop _ _ _ HI) as HI0.
  unfold rerun. apply wp_bind, wp_the_run; [done|]. intros r Hr.
  assert (Hre : Run.rerun r = Some f).
  { unfold family_of in Hf. by rewrite Hr in Hf. }
  apply wp_bind, wp_log_info. rewrite Hre.
  apply wp_bind. unfold new_Run. apply wp_bind, wp_gets.
  apply wp_bind, wp_modify. apply wp_ret.
  apply wp_bind. eapply wp_mono.
  - apply (wp_schedule _ time _ started (Some f) (Some f) f).
    + by apply GInv_next_run_id, GInv_set_log.
    + simpl. lia.
    + done.
    + right. split; [done|]. split; [done|].
      destruct (g_fam _ _ _ HI run r Hr) as (f' & r0 & Hf' & Hr0 & Hrr0 & Hi0).
      assert (f' = f) as -> by congruence. exists r0. done.
  - intros [] st' HI'. by apply wp_ret.
Qed.

Lemma wp_run_task st started : Inv st → wp (run_task started) (λ _, Inv) st.
Proof.
  intros HI. unfold run_task. apply wp_bind, wp_gets.
  destruct (loop_tasks st) as [|[run time] rest] eqn:Hl; [by apply wp_ret|].
  destruct (g_ref_task _ _ _ HI (run, time)) as [r Hr]; [rewrite Hl; by left|].
  destruct (family_of_Some _ _ _ _ _ HI Hr) as (f & _ & Hf).
  apply wp_bind, wp_modify. apply wp_bind. eapply wp_mono.
  - apply (wp_rerun _ run time started f); [|done].
    by apply (GInv_pop_task st run time rest f).
  - intros a st' HI'. by apply wp_ret.
Qed.

Lemma remove_due_elem now run q q' :
  ScheduledRuns.remove_due now run q = Some q' → ∃ e, e ∈ q ∧ e.2 = run.
Proof.
  revert q'. induction q as [|e q IH]; intros q' Hrem; [done|].
  simpl in Hrem. case_decide as Hd.
  - exists e. split; [by left|tauto].
  - destruct (ScheduledRuns.remove_due now run q) as [q0|]; [|done].
    destruct (IH q0 eq_refl) as (e' & ? & ?). exists e'. split; [by right|done].
Qed.

Lemma wp_release st run started : Inv st → wp (release run started) (λ _, Inv) st.
Proof.
  intros HI. unfold release. apply wp_bind, wp_gets. apply wp_bind, wp_gets.
  destruct (ScheduledRuns.remove_due (clock st) run (scheduled st)) as [q'|] eqn:Hrem;
    [|by apply wp_ret].
  destruct (remove_due_elem _ _ _ _ Hrem) as (e & He & <-).
  destruct (g_ref_sched _ _ _ HI e He) as [r Hr].
  destruct (family_of_Some _ _ _ _ _ HI Hr) as (f & _ & Hf).
  apply wp_bind, wp_modify.
  apply wp___start with (f := f); [|done]. by apply (GInv_release st e.2 q' f).
Qed.

Lemma wp_cancel st run : Inv st → wp (cancel run) (λ _, Inv) st.
Proof.
  intros HI. unfold cancel. apply wp_bind. unfold ScheduledRuns.unschedule.
  apply wp_modify. eapply wp_mono.
  - apply wp__transition_keep; [done|]. by apply GInv_unschedule.
  - by intros [] st' [HI' _].
Qed.

Lemma wp_cancel_task st run_id task :
  Inv st → wp (cancel_task run_id task) (λ _, Inv) st.
Proof.
  intros HI. unfold cancel_task. apply wp_bind, wp_gets.
  destruct (default false (cancelled <$> futures st !! task)).
  - by apply wp_log_info, GInv_set_log.
  - apply wp_bind, wp_log_info. apply wp_resolve. by apply GInv_set_log.
Qed.

Lemma wp_await_task st run_id task :
  Inv st → wp (await_task run_id task) (λ _, Inv) st.
Proof.
  intros HI. unfold wpe, await_task, await.
  rewrite bind_unfold. simpl.
  destruct (fut_state <$> futures st !! task) as [[|[s|e]]|]; try done.
  destruct e; try done. simpl. by apply GInv_set_log.
Qed.

Lemma wp_shut_down scheduler st :
  Inv st → wp (shut_down scheduler) (λ _, Inv) st.
Proof.
  intros HI. unfold shut_down. apply wp_bind, wp_log_info.
  apply wp_bind, wp_gets. apply wp_bind.
  apply (wp_for_each _ Inv); [by apply GInv_set_log| |].
  - intros entry s Hs. apply wp_bind. eapply wp_mono; [by apply wp_cancel_task|].
    intros [] s' Hs'. by apply wp_await_task.
  - intros s Hs. apply wp_bind.
    apply (wp_mono _ _ (λ _, Inv)).
    + destruct scheduler as [[]|e]; [by apply wp_ret|].
      destruct e; try (by apply wp_raise). by apply wp_log_info, GInv_set_log.
    + intros [] s' Hs'. apply wp_bind, wp_log_info. apply wp_modify.
      by apply GInv_set_loop_stopped, GInv_set_log.
Qed.

Lemma wp_step st ev : Inv st → wp (step ev) (λ _, Inv) st.
Proof.
  intros HI. destruct ev; simpl.
  - by apply wp_modify, GInv_set_clock.
  - apply wp_bind. unfold new_Run. apply wp_bind, wp_gets.
    apply wp_bind, wp_modify. apply wp_ret.
    apply (wp_schedule _ time _ started None None (next_run_id st)).
    + by apply GInv_next_run_id.
    + simpl. lia.
    + done.
    + left. done.
  - by apply wp_release.
  - by apply wp_resolve.
  - by apply wp_run_task.
  - by apply wp_cancel.
  - by apply wp_shut_down.
Qed.

Lemma step_Inv st ev : Inv st → Inv (step ev st).2.
Proof.
  intros HI. pose proof (wp_step st ev HI) as H. unfold wpe in H.
  by destruct (step ev st) as [[[]|e] st'].
Qed.

Lemma exec_Inv evs st : Inv st → Inv (exec evs st).
Proof.
  revert st. induction evs as [|ev evs IH]; intros st HI; [done|].
  simpl. apply IH. by apply step_Inv.
Qed.

Lemma init_Inv t0 : Inv (init J t0).
Proof.
  constructor; try done.
  - intros e He. simpl in He. by apply elem_of_nil in He.
  - intros t Ht. simpl in Ht. by apply elem_of_nil in Ht.
  - intros f. rewrite tk_None. unfold n_sched, n_wait, n_task. simpl.
    rewrite map_filter_empty, map_size_empty. lia.
Qed.

End Invariant.

(** *** What no operation changes: the instance and the family of a run *)

Lemma wp_weaken {A} (E E' : Apsis → Prop) (m : M A) Q st :
  wpe E m Q st → (∀ s, E s → E' s) → wpe E' m Q st.
Proof. unfold wpe. destruct (m st) as [[a|e] st']; eauto. Qed.

Lemma wp_the_run_Some E run r Q st :
  runs st !! run = Some r → Q r st → wpe E (the_run run) Q st.
Proof.
  intros Hr HQ. unfold the_run. apply wp_bind, wp_gets. rewrite Hr.
  by apply wp_ret.
Qed.

Lemma wp_result {A} E (m : M A) Q st a st' :
  wpe E m Q st → m st = (Ok a, st') → Q a st'.
Proof. unfold wpe. intros H Heq. by rewrite Heq in H. Qed.

Section Keeps.

Variables (id : nat) (x : Inst.t) (y : option nat).

Local Abbreviation K := (keeps id x y).

Lemma keeps_write st run r r' :
  K st → runs st !! run = Some r → Run.run_id r' = Run.run_id r →
  Run.inst r' = Run.inst r → Run.rerun r' = Run.rerun r →
  K (set_runs (insert run r') st).
Proof.
  intros (r0 & Hr0 & Hn & Hx & Hy) Hr Hid Hi Hre. unfold keeps. simpl.
  destruct (decide (id = run)) as [->|Hne].
  - exists r'. rewrite lookup_insert_eq. split; [done|]. repeat split; congruence.
  - exists r0. by rewrite lookup_insert_ne.
Qed.

Lemma wpk___rerun st run : K st → wpe K (__rerun run) (λ _, K) st.
Proof.
  intros HK. unfold __rerun.
  apply wp_bind, wp_the_run; [done|]. intros r Hr.
  apply wp_bind, wp_get_job; [done|]. intros job _.
  case_decide; [by apply wp_ret|].
  apply wp_bind. unfold Runs.query. apply wp_bind, wp_gets, wp_ret.
  case_decide; [by apply wp_log_info|].
  apply wp_bind, wp_gets. apply wp_bind, wp_unpack_one; [done|]. intros main_run.
  apply wp_bind.
  destruct (Run.times main_run !! "schedule") as [sched|];
    [apply wp_ret|by apply wp_raise].
  apply wp_bind.
  destruct sched as [t|]; [case_decide|].
  - by apply wp_log_info, wp_modify.
  - by apply wp_ret, wp_modify.
  - by apply wp_ret, wp_modify.
Qed.

Lemma wpk__transition st run state message meta times outputs :
  K st → wpe K (_transition run state message meta times outputs) (λ _, K) st.
Proof.
  intros HK. unfold _transition. apply wp_bind, wp_gets.
  apply wp_bind, wp_the_run; [done|]. intros r Hr.
  apply wp_bind, wp_of_result; [done|]. intros r' Hr'.
  apply Run__transition_Ok in Hr' as [_ ->].
  apply wp_bind. unfold write_run. apply wp_modify.
  apply wp_bind. apply (wp_for_each _ K).
  { by apply (keeps_write st run r). }
  { intros o s Hs. unfold output_db_add. by apply wp_modify. }
  intros st2 HK2. apply wp_bind. unfold Runs.update.
  apply wp_bind, wp_the_run; [done|]. intros r2 _.
  assert (Htail : ∀ s, K s →
            wpe K (if decide (state = Run.STATE.failure)
                   then __rerun run else ret ()) (λ _, K) s).
  { intros s Hs. case_decide; [by apply wpk___rerun|by apply wp_ret]. }
  destruct (Run.expected r2); [by apply wp_ret, Htail|by apply wp_modify, Htail].
Qed.

Lemma wpk___start st run started :
  K st → wpe K (__start run started) (λ _, K) st.
Proof.
  intros HK. unfold __start. apply wp_bind, wp_the_run; [done|]. intros r Hr.
  apply wp_bind. apply (wp_mono _ _ (λ _, K)).
  { destruct (Run.program r); [by apply wp_ret|].
    apply wp_bind. unfold __get_program.
    apply wp_bind, wp_the_run; [done|]. intros r1 _.
    apply wp_bind, wp_get_job; [done|]. intros job _. apply wp_ret.
    unfold write_run. apply wp_modify. by apply (keeps_write st run r). }
  intros [] st1 HK1. destruct started as [running|e].
  - apply wp_bind. eapply wp_mono; [by apply wpk__transition|].
    intros [] st2 HK2. simpl. apply wp_bind. unfold ensure_future.
    apply wp_bind, wp_gets. apply wp_bind, wp_modify. apply wp_bind, wp_modify.
    apply wp_ret. unfold __wait. by apply wp_modify.
  - destruct e; try (by apply wp_raise). by apply wpk__transition.
Qed.

End Keeps.

(** A run made by [rerun(run, time)] has the instance of [run] and
    belongs to its family. *)
Lemma rerun_same_inst st run time started new st' :
  rerun run time started st = (Ok new, st') →
  ∃ r r', runs st !! run = Some r ∧ runs st !! new = None ∧
          runs st' !! new = Some r' ∧ Run.run_id r' = new ∧
          Run.inst r' = Run.inst r ∧
          Run.rerun r' = Some (default (Run.run_id r) (Run.rerun r)).
Proof.
  apply (wp_result (λ _, True) _
           (λ new st', ∃ r r', runs st !! run = Some r ∧ runs st !! new = None ∧
              runs st' !! new = Some r' ∧ Run.run_id r' = new ∧
              Run.inst r' = Run.inst r ∧
              Run.rerun r' = Some (default (Run.run_id r) (Run.rerun r)))).
  unfold rerun. apply wp_bind. unfold the_run. apply wp_bind, wp_gets.
  destruct (runs st !! run) as [r|] eqn:Hr; [apply wp_ret|by apply wp_raise].
  apply wp_bind, wp_log_info. apply wp_bind. unfold new_Run.
  apply wp_bind, wp_gets. apply wp_bind, wp_modify. apply wp_ret.
  set (new_run := Run.init _ _ _ _).
  set (K := keeps (next_run_id st) (Run.inst r)
                  (Some (default (Run.run_id r) (Run.rerun r)))).
  apply wp_bind. unfold schedule. apply wp_bind. unfold Runs.add.
  apply wp_bind, wp_gets. simpl.
  destruct (runs st !! next_run_id st) eqn:Hnew; [by apply wp_raise|].
  apply wp_modify.
  assert (HK : K (set_runs (insert (next_run_id st) new_run)
                   (set_next_run_id S (set_log
                      (λ l, (l ++ ["rerun: " +:+ pretty (Run.run_id r) +:+ " at " +:+
                              match time with Some t => pretty t | None => "now" end])%list)
                      st)))).
  { exists new_run. simpl. rewrite lookup_insert_eq. repeat split; try done;
      by destruct (Run.rerun r). }
  apply (wp_mono _ _ (λ _, K)).
  - apply (wp_weaken K); [|done]. destruct time as [t|].
    + apply wp_bind. unfold ScheduledRuns.schedule. apply wp_modify.
      by apply wpk__transition.
    + by apply wpk___start.
  - intros [] s (r' & Hr' & Hn & Hi & Hre). apply wp_ret. exists r, r'. done.
Qed.

(** *** The claims on the engine *)

(** C4. In every engine reached from an empty one by the scheduler
    handing in runs, releases of the timed queue, program outcomes,
    queued reruns, cancellations and shutdown, a run [r] of the table
    belongs to the family of an original run [r0] that is in the table
    under the family's id, with [rerun] equal to its own [run_id] and with
    the instance of [r]; the family has at most [count + 1] members,
    [count] being that of the rerun policy of the job; and a run created
    by [rerun(r, time)] has the instance and the rerun id of [r]. *)
Theorem rerun_family_bound (jobs0 : gmap string Job.t) (t0 : Z)
    (evs : list Event) (id : nat) (r : Run.t) :
  runs (exec evs (init jobs0 t0)) !! id = Some r →
  (∃ f r0,
     Run.rerun r = Some f ∧
     runs (exec evs (init jobs0 t0)) !! f = Some r0 ∧
     Run.run_id r0 = f ∧ Run.rerun r0 = Some f ∧ Run.inst r0 = Run.inst r ∧
     ∀ job, jobs0 !! Inst.job_id (Run.inst r0) = Some job →
            (size (family (exec evs (init jobs0 t0)) f)
             ≤ Reruns.count (Job.reruns job) + 1)%nat) ∧
  (∀ time started new st',
     rerun id time started (exec evs (init jobs0 t0)) = (Ok new, st') →
     runs (exec evs (init jobs0 t0)) !! new = None ∧
     ∃ r', runs st' !! new = Some r' ∧ Run.run_id r' = new ∧
           Run.inst r' = Run.inst r ∧ Run.rerun r' = Run.rerun r).
Proof.
  intros Hr.
  pose proof (exec_Inv jobs0 evs _ (init_Inv jobs0 t0)) as HI.
  destruct (g_fam _ _ _ _ HI id r Hr) as (f & r0 & Hf & Hr0 & Hrr0 & Hi0).
  split.
  - exists f, r0. repeat split; try done.
    + by destruct (g_ids _ _ _ _ HI f r0 Hr0).
    + intros job Hjob.
      pose proof (g_budget _ _ _ _ HI f r0 Hr0) as Hb.
      rewrite tk_None in Hb. unfold budget in Hb.
      rewrite (g_jobs _ _ _ _ HI), Hjob in Hb. unfold n_fam in Hb. lia.
  - intros time started new st' Hrerun.
    destruct (rerun_same_inst _ _ _ _ _ _ Hrerun)
      as (r1 & r' & Hr1 & Hnew & Hr' & Hid & Hi & Hre).
    assert (r1 = r) as -> by congruence.
    split; [done|]. exists r'. repeat split; try done.
    rewrite Hre, Hf. done.
Qed.

Lemma rerun_family_bound_witness :
  (∃ f r0,
     Run.rerun last_rerun = Some f ∧
     runs after_scenario_3 !! f = Some r0 ∧
     Run.run_id r0 = f ∧ Run.rerun r0 = Some f ∧
     Run.inst r0 = Run.inst last_rerun ∧
     ∀ job, ({[ "j1" := failing_job 2 1 3600 ]} : gmap string Job.t)
              !! Inst.job_id (Run.inst r0) = Some job →
            (size (family after_scenario_3 f)
             ≤ Reruns.count (Job.reruns job) + 1)%nat) ∧
  (∀ time started new st',
     rerun 2 time started after_scenario_3 = (Ok new, st') →
     runs after_scenario_3 !! new = None ∧
     ∃ r', runs st' !! new = Some r' ∧ Run.run_id r' = new ∧
           Run.inst r' = Run.inst last_rerun ∧
           Run.rerun r' = Run.rerun last_rerun).
Proof.
  apply (rerun_family_bound {[ "j1" := failing_job 2 1 3600 ]} 1000 scenario_3 2).
  vm_compute. reflexivity.
Defined.

(** Whatever the program outcome is called on, a cancelled wait writes
    nothing: the run, its durable record and the table of running tasks
    are as before. *)
Lemma resolve_cancelled st future fu :
  futures st !! future = Some fu → fut_state fu = Pending →
  ∃ st', resolve future (Raise CancelledError) st = (Ok (), st') ∧
         runs st' = runs st ∧ run_db st' = run_db st ∧
         outputs st' = outputs st ∧ running_tasks st' = running_tasks st.
Proof.
  intros Hk Hp. unfold resolve. rewrite bind_unfold. simpl.
  rewrite Hk, Hp. rewrite bind_unfold. simpl. eexists. split; [reflexivity|done].
Qed.

(** Past the count check [__rerun] always queues the rerun: the value
    of [max_delay] decides a log line and nothing else. *)
Lemma __rerun_queues st run r job main_run sched :
  runs st !! run = Some r →
  jobs st !! Inst.job_id (Run.inst r) = Some job →
  Reruns.count (Job.reruns job) ≠ 0 →
  (size (filter (λ kr, Run.rerun kr.2 = Run.rerun r) (runs st))
   ≤ Reruns.count (Job.reruns job))%nat →
  filter (λ r', Some (Run.run_id r') = Run.rerun r)
         (map_to_list (filter (λ kr, Run.rerun kr.2 = Run.rerun r) (runs st))).*2
    = [main_run] →
  Run.times main_run !! "schedule" = Some sched →
  (__rerun run st).1 = Ok () ∧
  loop_tasks (__rerun run st).2 =
    (loop_tasks st ++ [(run, Some (clock st + Reruns.delay (Job.reruns job))%Z)])%list.
Proof.
  intros Hr Hjob Hc Hsz Hmain Hsched.
  assert (H : wpe (λ _, False) (__rerun run)
    (λ _ st', loop_tasks st' =
       (loop_tasks st ++ [(run, Some (clock st + Reruns.delay (Job.reruns job))%Z)])%list)
    st).
  { unfold __rerun. apply wp_bind, (wp_the_run_Some _ _ r); [done|].
    apply wp_bind. unfold Jobs.get_job. apply wp_bind, wp_gets. rewrite Hjob.
    apply wp_ret. case_decide; [done|].
    apply wp_bind. unfold Runs.query. apply wp_bind, wp_gets, wp_ret.
    case_decide; [lia|].
    apply wp_bind, wp_gets. apply wp_bind. rewrite Hmain. apply wp_ret.
    apply wp_bind. rewrite Hsched. apply wp_ret.
    apply wp_bind. destruct sched as [t|]; [case_decide|].
    - apply wp_log_info. by apply wp_modify.
    - apply wp_ret. by apply wp_modify.
    - apply wp_ret. by apply wp_modify. }
  unfold wpe in H. by destruct (__rerun run st) as [[[]|e] st'].
Qed.

(** *** Single operations, in full *)

Lemma for_each_outputs id outs st :
  for_each (map_to_list outs) (λ o, output_db_add id o.1 o.2) st =
    (Ok (), set_outputs (add_outputs id outs) st).
Proof.
  unfold add_outputs. generalize (map_to_list outs). intros l. revert st.
  induction l as [|o l IH]; intros st; simpl.
  - by destruct st.
  - rewrite bind_unfold. simpl. by rewrite IH.
Qed.

Lemma foldl_insert_other (id : nat) (l : list (string * string))
    (db : gmap (nat * string) string) (key : nat * string) :
  (key.1 ≠ id ∨ key.2 ∉ l.*1) →
  foldl (λ db o, <[(id, o.1) := o.2]> db) db l !! key = db !! key.
Proof.
  revert db. induction l as [|o l IH]; intros db Hk; [done|].
  simpl. rewrite IH.
  - apply lookup_insert_ne. intros <-. simpl in Hk.
    destruct Hk as [?|Hk]; [done|]. apply Hk. by left.
  - destruct Hk as [?|Hk]; [by left|]. right. intros ?. apply Hk. by right.
Qed.

Lemma foldl_insert_elem (id : nat) (l : list (string * string))
    (db : gmap (nat * string) string) (k v : string) :
  NoDup l.*1 → (k, v) ∈ l →
  foldl (λ db o, <[(id, o.1) := o.2]> db) db l !! (id, k) = Some v.
Proof.
  revert db. induction l as [|o l IH]; intros db Hnd Hin; [by apply elem_of_nil in Hin|].
  simpl in *. apply NoDup_cons in Hnd as [Ho Hnd].
  apply elem_of_cons in Hin as [<-|Hin].
  - rewrite foldl_insert_other by (by right). apply lookup_insert_eq.
  - by apply IH.
Qed.

(** The output database after a transition: the outputs of the
    transition under the id of the run, everything else as before. *)
Lemma add_outputs_lookup id outs db id' k :
  add_outputs id outs db !! (id', k) =
    if decide (id' = id)
    then match outs !! k with
         | Some v => Some v
         | None => db !! (id', k)
         end
    else db !! (id', k).
Proof.
  unfold add_outputs. case_decide as Hid.
  - subst. destruct (outs !! k) as [v|] eqn:Hk.
    + apply foldl_insert_elem; [apply NoDup_fst_map_to_list|].
      by apply elem_of_map_to_list.
    + apply foldl_insert_other. right. simpl. intros Hin.
      apply list_elem_of_fmap in Hin as ([k' v] & -> & Hin).
      apply elem_of_map_to_list in Hin. simpl in Hk. congruence.
  - apply foldl_insert_other. by left.
Qed.

Lemma wp__transition_eq E st run r state message meta times outs Q :
  runs st !! run = Some r → Run.allowed (Run.state r) state = true →
  wpe E (if decide (state = Run.STATE.failure) then __rerun run else ret ()) Q
      (transitioned st run r state message meta times outs) →
  wpe E (_transition run state message meta times outs) Q st.
Proof.
  intros Hr Hal HQ. unfold _transition. apply wp_bind, wp_gets.
  apply wp_bind, (wp_the_run_Some _ _ r); [done|].
  apply wp_bind. unfold Run._transition. rewrite Hal. apply wp_ret.
  apply wp_bind. unfold write_run. apply wp_modify.
  apply wp_bind. unfold wpe at 1. rewrite for_each_outputs.
  apply wp_bind. unfold Runs.update.
  apply wp_bind, (wp_the_run_Some _ _
    (Run.applied r (clock st) state message meta times));
    [simpl; apply lookup_insert_eq|].
  unfold transitioned in HQ. simpl.
  destruct (Run.expected r); [apply wp_ret|apply wp_modify]; exact HQ.
Qed.

Lemma wp_same_but_log_and_tasks_refl st : same_but_log_and_tasks st st.
Proof. by repeat split. Qed.

Lemma __rerun_frame (st : Apsis) (run : nat) :
  same_but_log_and_tasks st (__rerun run st).2 ∧
  (loop_tasks (__rerun run st).2 = loop_tasks st ∨
   ∃ t, loop_tasks (__rerun run st).2 = (loop_tasks st ++ [(run, Some t)])%list) ∧
  (∀ r job, runs st !! run = Some r →
            jobs st !! Inst.job_id (Run.inst r) = Some job →
            (Reruns.count (Job.reruns job) = 0 ∨
             Reruns.count (Job.reruns job)
               < size (filter (λ kr, Run.rerun kr.2 = Run.rerun r) (runs st)))%nat →
            loop_tasks (__rerun run st).2 = loop_tasks st).
Proof.
  set (P := λ st', same_but_log_and_tasks st st' ∧
    (loop_tasks st' = loop_tasks st ∨
     ∃ t, loop_tasks st' = (loop_tasks st ++ [(run, Some t)])%list) ∧
    (∀ r job, runs st !! run = Some r →
            jobs st !! Inst.job_id (Run.inst r) = Some job →
            (Reruns.count (Job.reruns job) = 0 ∨
             Reruns.count (Job.reruns job)
               < size (filter (λ kr, Run.rerun kr.2 = Run.rerun r) (runs st)))%nat →
            loop_tasks st' = loop_tasks st)).
  assert (Hsame : P st).
  { split; [apply wp_same_but_log_and_tasks_refl|]. split; [by left|done]. }
  assert (Hlog : ∀ msg, P (set_log (λ l, (l ++ [msg])%list) st)).
  { intros msg. split; [by repeat split|]. split; [by left|done]. }
  assert (H : wpe P (__rerun run) (λ _, P) st).
  { unfold __rerun. apply wp_bind, wp_the_run; [done|]. intros r Hr.
    apply wp_bind, wp_get_job; [done|]. intros job Hjob.
    case_decide as Hc; [by apply wp_ret|].
    apply wp_bind. unfold Runs.query. apply wp_bind, wp_gets, wp_ret.
    case_decide as Hsz; [by apply wp_log_info|].
    apply wp_bind, wp_gets. apply wp_bind, wp_unpack_one; [done|]. intros main_run.
    apply wp_bind.
    destruct (Run.times main_run !! "schedule") as [sched|];
      [apply wp_ret|by apply wp_raise].
    assert (Hpush : ∀ st' t, same_but_log_and_tasks st st' →
              loop_tasks st' = loop_tasks st →
              P (set_loop_tasks (λ l, (l ++ [(run, Some t)])%list) st')).
    { intros st' t Hs Hl. split; [done|]. split.
      - right. exists t. simpl. by rewrite Hl.
      - intros r0 job0 Hr0 Hjob0 Hcase. exfalso.
        assert (r0 = r) as -> by congruence.
        assert (job0 = job) as -> by congruence.
        destruct Hcase; [done|lia]. }
    apply wp_bind. destruct sched as [t|]; [case_decide|].
    - apply wp_log_info. unfold ensure_future_rerun. apply wp_modify.
      apply Hpush; [by repeat split|done].
    - apply wp_ret. apply wp_modify. apply Hpush; [by repeat split|done].
    - apply wp_ret. apply wp_modify. apply Hpush; [by repeat split|done]. }
  unfold wpe in H. by destruct (__rerun run st) as [[[]|e] st'].
Qed.

(** X14. The rerun evaluation writes nothing but the log and the queue
    of reruns.  It queues at most one rerun, of the failed run, and none
    when the policy has count 0 or when the family of the run already has
    more runs than the count. *)
Theorem __rerun_queues_at_most_one (st : Apsis) (run : nat) :
  same_but_log_and_tasks st (__rerun run st).2 ∧
  (loop_tasks (__rerun run st).2 = loop_tasks st ∨
   ∃ t, loop_tasks (__rerun run st).2 = (loop_tasks st ++ [(run, Some t)])%list) ∧
  (∀ r job, runs st !! run = Some r →
            jobs st !! Inst.job_id (Run.inst r) = Some job →
            (Reruns.count (Job.reruns job) = 0 ∨
             Reruns.count (Job.reruns job)
               < size (filter (λ kr, Run.rerun kr.2 = Run.rerun r) (runs st)))%nat →
            loop_tasks (__rerun run st).2 = loop_tasks st).
Proof. apply __rerun_frame. Qed.

Lemma the_run_eq st run r : runs st !! run = Some r → the_run run st = (Ok r, st).
Proof. intros Hr. unfold the_run. rewrite bind_unfold. simpl. by rewrite Hr. Qed.

Lemma the_run_None st run :
  runs st !! run = None → the_run run st = (Raise (KeyError (pretty run)), st).
Proof. intros Hr. unfold the_run. rewrite bind_unfold. simpl. by rewrite Hr. Qed.

Lemma _transition_eq st run r state message meta times outs :
  runs st !! run = Some r → Run.allowed (Run.state r) state = true →
  _transition run state message meta times outs st =
    (if decide (state = Run.STATE.failure) then __rerun run else ret ())
      (transitioned st run r state message meta times outs).
Proof.
  intros Hr Hal. unfold _transition. rewrite bind_unfold. unfold now, gets at 1.
  rewrite bind_unfold, (the_run_eq _ _ _ Hr).
  rewrite bind_unfold. unfold Run._transition. rewrite Hal.
  change (of_result (Ok ?a) ?s) with (Ok a, s). lazy beta iota.
  rewrite bind_unfold. unfold write_run, modify at 1.
  rewrite bind_unfold, for_each_outputs.
  rewrite bind_unfold. unfold Runs.update. rewrite bind_unfold.
  rewrite (the_run_eq _ _ (Run.applied r (clock st) state message meta times))
    by (simpl; apply lookup_insert_eq).
  unfold transitioned. simpl. by destruct (Run.expected r).
Qed.

(** A transition that is not in the state graph raises and writes
    nothing. *)
Lemma _transition_refused st run r state message meta times outs :
  runs st !! run = Some r → Run.allowed (Run.state r) state = false →
  _transition run state message meta times outs st
    = (Raise (Run.refusal (Run.state r)), st).
Proof.
  intros Hr Hal. unfold _transition. rewrite bind_unfold. unfold now, gets at 1.
  rewrite bind_unfold, (the_run_eq _ _ _ Hr).
  rewrite bind_unfold. unfold Run._transition. by rewrite Hal.
Qed.

Lemma same_but_program_refl r : same_but_program r r.
Proof. by repeat split. Qed.

Lemma same_but_program_trans r1 r2 r3 :
  same_but_program r1 r2 → same_but_program r2 r3 → same_but_program r1 r3.
Proof.
  intros (?&?&?&?&?&?&?&?) (?&?&?&?&?&?&?&?). repeat split; congruence.
Qed.



(** On a scheduled run [cancel] does what the specification says. *)
Example cancel_scheduled :
  let st := exec [ Schedule (Some 1100%Z) j1 false has_started; Tick 1 ]
                 (init {[ "j1" := failing_job 2 1 3600 ]} 1000) in
  Run.state <$> runs st !! 0 = Some Run.STATE.scheduled ∧
  scheduled st = [(1100%Z, 0)] ∧
  scheduled (cancel 0 st).2 = [] ∧
  (λ r, (Run.state r, Run.message r)) <$> runs (cancel 0 st).2 !! 0
    = Some (Run.STATE.error, Some "cancelled") ∧
  futures (cancel 0 st).2 = ∅.
Proof. vm_compute. repeat split. Qed.

(** On a run that was cancelled before, the second [cancel] is refused
    by the state graph and changes nothing; the refusal is raised, not
    returned. *)
Example cancel_twice_is_refused :
  Run.state <$> runs cancelled_once !! 0 = Some Run.STATE.error ∧
  cancel 0 cancelled_once = (Raise AlreadyTerminal, cancelled_once).
Proof. vm_compute. repeat split. Qed.


Lemma done_success_eq st run r s :
  runs st !! run = Some r → Run.state r = Run.STATE.running →
  done run (Ok s) st =
    match running_tasks st !! run with
    | Some _ =>
        (Ok (), set_running_tasks (delete run)
                  (transitioned st run r Run.STATE.success None (success_meta s)
                                (success_times s) (success_outputs s)))
    | None =>
        (Raise (KeyError (pretty run)),
         transitioned st run r Run.STATE.success None (success_meta s)
                      (success_times s) (success_outputs s))
    end.
Proof.
  intros Hr Hs. unfold done.
  rewrite bind_unfold, (_transition_eq _ _ _ _ _ _ _ _ Hr) by (by rewrite Hs).
  simpl. rewrite bind_unfold. simpl. by destruct (running_tasks st !! run).
Qed.

(** On a run that is not [running] the callback is refused by the state
    graph: it raises and writes nothing, and the entry of the run in
    [__running_tasks] stays. *)
Lemma done_success_refused st run r s :
  runs st !! run = Some r → Run.state r ≠ Run.STATE.running →
  done run (Ok s) st = (Raise (Run.refusal (Run.state r)), st).
Proof.
  intros Hr Hs. unfold done.
  rewrite bind_unfold, (_transition_refused _ _ _ _ _ _ _ _ Hr); [done|].
  by destruct (Run.state r).
Qed.

(** X15. When the program of a [running] run has ended well, the
    callback moves the run to [success], merges the meta data of the
    outcome into the run's, stores each output under the id of the run
    and its output id,
    persists the run, and takes the run out of [__running_tasks]; it
    queues no rerun and touches neither the timed queue nor a future.
    When the run has no entry in [__running_tasks] the [del] raises
    [KeyError], after the transition was written. *)
Theorem done_success (st : Apsis) (run : nat) (r : Run.t) (s : ProgramSuccess) :
  runs st !! run = Some r → Run.state r = Run.STATE.running →
  (Run.state <$> runs (done run (Ok s) st).2 !! run = Some Run.STATE.success ∧
   Run.meta <$> runs (done run (Ok s) st).2 !! run
     = Some (success_meta s ∪ Run.meta r) ∧
   (∀ id k, outputs (done run (Ok s) st).2 !! (id, k) =
      if decide (id = Run.run_id r)
      then match success_outputs s !! k with
           | Some v => Some v
           | None => outputs st !! (id, k)
           end
      else outputs st !! (id, k)) ∧
   (Run.expected r = false →
    Run.state ∘ snd <$> run_db (done run (Ok s) st).2 !! run
      = Some Run.STATE.success) ∧
   loop_tasks (done run (Ok s) st).2 = loop_tasks st ∧
   scheduled (done run (Ok s) st).2 = scheduled st ∧
   futures (done run (Ok s) st).2 = futures st) ∧
  (is_Some (running_tasks st !! run) →
   (done run (Ok s) st).1 = Ok () ∧
   running_tasks (done run (Ok s) st).2 = delete run (running_tasks st)) ∧
  (running_tasks st !! run = None →
   (done run (Ok s) st).1 = Raise (KeyError (pretty run)) ∧
   running_tasks (done run (Ok s) st).2 = running_tasks st).
Proof.
  intros Hr Hs. rewrite (done_success_eq _ _ _ _ Hr Hs).
  assert (Hout : ∀ id k,
    outputs (transitioned st run r Run.STATE.success None (success_meta s)
               (success_times s) (success_outputs s)) !! (id, k) =
      if decide (id = Run.run_id r)
      then match success_outputs s !! k with
           | Some v => Some v
           | None => outputs st !! (id, k)
           end
      else outputs st !! (id, k)).
  { intros id k. simpl. apply add_outputs_lookup. }
  split; [|split].
  - destruct (running_tasks st !! run); simpl; rewrite !lookup_insert_eq;
      (repeat split; try done); intros He; rewrite He, lookup_insert_eq; done.
  - intros [fid Hfid]. by rewrite Hfid.
  - by intros ->.
Qed.

Lemma done_success_witness :
  (Run.state <$> runs (done 0 (Ok said_hello) one_running).2 !! 0
     = Some Run.STATE.success ∧
   Run.meta <$> runs (done 0 (Ok said_hello) one_running).2 !! 0
     = Some (success_meta said_hello ∪ Run.meta first_run) ∧
   (∀ id k, outputs (done 0 (Ok said_hello) one_running).2 !! (id, k) =
      if decide (id = Run.run_id first_run)
      then match success_outputs said_hello !! k with
           | Some v => Some v
           | None => outputs one_running !! (id, k)
           end
      else outputs one_running !! (id, k)) ∧
   (Run.expected first_run = false →
    Run.state ∘ snd <$> run_db (done 0 (Ok said_hello) one_running).2 !! 0
      = Some Run.STATE.success) ∧
   loop_tasks (done 0 (Ok said_hello) one_running).2 = loop_tasks one_running ∧
   scheduled (done 0 (Ok said_hello) one_running).2 = scheduled one_running ∧
   futures (done 0 (Ok said_hello) one_running).2 = futures one_running) ∧
  (is_Some (running_tasks one_running !! 0) →
   (done 0 (Ok said_hello) one_running).1 = Ok () ∧
   running_tasks (done 0 (Ok said_hello) one_running).2
     = delete 0 (running_tasks one_running)) ∧
  (running_tasks one_running !! 0 = None →
   (done 0 (Ok said_hello) one_running).1 = Raise (KeyError (pretty 0)) ∧
   running_tasks (done 0 (Ok said_hello) one_running).2
     = running_tasks one_running).
Proof.
  apply (done_success one_running 0 first_run said_hello);
    vm_compute; reflexivity.
Defined.

Lemma done_failure_eq st run r exc :
  runs st !! run = Some r → Run.state r = Run.STATE.running →
  done run (Raise (ProgramFailure exc)) st =
    match __rerun run (transitioned st run r Run.STATE.failure
                         (Some (exc_message exc)) (exc_meta exc) (exc_times exc)
                         (exc_outputs exc)) with
    | (Ok _, st') =>
        match running_tasks st' !! run with
        | Some _ => (Ok (), set_running_tasks (delete run) st')
        | None => (Raise (KeyError (pretty run)), st')
        end
    | (Raise e, st') => (Raise e, st')
    end.
Proof.
  intros Hr Hs. unfold done.
  rewrite bind_unfold, (_transition_eq _ _ _ _ _ _ _ _ Hr) by (by rewrite Hs).
  simpl. destruct (__rerun run _) as [[[]|e] st']; [|done].
  rewrite bind_unfold. simpl. by destruct (running_tasks st' !! run).
Qed.

(** X16. When the program of a [running] run has failed, the callback
    moves the run to [failure] with the message of the exception and
    persists it before the rerun policy is looked at; it queues at most
    one rerun, of this run.  The run leaves [__running_tasks] only when the rerun
    evaluation returns: an exception raised there leaves the callback and
    the entry stays. *)
Theorem done_failure (st : Apsis) (run : nat) (r : Run.t) (exc : ProgramExc) :
  runs st !! run = Some r → Run.state r = Run.STATE.running →
  (λ r', (Run.state r', Run.message r'))
     <$> runs (done run (Raise (ProgramFailure exc)) st).2 !! run
    = Some (Run.STATE.failure, Some (exc_message exc)) ∧
  (Run.expected r = false →
   Run.state ∘ snd <$> run_db (done run (Raise (ProgramFailure exc)) st).2 !! run
     = Some Run.STATE.failure) ∧
  (loop_tasks (done run (Raise (ProgramFailure exc)) st).2 = loop_tasks st ∨
   ∃ t, loop_tasks (done run (Raise (ProgramFailure exc)) st).2
          = (loop_tasks st ++ [(run, Some t)])%list) ∧
  ((done run (Raise (ProgramFailure exc)) st).1 = Ok () →
   running_tasks (done run (Raise (ProgramFailure exc)) st).2
     = delete run (running_tasks st)) ∧
  (∀ e, (done run (Raise (ProgramFailure exc)) st).1 = Raise e →
        running_tasks (done run (Raise (ProgramFailure exc)) st).2
          = running_tasks st).
Proof.
  intros Hr Hst. rewrite (done_failure_eq _ _ _ _ Hr Hst). clear Hst.
  set (T := transitioned st run r Run.STATE.failure (Some (exc_message exc))
              (exc_meta exc) (exc_times exc) (exc_outputs exc)).
  destruct (__rerun_frame T run)
    as ((Hj & Hruns & Hs & Ho & Hrt & Hdb & Hf & _) & Hl & _).
  destruct (__rerun run T) as [[[]|e] st'] eqn:Hrr; simpl in *.
  - destruct (running_tasks st' !! run) eqn:Hk; simpl;
      rewrite Hruns, Hdb, lookup_insert_eq; (split; [done|]);
      (split; [by intros ->; rewrite lookup_insert_eq|]);
      (split; [done|]); (split; [|done]); [by rewrite Hrt|done].
  - rewrite Hruns, Hdb, lookup_insert_eq. split; [done|].
    split; [by intros ->; rewrite lookup_insert_eq|].
    split; [done|]. split; [done|]. intros e' _. done.
Qed.

Lemma done_failure_witness :
  (λ r', (Run.state r', Run.message r'))
     <$> runs (done 0 (Raise (ProgramFailure return_code_7)) one_running).2 !! 0
    = Some (Run.STATE.failure, Some (exc_message return_code_7)) ∧
  (Run.expected first_run = false →
   Run.state ∘ snd
     <$> run_db (done 0 (Raise (ProgramFailure return_code_7)) one_running).2 !! 0
     = Some Run.STATE.failure) ∧
  (loop_tasks (done 0 (Raise (ProgramFailure return_code_7)) one_running).2
     = loop_tasks one_running ∨
   ∃ t, loop_tasks (done 0 (Raise (ProgramFailure return_code_7)) one_running).2
          = (loop_tasks one_running ++ [(0, Some t)])%list) ∧
  ((done 0 (Raise (ProgramFailure return_code_7)) one_running).1 = Ok () →
   running_tasks (done 0 (Raise (ProgramFailure return_code_7)) one_running).2
     = delete 0 (running_tasks one_running)) ∧
  (∀ e, (done 0 (Raise (ProgramFailure return_code_7)) one_running).1 = Raise e →
        running_tasks (done 0 (Raise (ProgramFailure return_code_7)) one_running).2
          = running_tasks one_running).
Proof.
  apply (done_failure one_running 0 first_run return_code_7);
    vm_compute; reflexivity.
Defined.

(** [__start] up to the outcome of the program start: the program is
    bound if the run has none. *)
Lemma bind_program_eq st run r :
  runs st !! run = Some r →
  (is_Some (Run.program r) ∨ is_Some (jobs st !! Inst.job_id (Run.inst r))) →
  ∃ r1, same_but_program r r1 ∧
        (is_Some (Run.program r) → r1 = r) ∧
        ∀ started,
          __start run started st =
            match started with
            | Raise (ProgramError exc) =>
                _transition run Run.STATE.error (Some (exc_message exc))
                            (exc_meta exc) (exc_times exc) (exc_outputs exc)
                            (set_runs (insert run r1) st)
            | Raise e => (Raise e, set_runs (insert run r1) st)
            | Ok running =>
                (_transition run Run.STATE.running None
                             (running_meta running) (running_times running) ∅;;
                 future ← ensure_future run;
                 __wait run future) (set_runs (insert run r1) st)
            end.
Proof.
  intros Hr Hcase. destruct (Run.program r) as [p|] eqn:Hp.
  - exists r. split; [apply same_but_program_refl|]. split; [done|]. intros started.
    unfold __start. rewrite bind_unfold, (the_run_eq _ _ _ Hr), Hp.
    rewrite bind_unfold. simpl.
    replace (set_runs (insert run r) st) with st; [by destruct started as [|[]]|].
    destruct st. unfold set_runs. simpl in *. f_equal. symmetry. by apply insert_id.
  - destruct Hcase as [[? ?]|[job Hjob]]; [done|].
    eexists (Run.set_program r _). split; [by repeat split|]. split; [done|].
    intros started.
    unfold __start. rewrite bind_unfold, (the_run_eq _ _ _ Hr), Hp.
    rewrite bind_unfold. rewrite bind_unfold. unfold __get_program.
    rewrite bind_unfold, (the_run_eq _ _ _ Hr). rewrite bind_unfold.
    unfold Jobs.get_job. rewrite bind_unfold. simpl. rewrite Hjob. simpl.
    by destruct started as [|[]].
Qed.

Lemma __start_cases st run r started :
  runs st !! run = Some r →
  (is_Some (Run.program r) ∨ is_Some (jobs st !! Inst.job_id (Run.inst r))) →
  scheduled (__start run started st).2 = scheduled st ∧
  loop_tasks (__start run started st).2 = loop_tasks st ∧
  started_as st run r started (__start run started st).
Proof.
  intros Hr Hcase.
  destruct (bind_program_eq st run r Hr Hcase)
    as (r1 & (_ & _ & _ & _ & Hst & _ & Hme & _) & _ & Heq).
  rewrite Heq. clear Heq.
  assert (Hr1 : runs (set_runs (insert run r1) st) !! run = Some r1)
    by (simpl; apply lookup_insert_eq).
  unfold started_as, started_ok, left_as. destruct started as [running|e].
  - destruct (Run.allowed (Run.state r) Run.STATE.running) eqn:Hal.
    + rewrite bind_unfold, (_transition_eq _ _ _ _ _ _ _ _ Hr1)
        by (by rewrite Hst).
      simpl. rewrite !lookup_insert_eq. simpl. by rewrite Hme.
    + rewrite bind_unfold, (_transition_refused _ _ _ _ _ _ _ _ Hr1)
        by (by rewrite Hst).
      simpl. rewrite lookup_insert_eq. simpl. by rewrite Hst.
  - destruct e; simpl; rewrite ?lookup_insert_eq; simpl; rewrite ?Hst; try done.
    destruct (Run.allowed (Run.state r) Run.STATE.error) eqn:Hal.
    + rewrite (_transition_eq _ _ _ _ _ _ _ _ Hr1) by (by rewrite Hst).
      simpl. by rewrite !lookup_insert_eq.
    + rewrite (_transition_refused _ _ _ _ _ _ _ _ Hr1) by (by rewrite Hst).
      simpl. rewrite lookup_insert_eq. simpl. by rewrite Hst.
Qed.

Lemma started_as_ok st run r started res :
  Run.state r = Run.STATE.new ∨ Run.state r = Run.STATE.scheduled →
  started_as st run r started res → started_ok st run r started res.
Proof.
  unfold started_as. intros [Hs|Hs]; rewrite Hs; by destruct started as [|[]].
Qed.

(** X17. [start(run)] on a [scheduled] run of the table whose program
    is bound or whose job is in the catalog.  The run leaves the timed
    queue whatever happens next.  If the program starts, the run is
    [running] with the meta data of the program merged into its own, and
    one new pending future for it is registered in [__running_tasks].
    If the program raises [ProgramError], the call returns normally, the
    run is in state [error] with the message of the exception and no
    future is created.  Any other exception leaves [start]: the run
    keeps its state, nothing is persisted and no future is created, but
    the run is out of the queue all the same. *)
Theorem start_outcomes st run r started :
  runs st !! run = Some r → Run.state r = Run.STATE.scheduled →
  (is_Some (Run.program r) ∨ is_Some (jobs st !! Inst.job_id (Run.inst r))) →
  scheduled (start run started st).2 = filter (λ e, e.2 ≠ run) (scheduled st) ∧
  started_ok st run r started (start run started st).
Proof.
  intros Hr Hst Hcase.
  set (S0 := set_scheduled (filter (λ e, e.2 ≠ run)) st).
  change (start run started st) with (__start run started S0).
  destruct (__start_cases S0 run r started Hr Hcase) as (Hq & _ & Hs).
  split; [done|]. apply (started_as_ok S0); [by right|done].
Qed.

Lemma start_outcomes_witness :
  scheduled (start 0 has_started one_scheduled).2 = [] ∧
  (start 0 has_started one_scheduled).1 = Ok () ∧
  Run.state <$> runs (start 0 has_started one_scheduled).2 !! 0
    = Some Run.STATE.running.
Proof.
  pose proof (start_outcomes one_scheduled 0 scheduled_run has_started
                ltac:(vm_compute; reflexivity)
                ltac:(vm_compute; reflexivity)
                ltac:(right; vm_compute; eexists; reflexivity)) as H.
  destruct H as (Hq & Hok & Hs & _).
  split; [|split; [exact Hok|exact Hs]].
  etransitivity; [exact Hq|]. vm_compute. reflexivity.
Defined.

Lemma Runs_add_eq st r :
  runs st !! Run.run_id r = None →
  Runs.add r st = (Ok (), set_runs (insert (Run.run_id r) r) st).
Proof. intros Hnew. unfold Runs.add. rewrite bind_unfold. simpl. by rewrite Hnew. Qed.

(** X18. [schedule(time, run)] with a time.  A run whose id is in the
    table already is refused with the engine untouched.  A new run, in
    state [new] as the constructor makes it, is added to the table,
    waits in the timed queue under the given time, is in state
    [scheduled] with [times["schedule"]] set to that time, and is
    persisted unless it is an expected run.  The program is not
    started: no future is created and [__running_tasks] is as before.
    A run handed in in another state is added and queued as well, but
    the state graph refuses the transition: the refusal leaves
    [schedule] as an exception, and the run is as it was handed in and
    has no durable record. *)
Theorem schedule_with_time st t run started :
  match runs st !! Run.run_id run with
  | Some _ => schedule (Some t) run started st = (Raise DuplicateRun, st)
  | None =>
      if decide (Run.state run = Run.STATE.new) then
        (schedule (Some t) run started st).1 = Ok () ∧
        (t, Run.run_id run) ∈ scheduled (schedule (Some t) run started st).2 ∧
        (∃ r', runs (schedule (Some t) run started st).2 !! Run.run_id run = Some r' ∧
               Run.state r' = Run.STATE.scheduled ∧
               Run.times r' !! "schedule" = Some (Some t) ∧
               Run.program r' = Run.program run ∧
               run_db (schedule (Some t) run started st).2 !! Run.run_id run
                 = if Run.expected run then run_db st !! Run.run_id run
                   else Some (clock st, r')) ∧
        futures (schedule (Some t) run started st).2 = futures st ∧
        running_tasks (schedule (Some t) run started st).2 = running_tasks st ∧
        loop_tasks (schedule (Some t) run started st).2 = loop_tasks st
      else
        (schedule (Some t) run started st).1
          = Raise (Run.refusal (Run.state run)) ∧
        (t, Run.run_id run) ∈ scheduled (schedule (Some t) run started st).2 ∧
        runs (schedule (Some t) run started st).2 !! Run.run_id run = Some run ∧
        run_db (schedule (Some t) run started st).2 = run_db st ∧
        futures (schedule (Some t) run started st).2 = futures st ∧
        running_tasks (schedule (Some t) run started st).2 = running_tasks st ∧
        loop_tasks (schedule (Some t) run started st).2 = loop_tasks st
  end.
Proof.
  destruct (runs st !! Run.run_id run) as [r0|] eqn:Hnew.
  { unfold schedule, Runs.add. rewrite !bind_unfold. simpl. by rewrite Hnew. }
  set (S1 := set_scheduled
               (λ q, if decide ((t, Run.run_id run) ∈ q) then q
                     else (q ++ [(t, Run.run_id run)])%list)
               (set_runs (insert (Run.run_id run) run) st)).
  assert (Hstep : schedule (Some t) run started st =
                  _transition (Run.run_id run) Run.STATE.scheduled None ∅
                              {[ "schedule" := Some t ]} ∅ S1).
  { unfold schedule. by rewrite bind_unfold, (Runs_add_eq _ _ Hnew), bind_unfold. }
  assert (Hr1 : runs S1 !! Run.run_id run = Some run)
    by (simpl; apply lookup_insert_eq).
  assert (Hin : (t, Run.run_id run) ∈ scheduled S1).
  { simpl. case_decide; [done|]. apply elem_of_app. right.
    by apply list_elem_of_singleton. }
  rewrite Hstep. case_decide as Hs.
  - rewrite (_transition_eq S1 _ run) by (by rewrite ?Hs).
    simpl. rewrite !lookup_insert_eq. split_and!; try done.
    eexists. split_and!; try done.
    + simpl. apply lookup_union_Some_l, lookup_singleton_eq.
    + destruct (Run.expected run); [done|]. by rewrite lookup_insert_eq.
  - rewrite (_transition_refused S1 _ run) by (by destruct (Run.state run)).
    by split_and!.
Qed.

(** X19. [schedule(None, run)] with a new run whose program is bound or
    whose job is in the catalog: the run is added to the table and
    started at once, and it never enters the timed queue.  When the
    program start raises anything but [ProgramError], the exception
    leaves [schedule] and the run stays in the table in the state it had,
    without a durable record.  The same holds of a run handed in in a
    state from which the state graph does not lead on: the refusal
    leaves [schedule]. *)
Theorem schedule_now st run started :
  runs st !! Run.run_id run = None →
  (is_Some (Run.program run) ∨ is_Some (jobs st !! Inst.job_id (Run.inst run))) →
  scheduled (schedule None run started st).2 = scheduled st ∧
  started_as st (Run.run_id run) run started (schedule None run started st).
Proof.
  intros Hnew Hcase. unfold schedule.
  rewrite bind_unfold, (Runs_add_eq _ _ Hnew).
  set (S0 := set_runs (insert (Run.run_id run) run) st).
  destruct (__start_cases S0 (Run.run_id run) run started) as (Hq & _ & Hs);
    [simpl; apply lookup_insert_eq|done|].
  by split.
Qed.

Lemma schedule_now_witness :
  scheduled (schedule None (Run.init 0 j1 None false) has_started
               (init {[ "j1" := failing_job 2 1 3600 ]} 1000)).2 = [] ∧
  (schedule None (Run.init 0 j1 None false) has_started
     (init {[ "j1" := failing_job 2 1 3600 ]} 1000)).1 = Ok ().
Proof.
  pose proof (schedule_now (init {[ "j1" := failing_job 2 1 3600 ]} 1000)
                (Run.init 0 j1 None false) has_started
                ltac:(vm_compute; reflexivity)
                ltac:(right; vm_compute; eexists; reflexivity)) as H.
  destruct H as (Hq & Hok & _). split; [exact Hq|exact Hok].
Defined.

Lemma same_but_cancelled_refl st : same_but_cancelled st st.
Proof. unfold same_but_cancelled. repeat split; try done. by left. Qed.

Lemma same_but_cancelled_trans st1 st2 st3 :
  same_but_cancelled st1 st2 → same_but_cancelled st2 st3 →
  same_but_cancelled st1 st3.
Proof.
  intros (H1 & H2 & H3 & H4 & H5 & H6 & H7 & H8 & H9 & H10 & Hf)
         (K1 & K2 & K3 & K4 & K5 & K6 & K7 & K8 & K9 & K10 & Kf).
  unfold same_but_cancelled. repeat split; try congruence.
  intros fid. destruct (Hf fid) as [Hs|(fu & Hfu & Hp & Hc)].
  - rewrite <- Hs. apply Kf.
  - right. exists fu. repeat split; try done.
    destruct (Kf fid) as [Ks|(fu' & Hfu' & Hp' & _)]; [congruence|].
    rewrite Hc in Hfu'. by simplify_eq.
Qed.

Lemma same_but_cancelled_log st f : same_but_cancelled st (set_log f st).
Proof. unfold same_but_cancelled. repeat split; try done. by left. Qed.

Lemma await_task_eq run task st :
  await_task run task st =
    match fut_state <$> futures st !! task with
    | Some (Resolved (Raise CancelledError)) =>
        log_info ("task for " ++ pretty run ++ " canceled successfully") st
    | Some (Resolved (Raise e)) => (Raise e, st)
    | _ => (Ok (), st)
    end.
Proof.
  unfold await_task, await. rewrite bind_unfold. simpl.
  by destruct (futures st !! task) as [[? [|[|[]]]]|].
Qed.

(** One round of the loop of [shut_down]. *)
Lemma shut_down_body st run task :
  same_but_cancelled st ((cancel_task run task;; await_task run task) st).2 ∧
  match ((cancel_task run task;; await_task run task) st).1 with
  | Ok _ =>
      ∀ fu, futures ((cancel_task run task;; await_task run task) st).2 !! task
              = Some fu → fut_state fu ≠ Pending
  | Raise e =>
      e ≠ CancelledError ∧
      ∃ fu, futures st !! task = Some fu ∧ fut_state fu = Resolved (Raise e)
  end.
Proof.
  destruct ((cancel_task run task;; await_task run task) st) as [res s'] eqn:Heq.
  rewrite bind_unfold in Heq. unfold cancel_task in Heq.
  rewrite bind_unfold in Heq. unfold gets at 1 in Heq. lazy beta iota in Heq.
  destruct (futures st !! task) as [[fr [|[v|e]]]|] eqn:Hf.
  - simpl in Heq. rewrite bind_unfold in Heq. simpl in Heq.
    unfold resolve in Heq. rewrite bind_unfold in Heq. simpl in Heq.
    rewrite Hf in Heq. simpl in Heq. rewrite await_task_eq in Heq.
    simpl in Heq. rewrite lookup_insert_eq in Heq. simpl in Heq.
    injection Heq as <- <-. simpl. split.
    + unfold same_but_cancelled. simpl. repeat split; try done.
      intros fid. destruct (decide (fid = task)) as [->|Hne].
      * right. eexists. split; [done|]. split; [done|]. by rewrite lookup_insert_eq.
      * left. by rewrite lookup_insert_ne.
    + intros fu. rewrite lookup_insert_eq. by intros [= <-].
  - simpl in Heq. rewrite bind_unfold in Heq. simpl in Heq.
    unfold resolve in Heq. rewrite bind_unfold in Heq. simpl in Heq.
    rewrite Hf in Heq. simpl in Heq. rewrite await_task_eq in Heq.
    simpl in Heq. rewrite Hf in Heq. simpl in Heq.
    injection Heq as <- <-. simpl. split; [apply same_but_cancelled_log|].
    rewrite Hf. by intros fu [= <-].
  - destruct e; simpl in Heq;
      try (rewrite bind_unfold in Heq; simpl in Heq;
           unfold resolve in Heq; rewrite bind_unfold in Heq; simpl in Heq;
           rewrite Hf in Heq; simpl in Heq);
      rewrite await_task_eq in Heq; simpl in Heq; rewrite Hf in Heq;
      simpl in Heq; injection Heq as <- <-; simpl;
      (split; [unfold same_but_cancelled; simpl; repeat split; try done; by left|]); try (split; [done|by eexists]).
    rewrite Hf. by intros fu [= <-].
  - simpl in Heq. rewrite bind_unfold in Heq. simpl in Heq.
    unfold resolve in Heq. rewrite bind_unfold in Heq. simpl in Heq.
    rewrite Hf in Heq. simpl in Heq. rewrite await_task_eq in Heq.
    simpl in Heq. rewrite Hf in Heq. simpl in Heq.
    injection Heq as <- <-. simpl. split; [apply same_but_cancelled_log|].
    by rewrite Hf.
Qed.

Lemma same_but_cancelled_not_pending st st' task fu fu' :
  same_but_cancelled st st' → futures st !! task = Some fu →
  fut_state fu ≠ Pending → futures st' !! task = Some fu' →
  fut_state fu' ≠ Pending.
Proof.
  intros (_ & _ & _ & _ & _ & _ & _ & _ & _ & _ & Hf) Hfu Hp Hfu'.
  destruct (Hf task) as [Hs|(fu0 & Hfu0 & Hp0 & _)]; [|congruence].
  rewrite Hs, Hfu in Hfu'. by simplify_eq.
Qed.

Lemma shut_down_loop l st :
  same_but_cancelled st
    (for_each l (λ entry, cancel_task entry.1 entry.2;;
                          await_task entry.1 entry.2) st).2 ∧
  match (for_each l (λ entry, cancel_task entry.1 entry.2;;
                              await_task entry.1 entry.2) st).1 with
  | Ok _ =>
      ∀ run task fu, (run, task) ∈ l →
        futures (for_each l (λ entry, cancel_task entry.1 entry.2;;
                                      await_task entry.1 entry.2) st).2 !! task
          = Some fu →
        fut_state fu ≠ Pending
  | Raise e =>
      e ≠ CancelledError ∧
      ∃ run task fu, (run, task) ∈ l ∧ futures st !! task = Some fu ∧
                     fut_state fu = Resolved (Raise e)
  end.
Proof.
  revert st. induction l as [|[run task] l IH]; intros st.
  - simpl. split; [apply same_but_cancelled_refl|].
    intros ? ? ? Hin. by apply elem_of_nil in Hin.
  - cbn [for_each]. rewrite bind_unfold.
    pose proof (shut_down_body st run task) as [Hb1 Hb2]. cbn [fst snd].
    destruct ((cancel_task run task;; await_task run task) st)
      as [[[]|e] s1] eqn:Hbody; cbn [fst snd] in *.
    + destruct (IH s1) as [H1 H2].
      split; [by eapply same_but_cancelled_trans|].
      destruct (for_each l _ s1) as [[[]|e] s2]; cbn [fst snd] in *.
      * intros run' task' fu Hin Hfu.
        apply elem_of_cons in Hin as [[= -> ->]|Hin]; [|by eapply H2].
        destruct (futures s1 !! task) as [fu1|] eqn:Hfu1.
        -- by eapply same_but_cancelled_not_pending, Hfu; [| |apply Hb2].
        -- destruct H1 as (_ & _ & _ & _ & _ & _ & _ & _ & _ & _ & Hf).
           destruct (Hf task) as [Hs|(fu0 & Hfu0 & _)]; congruence.
      * destruct H2 as (Hne & run' & task' & fu & Hin & Hfu & Hst).
        split; [done|]. exists run', task'.
        destruct Hb1 as (_ & _ & _ & _ & _ & _ & _ & _ & _ & _ & Hf).
        destruct (Hf task') as [Hs|(fu0 & Hfu0 & _ & Hc)].
        -- exists fu. rewrite <- Hs. split; [by apply elem_of_cons; right|done].
        -- rewrite Hc in Hfu. simplify_eq. simpl in Hst. by simplify_eq.
    + destruct Hb2 as (Hne & fu & Hfu & Hst). split; [done|]. split; [done|].
      exists run, task, fu. split; [apply elem_of_cons; by left|done].
Qed.

Lemma shut_down_body_loop_stopped st run task :
  loop_stopped ((cancel_task run task;; await_task run task) st).2
  = loop_stopped st.
Proof.
  destruct ((cancel_task run task;; await_task run task) st) as [res s'] eqn:Heq.
  rewrite bind_unfold in Heq. unfold cancel_task in Heq.
  rewrite bind_unfold in Heq. unfold gets at 1 in Heq. lazy beta iota in Heq.
  destruct (futures st !! task) as [[fr [|[v|e]]]|] eqn:Hf.
  - simpl in Heq. rewrite bind_unfold in Heq. simpl in Heq.
    unfold resolve in Heq. rewrite bind_unfold in Heq. simpl in Heq.
    rewrite Hf in Heq. simpl in Heq. rewrite await_task_eq in Heq.
    simpl in Heq. rewrite lookup_insert_eq in Heq. simpl in Heq.
    by injection Heq as <- <-.
  - simpl in Heq. rewrite bind_unfold in Heq. simpl in Heq.
    unfold resolve in Heq. rewrite bind_unfold in Heq. simpl in Heq.
    rewrite Hf in Heq. simpl in Heq. rewrite await_task_eq in Heq.
    simpl in Heq. rewrite Hf in Heq. simpl in Heq.
    by injection Heq as <- <-.
  - destruct e; simpl in Heq;
      try (rewrite bind_unfold in Heq; simpl in Heq;
           unfold resolve in Heq; rewrite bind_unfold in Heq; simpl in Heq;
           rewrite Hf in Heq; simpl in Heq);
      rewrite await_task_eq in Heq; simpl in Heq; rewrite Hf in Heq;
      simpl in Heq; by injection Heq as <- <-.
  - simpl in Heq. rewrite bind_unfold in Heq. simpl in Heq.
    unfold resolve in Heq. rewrite bind_unfold in Heq. simpl in Heq.
    rewrite Hf in Heq. simpl in Heq. rewrite await_task_eq in Heq.
    simpl in Heq. rewrite Hf in Heq. simpl in Heq.
    by injection Heq as <- <-.
Qed.

Lemma shut_down_loop_stopped l st :
  loop_stopped (for_each l (λ entry, cancel_task entry.1 entry.2;;
                                     await_task entry.1 entry.2) st).2
  = loop_stopped st.
Proof.
  revert st. induction l as [|[run task] l IH]; intros st; [done|].
  cbn [for_each]. rewrite bind_unfold.
  pose proof (shut_down_body_loop_stopped st run task) as Hb. cbn [fst snd].
  destruct ((cancel_task run task;; await_task run task) st)
    as [[[]|e] s1]; cbn [fst snd] in *; [|done].
  by rewrite IH.
Qed.

Lemma shut_down_spec scheduler st :
  same_but_cancelled st (shut_down scheduler st).2 ∧
  match (shut_down scheduler st).1 with
  | Ok _ =>
      loop_stopped (shut_down scheduler st).2 = true ∧
      (scheduler = Ok () ∨ scheduler = Raise CancelledError) ∧
      ∀ run task fu, running_tasks st !! run = Some task →
        futures (shut_down scheduler st).2 !! task = Some fu →
        fut_state fu ≠ Pending
  | Raise e =>
      e ≠ CancelledError ∧
      loop_stopped (shut_down scheduler st).2 = loop_stopped st ∧
      ((∃ run task fu, running_tasks st !! run = Some task ∧
                       futures st !! task = Some fu ∧
                       fut_state fu = Resolved (Raise e)) ∨
       (scheduler = Raise e ∧
        ∀ run task fu, running_tasks st !! run = Some task →
          futures (shut_down scheduler st).2 !! task = Some fu →
          fut_state fu ≠ Pending))
  end.
Proof.
  set (S0 := set_log (λ l, (l ++ ["shutting down"])%list) st).
  pose proof (shut_down_loop (map_to_list (running_tasks st)) S0) as [H1 H2].
  pose proof (shut_down_loop_stopped (map_to_list (running_tasks st)) S0) as Hls.
  change (loop_stopped S0) with (loop_stopped st) in Hls.
  assert (Heq : shut_down scheduler st =
                match for_each (map_to_list (running_tasks st))
                        (λ entry, cancel_task entry.1 entry.2;;
                                  await_task entry.1 entry.2) S0 with
                | (Ok _, s) =>
                    match scheduler with
                    | Ok _ =>
                        (Ok (), set_loop_stopped (λ _, true)
                                  (set_log (λ l, (l ++ ["done shutting down"])%list) s))
                    | Raise CancelledError =>
                        (Ok (), set_loop_stopped (λ _, true)
                                  (set_log (λ l, (l ++ ["done shutting down"])%list)
                                     (set_log (λ l, (l ++ ["scheduler canceled"])%list) s)))
                    | Raise e => (Raise e, s)
                    end
                | (Raise e, s) => (Raise e, s)
                end).
  { unfold shut_down. rewrite bind_unfold. change (log_info _ st) with (Ok (), S0).
    lazy beta iota. rewrite bind_unfold. unfold gets at 1. lazy beta iota.
    rewrite bind_unfold. change (running_tasks S0) with (running_tasks st).
    destruct (for_each _ _ S0) as [[[]|e] s]; [|done].
    rewrite bind_unfold. destruct scheduler as [[]|e]; [done|]. by destruct e. }
  rewrite Heq. clear Heq.
  assert (H0 : same_but_cancelled st S0) by apply same_but_cancelled_log.
  assert (Hframe : ∀ s s', same_but_cancelled st s →
            jobs s' = jobs s → runs s' = runs s → scheduled s' = scheduled s →
            outputs s' = outputs s → running_tasks s' = running_tasks s →
            run_db s' = run_db s → loop_tasks s' = loop_tasks s →
            next_run_id s' = next_run_id s → next_future s' = next_future s →
            clock s' = clock s → futures s' = futures s →
            same_but_cancelled st s').
  { intros s s' Hs E1 E2 E3 E4 E5 E6 E7 E8 E9 E10 E11.
    eapply same_but_cancelled_trans; [exact Hs|].
    unfold same_but_cancelled. split_and!; try done. intros fid. left.
    by rewrite E11. }
  destruct (for_each _ _ S0) as [[[]|e] s]; cbn [fst snd] in *.
  - assert (Hs : same_but_cancelled st s)
      by (eapply same_but_cancelled_trans; [exact H0|exact H1]).
    assert (Hfut : ∀ s', futures s' = futures s →
              ∀ run task fu, running_tasks st !! run = Some task →
                futures s' !! task = Some fu → fut_state fu ≠ Pending).
    { intros s' Hf run task fu Hrun. rewrite Hf. apply (H2 run task fu).
      by apply elem_of_map_to_list. }
    destruct scheduler as [[]|e].
    + split; [by apply (Hframe s)|]. cbn [fst snd].
      split; [done|]. split; [by left|]. by apply Hfut.
    + destruct e; cbn [fst snd];
        try (split; [exact Hs|]; split; [done|]; split; [exact Hls|];
             right; split; [done|]; by apply Hfut).
      split; [by apply (Hframe s)|]. split; [done|]. split; [by right|].
      by apply Hfut.
  - split; [eapply same_but_cancelled_trans; [exact H0|exact H1]|].
    destruct H2 as (Hne & run & task & fu & Hin & Hfu & Hst).
    split; [done|]. split; [exact Hls|].
    left. exists run, task, fu. by apply elem_of_map_to_list in Hin.
Qed.


(** *** The bookkeeping invariant *)

(** The run object of [run] is replaced, or a new one is added. *)
Lemma SInv_run_update st st' run r' :
  SInv st →
  runs st' = <[run := r']> (runs st) →
  futures st' = futures st → next_future st' = next_future st →
  running_tasks st' = running_tasks st →
  (∀ fid fu, futures st !! fid = Some fu → fut_run fu = run →
             Run.state r' ≠ Run.STATE.new ∧ Run.state r' ≠ Run.STATE.scheduled) →
  NoDup (scheduled st').*2 →
  (∀ t id, (t, id) ∈ scheduled st' →
           if decide (id = run)
           then Run.state r' = Run.STATE.scheduled ∧
                Run.times r' !! "schedule" = Some (Some t)
           else (t, id) ∈ scheduled st) →
  (∀ id, id ≠ run → run_db st' !! id = run_db st !! id) →
  (∀ t rr, run_db st' !! run = Some (t, rr) →
           Run.expected r' = false ∧ same_but_program rr r') →
  (Run.expected r' = false → Run.state r' ≠ Run.STATE.new →
   is_Some (run_db st' !! run)) →
  SInv st'.
Proof.
  intros HI Hruns Hfut Hnf Hrt Hfr Hnd Hq Hdb1 Hdb2 Hdb3. constructor.
  - intros t id Hin. specialize (Hq t id Hin). rewrite Hruns.
    case_decide as Hid.
    + subst. exists r'. by rewrite lookup_insert_eq.
    + rewrite lookup_insert_ne by done. by apply (s_queue _ HI).
  - done.
  - intros fid fu Hfu. rewrite Hfut in Hfu. rewrite Hnf, Hruns.
    destruct (s_future _ HI _ _ Hfu) as [Hlt Hr]. split; [done|].
    destruct (decide (fut_run fu = run)) as [Hid|Hid].
    + rewrite Hid, lookup_insert_eq. exists r'. split; [done|]. by eapply Hfr.
    + by rewrite lookup_insert_ne.
  - rewrite Hfut. apply (s_one _ HI).
  - rewrite Hfut, Hrt. apply (s_registered _ HI).
  - rewrite Hfut, Hrt. apply (s_task _ HI).
  - intros id t r Hrec. rewrite Hruns. destruct (decide (id = run)) as [->|Hid].
    + rewrite lookup_insert_eq. exists r'. split; [done|]. by eapply Hdb2.
    + rewrite lookup_insert_ne by done. rewrite Hdb1 in Hrec by done.
      by apply (s_durable _ HI) in Hrec.
  - intros id r Hr He Hs. rewrite Hruns in Hr.
    destruct (decide (id = run)) as [->|Hid].
    + rewrite lookup_insert_eq in Hr. simplify_eq. by apply Hdb3.
    + rewrite lookup_insert_ne in Hr by done. rewrite Hdb1 by done.
      by eapply (s_persisted _ HI).
Qed.

(** The run table and the run database stay; the queue shrinks, futures
    resolve, entries leave [__running_tasks]. *)
Lemma SInv_frame st st' :
  SInv st →
  runs st' = runs st → run_db st' = run_db st →
  next_future st' = next_future st →
  sublist (scheduled st') (scheduled st) →
  (∀ fid fu', futures st' !! fid = Some fu' →
     ∃ fu, futures st !! fid = Some fu ∧ fut_run fu = fut_run fu' ∧
           (fut_state fu' = Pending → fut_state fu = Pending)) →
  (∀ fid fu, futures st !! fid = Some fu →
     ∃ fu', futures st' !! fid = Some fu' ∧ fut_run fu' = fut_run fu) →
  (∀ run fid, running_tasks st' !! run = Some fid →
              running_tasks st !! run = Some fid) →
  (∀ fid fu, futures st' !! fid = Some fu → fut_state fu = Pending →
             running_tasks st !! fut_run fu = Some fid →
             running_tasks st' !! fut_run fu = Some fid) →
  SInv st'.
Proof.
  intros HI Hruns Hdb Hnf Hsub Hf1 Hf2 Hrt1 Hrt2. constructor.
  - intros t id Hin. rewrite Hruns. apply (s_queue _ HI).
    by eapply elem_of_sublist.
  - eapply sublist_NoDup; [apply (s_once _ HI)|]. by apply fmap_sublist.
  - intros fid fu' Hfu'. destruct (Hf1 _ _ Hfu') as (fu & Hfu & Hrun & _).
    rewrite Hnf, Hruns, <- Hrun. by apply (s_future _ HI) in Hfu.
  - intros fid fid' fu1 fu2 H1 H2 Heq.
    destruct (Hf1 _ _ H1) as (fu1' & H1' & Hrun1 & _).
    destruct (Hf1 _ _ H2) as (fu2' & H2' & Hrun2 & _).
    apply (s_one _ HI _ _ _ _ H1' H2'). congruence.
  - intros fid fu' Hfu' Hp. destruct (Hf1 _ _ Hfu') as (fu & Hfu & Hrun & Hp').
    apply Hrt2; [done..|]. rewrite <- Hrun. by apply (s_registered _ HI); [|apply Hp'].
  - intros run fid Hrt. apply Hrt1 in Hrt.
    destruct (s_task _ HI _ _ Hrt) as (fu & Hfu & Hrun).
    destruct (Hf2 _ _ Hfu) as (fu' & Hfu' & Hrun'). exists fu'. split; congruence.
  - rewrite Hruns, Hdb. apply (s_durable _ HI).
  - rewrite Hruns, Hdb. apply (s_persisted _ HI).
Qed.

(** Nothing the invariant looks at has changed. *)
Lemma SInv_same st st' :
  SInv st →
  runs st' = runs st → run_db st' = run_db st →
  next_future st' = next_future st → scheduled st' = scheduled st →
  futures st' = futures st → running_tasks st' = running_tasks st →
  SInv st'.
Proof.
  intros HI Hruns Hdb Hnf Hq Hf Hrt.
  apply (SInv_frame st); try done.
  - by rewrite Hq.
  - intros fid fu Hfu. rewrite Hf in Hfu. by exists fu.
  - intros fid fu Hfu. rewrite Hf. by exists fu.
  - by rewrite Hrt.
  - by rewrite Hrt.
Qed.

(** [ensure_future] and [__wait]: the run gets its future. *)
Lemma SInv_wait st run r :
  SInv st → runs st !! run = Some r →
  Run.state r ≠ Run.STATE.new → Run.state r ≠ Run.STATE.scheduled →
  (∀ fid fu, futures st !! fid = Some fu → fut_run fu ≠ run) →
  SInv (set_running_tasks (insert run (next_future st))
          (set_futures (insert (next_future st)
                          {| fut_run := run; fut_state := Pending |})
             (set_next_future S st))).
Proof.
  intros HI Hr Hn Hs Hno.
  assert (Hfresh : futures st !! next_future st = None).
  { destruct (futures st !! next_future st) as [fu|] eqn:Hfu; [|done].
    apply (s_future _ HI) in Hfu as [Hlt _]. lia. }
  constructor; simpl.
  - apply (s_queue _ HI).
  - apply (s_once _ HI).
  - intros fid fu Hfu. destruct (decide (fid = next_future st)) as [->|Hne].
    + rewrite lookup_insert_eq in Hfu. simplify_eq. simpl. split; [lia|by exists r].
    + rewrite lookup_insert_ne in Hfu by done.
      apply (s_future _ HI) in Hfu as [Hlt Hfu]. split; [lia|done].
  - intros fid fid' fu fu' Hfu Hfu' Heq.
    destruct (decide (fid = next_future st)) as [->|Hne];
      destruct (decide (fid' = next_future st)) as [->|Hne']; [done| | |].
    + rewrite lookup_insert_eq in Hfu. rewrite lookup_insert_ne in Hfu' by done.
      simplify_eq. simpl in Heq. by destruct (Hno _ _ Hfu').
    + rewrite lookup_insert_eq in Hfu'. rewrite lookup_insert_ne in Hfu by done.
      simplify_eq. simpl in Heq. by destruct (Hno _ _ Hfu).
    + rewrite lookup_insert_ne in Hfu, Hfu' by done. by eapply (s_one _ HI).
  - intros fid fu Hfu Hp. destruct (decide (fid = next_future st)) as [->|Hne].
    + rewrite lookup_insert_eq in Hfu. simplify_eq. simpl. apply lookup_insert_eq.
    + rewrite lookup_insert_ne in Hfu by done.
      rewrite lookup_insert_ne by (intros Heq; by apply (Hno _ _ Hfu)).
      by apply (s_registered _ HI).
  - intros run' fid Hrt. destruct (decide (run' = run)) as [->|Hne].
    + rewrite lookup_insert_eq in Hrt. simplify_eq.
      rewrite lookup_insert_eq. by eexists.
    + rewrite lookup_insert_ne in Hrt by done.
      destruct (s_task _ HI _ _ Hrt) as (fu & Hfu & Hrun).
      exists fu. split; [|done]. rewrite lookup_insert_ne; [done|].
      intros <-. congruence.
  - apply (s_durable _ HI).
  - apply (s_persisted _ HI).
Qed.

Lemma init_SInv J t0 : SInv (init J t0).
Proof.
  constructor; simpl; try done.
  - intros t id Hin. by apply elem_of_nil in Hin.
  - constructor.
Qed.

Lemma _transition_None st run state message meta times outs :
  runs st !! run = None →
  _transition run state message meta times outs st
    = (Raise (KeyError (pretty run)), st).
Proof.
  intros Hr. unfold _transition. rewrite bind_unfold. unfold now, gets at 1.
  lazy beta iota. by rewrite bind_unfold, the_run_None.
Qed.

Lemma SInv_transitioned st run r state message meta times outs :
  SInv st → runs st !! run = Some r →
  (∀ t, (t, run) ∉ scheduled st) →
  state ≠ Run.STATE.new → state ≠ Run.STATE.scheduled →
  SInv (transitioned st run r state message meta times outs).
Proof.
  intros HI Hr Hnq Hn Hs.
  apply (SInv_run_update st _ run
           (Run.applied r (clock st) state message meta times));
    try done; simpl.
  - apply (s_once _ HI).
  - intros t id Hin. case_decide; [|done]. subst. by destruct (Hnq t).
  - intros id Hid. destruct (Run.expected r); [done|]. by rewrite lookup_insert_ne.
  - intros t rr. destruct (Run.expected r) eqn:He.
    + intros Hrec. apply (s_durable _ HI) in Hrec as (r' & Hr' & He' & _).
      congruence.
    + rewrite lookup_insert_eq. intros [= _ <-]. split; [done|].
      apply same_but_program_refl.
  - intros He _. destruct (Run.expected r); [done|]. by rewrite lookup_insert_eq.
Qed.

(** A transition of a run that is not in the queue, to a state other
    than [new] and [scheduled]. *)
Lemma SInv__transition st run state message meta times outs :
  SInv st → (∀ t, (t, run) ∉ scheduled st) →
  state ≠ Run.STATE.new → state ≠ Run.STATE.scheduled →
  SInv (_transition run state message meta times outs st).2 ∧
  scheduled (_transition run state message meta times outs st).2 = scheduled st ∧
  futures (_transition run state message meta times outs st).2 = futures st ∧
  next_future (_transition run state message meta times outs st).2
    = next_future st ∧
  running_tasks (_transition run state message meta times outs st).2
    = running_tasks st ∧
  ((_transition run state message meta times outs st).1 = Ok () →
   ∃ r', runs (_transition run state message meta times outs st).2 !! run
           = Some r' ∧ Run.state r' = state).
Proof.
  intros HI Hnq Hn Hs. destruct (runs st !! run) as [r|] eqn:Hr.
  - destruct (Run.allowed (Run.state r) state) eqn:Hal;
      [|rewrite (_transition_refused _ _ r) by done; by split_and!].
    rewrite (_transition_eq _ _ r) by done.
    pose proof (SInv_transitioned st run r state message meta times outs
                  HI Hr Hnq Hn Hs) as HT.
    set (T := transitioned st run r state message meta times outs) in *.
    assert (HrT : runs T !! run
                  = Some (Run.applied r (clock st) state message meta times))
      by (simpl; apply lookup_insert_eq).
    case_decide.
    + destruct (__rerun_frame T run)
        as ((_ & H2 & H3 & _ & H5 & H6 & H7 & _ & H9 & _) & _).
      split; [by apply (SInv_same T)|]. rewrite H2, H3, H5, H7, H9.
      split_and!; try done. intros _. by eexists.
    + simpl. split_and!; try done. intros _.
      rewrite lookup_insert_eq. by eexists.
  - rewrite _transition_None by done. by split_and!.
Qed.

Lemma wps_of {A} (m : M A) (Q : Apsis → Prop) st :
  Q (m st).2 → wpe Q m (λ _, Q) st.
Proof. unfold wpe. by destruct (m st) as [[a|e] st']. Qed.

Lemma wps_to {A} (m : M A) (Q : Apsis → Prop) st :
  wpe Q m (λ _, Q) st → Q (m st).2.
Proof. unfold wpe. by destruct (m st) as [[a|e] st']. Qed.

Lemma SInv_set_log st f : SInv st → SInv (set_log f st).
Proof. intros HI. by apply (SInv_same st). Qed.

(** The callback [done] for a run that is out of the queue and has no
    pending future left. *)
Lemma SInv_done st run res :
  SInv st → (∀ t, (t, run) ∉ scheduled st) →
  (∀ fid fu, futures st !! fid = Some fu → fut_state fu = Pending →
             fut_run fu ≠ run) →
  SInv (done run res st).2.
Proof.
  intros HI Hnq Hnp.
  assert (Htail : ∀ state message meta times outs,
            state ≠ Run.STATE.new → state ≠ Run.STATE.scheduled →
            SInv ((_transition run state message meta times outs;;
                   st ← gets running_tasks;
                   match st !! run with
                   | Some _ => modify (set_running_tasks (delete run))
                   | None => raise (KeyError (pretty run))
                   end) st).2).
  { intros state message meta times outs Hn Hs. rewrite bind_unfold.
    destruct (SInv__transition st run state message meta times outs HI Hnq Hn Hs)
      as (HI1 & Hq & Hf & Hnf & Hrt & _).
    destruct (_transition run state message meta times outs st) as [[[]|e] s1];
      [|done]. cbn [fst snd] in *.
    rewrite bind_unfold. unfold gets at 1. lazy beta iota.
    destruct (running_tasks s1 !! run); [|done]. simpl.
    apply (SInv_frame s1); try done; simpl.
    - intros fid fu Hfu. by exists fu.
    - intros fid fu Hfu. by exists fu.
    - intros run' fid Hrt'. by apply lookup_delete_Some in Hrt' as [_ ?].
    - intros fid fu Hfu Hp Hrt'. rewrite lookup_delete_ne; [done|].
      intros Heq. rewrite Hf in Hfu. by apply (Hnp _ _ Hfu Hp). }
  destruct res as [success|e]; [by apply Htail|].
  destruct e; try done; try (by apply Htail).
  by apply SInv_set_log.
Qed.

Lemma SInv_resolve st future res : SInv st → SInv (resolve future res st).2.
Proof.
  intros HI. unfold resolve. rewrite bind_unfold. unfold gets at 1.
  lazy beta iota. destruct (futures st !! future) as [f|] eqn:Hf; [|done].
  destruct (fut_state f) eqn:Hp; [|done]. rewrite bind_unfold.
  unfold modify at 1. lazy beta iota.
  set (S1 := set_futures _ st).
  destruct (s_future _ HI _ _ Hf) as (_ & r & Hr & Hn & Hs).
  assert (HI1 : SInv S1).
  { apply (SInv_frame st); try done; simpl.
    - intros fid fu'. destruct (decide (fid = future)) as [->|Hne].
      + rewrite lookup_insert_eq. intros [= <-]. by exists f.
      + rewrite lookup_insert_ne by done. intros Hfu. by exists fu'.
    - intros fid fu Hfu. destruct (decide (fid = future)) as [->|Hne].
      + rewrite lookup_insert_eq. simplify_eq. by eexists.
      + rewrite lookup_insert_ne by done. by exists fu. }
  apply SInv_done; [done| |].
  - intros t Hin. apply (s_queue _ HI) in Hin as (r' & Hr' & Hs' & _). congruence.
  - simpl. intros fid fu. destruct (decide (fid = future)) as [->|Hne].
    + rewrite lookup_insert_eq. by intros [= <-].
    + rewrite lookup_insert_ne by done. intros Hfu _ Heq.
      apply Hne. by apply (s_one _ HI _ _ _ _ Hfu Hf).
Qed.

(** [__start] of a run that is out of the queue and has not been
    started. *)
Lemma SInv___start st run r started :
  SInv st → runs st !! run = Some r →
  (Run.state r = Run.STATE.new ∨ Run.state r = Run.STATE.scheduled) →
  (∀ t, (t, run) ∉ scheduled st) →
  SInv (__start run started st).2.
Proof.
  intros HI Hr Hst Hnq.
  assert (Hnf : ∀ fid fu, futures st !! fid = Some fu → fut_run fu ≠ run).
  { intros fid fu Hfu Heq. destruct (s_future _ HI _ _ Hfu) as (_ & r' & Hr' & ? & ?).
    rewrite Heq, Hr in Hr'. simplify_eq. by destruct Hst. }
  destruct (decide (is_Some (Run.program r)
                    ∨ is_Some (jobs st !! Inst.job_id (Run.inst r)))) as [Hcase|Hno].
  - destruct (bind_program_eq st run r Hr Hcase) as (r1 & Hsame & _ & Heq).
    rewrite Heq. clear Heq.
    set (S1 := set_runs (insert run r1) st).
    pose proof Hsame as (_ & _ & _ & He1 & Hs1 & Ht1 & _).
    assert (HI1 : SInv S1).
    { apply (SInv_run_update st _ run r1); try done; simpl.
      - intros fid fu Hfu Heq. by destruct (Hnf _ _ Hfu).
      - apply (s_once _ HI).
      - intros t id Hin. case_decide; [|done]. subst. by destruct (Hnq t).
      - intros t rr Hrec. apply (s_durable _ HI) in Hrec as (r' & Hr' & He' & Hsame').
        simplify_eq. split; [congruence|]. by eapply same_but_program_trans. 
      - intros He Hn. apply (s_persisted _ HI _ r); [done|congruence|congruence]. }
    destruct started as [running|e].
    + rewrite bind_unfold.
      destruct (SInv__transition S1 run Run.STATE.running None
                  (running_meta running) (running_times running) ∅ HI1 Hnq)
        as (HI2 & Hq2 & Hf2 & Hnf2 & Hrt2 & Hok); [done..|].
      destruct (_transition run Run.STATE.running None _ _ ∅ S1) as [[[]|e] s2];
        [|done]. cbn [fst snd] in *.
      destruct Hok as (r2 & Hr2 & Hs2); [done|].
      apply (SInv_wait s2 run r2); try done; [by rewrite Hs2..|].
      rewrite Hf2. apply Hnf.
    + destruct e; try done.
      by apply (SInv__transition S1).
  - assert (Hp : Run.program r = None).
    { destruct (Run.program r) eqn:Hp; [|done]. destruct Hno. left. by eexists. }
    assert (Hj : jobs st !! Inst.job_id (Run.inst r) = None).
    { destruct (jobs st !! _) eqn:Hj; [|done]. destruct Hno. right. by eexists. }
    unfold __start. rewrite bind_unfold, (the_run_eq _ _ _ Hr), Hp.
    rewrite bind_unfold. rewrite bind_unfold. unfold __get_program.
    rewrite bind_unfold, (the_run_eq _ _ _ Hr). rewrite bind_unfold.
    unfold Jobs.get_job. rewrite bind_unfold. simpl. by rewrite Hj.
Qed.

Lemma SInv_schedule st time run started :
  SInv st → Run.state run = Run.STATE.new →
  SInv (schedule time run started st).2.
Proof.
  intros HI Hnew. unfold schedule. rewrite bind_unfold.
  destruct (runs st !! Run.run_id run) as [r0|] eqn:Hfresh.
  { unfold Runs.add. rewrite bind_unfold. simpl. by rewrite Hfresh. }
  rewrite (Runs_add_eq _ _ Hfresh).
  set (S1 := set_runs (insert (Run.run_id run) run) st).
  assert (Hnq : ∀ t, (t, Run.run_id run) ∉ scheduled st).
  { intros t Hin. apply (s_queue _ HI) in Hin as (r' & Hr' & _). congruence. }
  assert (Hnf : ∀ fid fu, futures st !! fid = Some fu →
                          fut_run fu ≠ Run.run_id run).
  { intros fid fu Hfu Heq. destruct (s_future _ HI _ _ Hfu) as (_ & r' & Hr' & _).
    congruence. }
  assert (Hnd : ∀ t rr, run_db st !! Run.run_id run ≠ Some (t, rr)).
  { intros t rr Hrec. apply (s_durable _ HI) in Hrec as (r' & Hr' & _). congruence. }
  destruct time as [t|].
  - rewrite bind_unfold.
    change (ScheduledRuns.schedule t (Run.run_id run) S1) with
      (Ok (), set_scheduled
                (λ q, if decide ((t, Run.run_id run) ∈ q) then q
                      else (q ++ [(t, Run.run_id run)])%list) S1).
    lazy beta iota.
    rewrite (_transition_eq _ _ run);
      [|simpl; apply lookup_insert_eq|by rewrite Hnew].
    simpl.
    apply (SInv_run_update st _ (Run.run_id run)
             (Run.applied run (clock st) Run.STATE.scheduled None ∅
                              {[ "schedule" := Some t ]})); try done; simpl.
    + by rewrite insert_insert_eq.
    + intros fid fu Hfu Heq. by destruct (Hnf _ _ Hfu).
    + case_decide; [apply (s_once _ HI)|]. rewrite fmap_app.
      apply NoDup_app. split; [apply (s_once _ HI)|]. split; [|apply NoDup_singleton].
      intros id Hin Hid. apply list_elem_of_singleton in Hid.
      apply list_elem_of_fmap in Hin as ([t' id'] & Heq & Hin).
      simpl in *. subst. by destruct (Hnq t').
    + intros t' id Hin. case_decide as Hmem; [by destruct (Hnq t)|].
      apply elem_of_app in Hin as [Hin|Hin].
      * case_decide; [subst; by destruct (Hnq t')|done].
      * apply list_elem_of_singleton in Hin as [= -> ->].
        rewrite decide_True by done. split; [done|].
        apply lookup_union_Some_l, lookup_singleton_eq.
    + intros id Hid. destruct (Run.expected run); [done|]. by rewrite lookup_insert_ne.
    + intros t' rr. destruct (Run.expected run) eqn:He.
      * intros Hrec. by destruct (Hnd t' rr).
      * rewrite lookup_insert_eq. intros [= _ <-]. split; [done|].
        apply same_but_program_refl.
    + intros He _. destruct (Run.expected run); [done|]. by rewrite lookup_insert_eq.
  - apply (SInv___start S1 _ run); [|simpl; apply lookup_insert_eq|by left|done].
    apply (SInv_run_update st _ (Run.run_id run) run); try done; simpl.
    + intros fid fu Hfu Heq. by destruct (Hnf _ _ Hfu).
    + apply (s_once _ HI).
    + intros t id Hin. case_decide; [subst; by destruct (Hnq t)|done].
    + intros t rr Hrec. by destruct (Hnd t rr).
Qed.

Lemma SInv_cancel st run : SInv st → SInv (cancel run st).2.
Proof.
  intros HI. unfold cancel. rewrite bind_unfold.
  change (ScheduledRuns.unschedule run st)
    with (Ok (), set_scheduled (filter (λ e, e.2 ≠ run)) st).
  lazy beta iota. apply SInv__transition; [| |done..].
  - apply (SInv_frame st); try done; simpl.
    + apply sublist_filter.
    + intros fid fu Hfu. by exists fu.
    + intros fid fu Hfu. by exists fu.
  - simpl. intros t Hin. by apply list_elem_of_filter in Hin as [Hne _].
Qed.

Lemma remove_due_removes now run q q' :
  ScheduledRuns.remove_due now run q = Some q' →
  sublist q' q ∧ ∃ t, (t, run) ∈ q ∧ (NoDup q.*2 → ∀ t', (t', run) ∉ q').
Proof.
  revert q'. induction q as [|[t id] q IH]; intros q' Hrem; [done|].
  simpl in Hrem. case_decide as Hd.
  - simplify_eq. simpl in Hd. destruct Hd as [-> _].
    split; [by apply sublist_cons|]. exists t. split; [by left|].
    intros Hnd t' Hin. simpl in Hnd. apply NoDup_cons in Hnd as [Hni _].
    apply Hni. apply list_elem_of_fmap. by exists (t', run).
  - destruct (ScheduledRuns.remove_due now run q) as [q0|]; [|done].
    simpl in Hrem. simplify_eq. destruct (IH q0 eq_refl) as (Hsub & t0 & Hin & Hno).
    split; [by apply sublist_skip|]. exists t0. split; [by right|].
    intros Hnd t' Hin'. simpl in Hnd. apply NoDup_cons in Hnd as [Hni Hnd].
    apply elem_of_cons in Hin' as [[= -> <-]|Hin'].
    + apply Hni. apply list_elem_of_fmap. by exists (t0, run).
    + by apply (Hno Hnd t').
Qed.

Lemma SInv_release st run started : SInv st → SInv (release run started st).2.
Proof.
  intros HI. apply wps_to. unfold release. apply wp_bind, wp_gets.
  apply wp_bind, wp_gets.
  destruct (ScheduledRuns.remove_due (clock st) run (scheduled st)) as [q'|] eqn:Hrem;
    [|by apply wp_ret].
  destruct (remove_due_removes _ _ _ _ Hrem) as (Hsub & t & Hin & Hno).
  destruct (s_queue _ HI _ _ Hin) as (r & Hr & Hs & _).
  apply wp_bind, wp_modify. apply wps_of.
  apply (SInv___start _ _ r); [|done|by right|].
  - apply (SInv_frame st); try done; simpl.
    + intros fid fu Hfu. by exists fu.
    + intros fid fu Hfu. by exists fu.
  - simpl. apply Hno, (s_once _ HI).
Qed.

Lemma SInv_rerun st run time started : SInv st → SInv (rerun run time started st).2.
Proof.
  intros HI. apply wps_to. unfold rerun.
  apply wp_bind, wp_the_run; [done|]. intros r Hr.
  apply wp_bind, wp_log_info. apply wp_bind. unfold new_Run.
  apply wp_bind, wp_gets. apply wp_bind, wp_modify. apply wp_ret.
  apply wp_bind. eapply wp_mono.
  - apply wps_of. apply SInv_schedule; [|done].
    apply (SInv_same st); done.
  - intros [] s Hs. by apply wp_ret.
Qed.

Lemma SInv_run_task st started : SInv st → SInv (run_task started st).2.
Proof.
  intros HI. apply wps_to. unfold run_task. apply wp_bind, wp_gets.
  destruct (loop_tasks st) as [|[run time] rest]; [by apply wp_ret|].
  apply wp_bind, wp_modify. apply wp_bind. eapply wp_mono.
  - apply wps_of. apply SInv_rerun. by apply (SInv_same st).
  - intros ? s Hs. by apply wp_ret.
Qed.

Lemma SInv_same_but_cancelled st st' :
  SInv st → same_but_cancelled st st' → SInv st'.
Proof.
  intros HI (_ & H2 & H3 & _ & H5 & H6 & _ & _ & H9 & _ & Hf).
  apply (SInv_frame st); try done.
  - by rewrite H3.
  - intros fid fu' Hfu'. destruct (Hf fid) as [Hs|(fu & Hfu & Hp & Hc)].
    + rewrite Hs in Hfu'. by exists fu'.
    + rewrite Hc in Hfu'. simplify_eq. by exists fu.
  - intros fid fu Hfu. destruct (Hf fid) as [Hs|(fu0 & Hfu0 & Hp & Hc)].
    + rewrite Hs. by exists fu.
    + rewrite Hc. simplify_eq. by eexists.
  - by rewrite H5.
  - by rewrite H5.
Qed.

Lemma step_SInv st ev : SInv st → SInv (step ev st).2.
Proof.
  intros HI. destruct ev; simpl.
  - by apply (SInv_same st).
  - apply wps_to. apply wp_bind. unfold new_Run. apply wp_bind, wp_gets.
    apply wp_bind, wp_modify. apply wp_ret. apply wps_of.
    apply SInv_schedule; [by apply (SInv_same st)|done].
  - by apply SInv_release.
  - by apply SInv_resolve.
  - by apply SInv_run_task.
  - by apply SInv_cancel.
  - apply (SInv_same_but_cancelled st); [done|]. apply shut_down_spec.
Qed.

Lemma exec_SInv evs st : SInv st → SInv (exec evs st).
Proof.
  revert st. induction evs as [|ev evs IH]; intros st HI; [done|].
  simpl. apply IH. by apply step_SInv.
Qed.

Lemma reachable_SInv J t0 evs : SInv (exec evs (init J t0)).
Proof. apply exec_SInv, init_SInv. Qed.

(** X21. In every engine reached from an empty one by the events of
    [step], the timed queue holds a run at most once, and a run in the
    queue is in the run table in state [scheduled], has the time of its
    queue entry as [times["schedule"]], and has never been started: no
    future belongs to it. *)
Theorem queue_holds_scheduled_runs J t0 evs :
  NoDup (scheduled (exec evs (init J t0))).*2 ∧
  ∀ t id, (t, id) ∈ scheduled (exec evs (init J t0)) →
    (∃ r, runs (exec evs (init J t0)) !! id = Some r ∧
          Run.state r = Run.STATE.scheduled ∧
          Run.times r !! "schedule" = Some (Some t)) ∧
    ∀ fid fu, futures (exec evs (init J t0)) !! fid = Some fu → fut_run fu ≠ id.
Proof.
  pose proof (reachable_SInv J t0 evs) as HI. split; [apply (s_once _ HI)|].
  intros t id Hin. destruct (s_queue _ HI _ _ Hin) as (r & Hr & Hs & Ht).
  split; [by exists r|]. intros fid fu Hfu Heq.
  destruct (s_future _ HI _ _ Hfu) as (_ & r' & Hr' & _ & Hns). congruence.
Qed.

(** X22. In every engine reached from an empty one by the events of
    [step], a run is started at most once: no two futures belong to the
    same run, and the run of a future is in the run table in a state
    other than [new] and [scheduled]. *)
Theorem run_started_at_most_once J t0 evs :
  (∀ fid fid' fu fu',
     futures (exec evs (init J t0)) !! fid = Some fu →
     futures (exec evs (init J t0)) !! fid' = Some fu' →
     fut_run fu = fut_run fu' → fid = fid') ∧
  (∀ fid fu, futures (exec evs (init J t0)) !! fid = Some fu →
     ∃ r, runs (exec evs (init J t0)) !! fut_run fu = Some r ∧
          Run.state r ≠ Run.STATE.new ∧ Run.state r ≠ Run.STATE.scheduled).
Proof.
  pose proof (reachable_SInv J t0 evs) as HI. split; [apply (s_one _ HI)|].
  intros fid fu Hfu. by destruct (s_future _ HI _ _ Hfu).
Qed.

(** X23. In every engine reached from an empty one by the events of
    [step], [__running_tasks] and the futures agree: a pending future is
    registered under the id of its run, and an entry of
    [__running_tasks] names a future of that run. *)
Theorem running_tasks_hold_pending_futures J t0 evs :
  (∀ fid fu, futures (exec evs (init J t0)) !! fid = Some fu →
     fut_state fu = Pending →
     running_tasks (exec evs (init J t0)) !! fut_run fu = Some fid) ∧
  (∀ run fid, running_tasks (exec evs (init J t0)) !! run = Some fid →
     ∃ fu, futures (exec evs (init J t0)) !! fid = Some fu ∧ fut_run fu = run).
Proof.
  pose proof (reachable_SInv J t0 evs) as HI.
  split; [apply (s_registered _ HI)|apply (s_task _ HI)].
Qed.




(** X26. In every engine reached from an empty one by the events of
    [step], at most one run of a rerun family is in flight: the entries
    of the timed queue, the pending futures and the queued reruns that
    belong to one family are at most one altogether, so a rerun is never
    under way while another run of its family is. *)
Theorem family_has_one_live_item (J : gmap string Job.t) (t0 : Z)
    (evs : list Event) (f : nat) :
  (n_sched (exec evs (init J t0)) f + n_wait (exec evs (init J t0)) f
   + n_task (exec evs (init J t0)) f ≤ 1)%nat.
Proof.
  pose proof (exec_Inv J evs _ (init_Inv J t0)) as HI.
  pose proof (g_live _ _ _ _ HI f) as Hl. rewrite tk_None in Hl. lia.
Qed.

End EngineFacts.
